(** * Bayesian decision tree: the generic induction, pruning and query engine

    A shallow embedding of [bayesian_decision_tree/base.py] (class [BaseTree])
    and [bayesian_decision_tree/base_perpendicular.py] (class
    [BasePerpendicularTree]).

    Conventions of the embedding.
    - A Python method that mutates [self] is a function from the node to the
      updated node; a method that can raise returns a [result].
    - The engine computes with numbers, which are exact rationals ([Q]).  An
      array carries its numpy dtype; scalar arithmetic on the integer dtypes
      wraps around at the dtype's width, as numpy's does.  [fit] is embedded
      on training matrices of numbers and with exact arithmetic: NaN and
      infinite entries of a training matrix, a NaN [delta] and the rounding
      of sums and midpoints on the floating dtypes are outside the model,
      and a statement that depends on them says so.
    - A float can also be NaN or infinite.  [feature_importance], which
      divides by a sum that can be zero, returns such floats ([npfloat]).
      The queries that compare the entries of a query matrix, [predict] and
      [prediction_paths], are embedded a second time in the module [IEEE], on
      matrices of floats and with numpy's comparisons, which are all false on
      NaN; what is stated about the routing of query rows is stated there.
    - Only dense arrays of the numeric dtypes listed in [_ensure_float64] are
      modelled (sparse matrices take the same path through [_to_array]).
    - [verbose] printing and [side_name] have no effect on the tree and are
      left out, as are the constant fields [child_type] and [is_regression].
    - [np.argsort] and the interpreter's recursion limit are parameters of
      the engine. *)

From Stdlib Require Import String DecimalString.
From Stdlib Require Import List Bool Arith ZArith QArith Qround Lia Lqa.
From Stdlib Require Import Permutation Sorted.
Import ListNotations.

Set Implicit Arguments.
Set Warnings "-register-all".

Local Open Scope nat_scope.

(** ** Exceptions and results *)

Inductive exn : Type :=
| ValueError (msg : string)
| TypeError (msg : string)
| IndexError
| AttributeError
| RecursionError.

Inductive result (A : Type) : Type :=
| Ok (a : A)
| Raise (e : exn).

Arguments Ok {A} a.
Arguments Raise {A} e.

Notation "x <- c1 ;; c2" :=
  (match c1 with
   | Ok x => c2
   | Raise e => Raise e
   end)
  (at level 61, c1 at next level, right associativity).

Notation "' pat <- c1 ;; c2" :=
  (match c1 with
   | Ok pat => c2
   | Raise e => Raise e
   end)
  (at level 61, pat pattern, c1 at next level, right associativity).

Definition of_option {A} (o : option A) (e : exn) : result A :=
  match o with
  | Some a => Ok a
  | None => Raise e
  end.

(** The two messages of [_ensure_is_fitted]. *)
Definition NotFittedError : exn :=
  ValueError "Cannot predict on an untrained model; call .fit() first".

Definition BadInputDimensions : exn :=
  ValueError "Bad input dimensions".

(** ** numpy dtypes and scalars *)

Inductive npdtype : Type :=
| int8 | int16 | int32 | int64
| uint8 | uint16 | uint32 | uint64
| float32 | float64.

(** [Some (signed, bits)] for the integer dtypes. *)
Definition int_info (dt : npdtype) : option (bool * Z) :=
  match dt with
  | int8 => Some (true, 8%Z) | int16 => Some (true, 16%Z)
  | int32 => Some (true, 32%Z) | int64 => Some (true, 64%Z)
  | uint8 => Some (false, 8%Z) | uint16 => Some (false, 16%Z)
  | uint32 => Some (false, 32%Z) | uint64 => Some (false, 64%Z)
  | float32 | float64 => None
  end.

Definition wrap_int (signed : bool) (bits : Z) (z : Z) : Z :=
  if signed
  then ((z + 2 ^ (bits - 1)) mod 2 ^ bits - 2 ^ (bits - 1))%Z
  else (z mod 2 ^ bits)%Z.

(** [a + b] and [a - b] on two scalars of dtype [dt].  The elements of an
    integer array are integral, so [Qfloor] reads them back. *)
Definition scalar_add (dt : npdtype) (a b : Q) : Q :=
  match int_info dt with
  | Some (signed, bits) => inject_Z (wrap_int signed bits (Qfloor a + Qfloor b))
  | None => a + b
  end.

Definition scalar_sub (dt : npdtype) (a b : Q) : Q :=
  match int_info dt with
  | Some (signed, bits) => inject_Z (wrap_int signed bits (Qfloor a - Qfloor b))
  | None => a - b
  end.

Definition Qltb (a b : Q) : bool := if Qlt_le_dec a b then true else false.
Definition Qgeb (a b : Q) : bool := negb (Qltb a b).
Definition Qneqb (a b : Q) : bool := negb (Qeq_bool a b).

(** ** numpy array helpers on lists *)

(** [a[idx]] for an index array [idx]. *)
Fixpoint take {A} (a : list A) (idx : list nat) : result (list A) :=
  match idx with
  | [] => Ok []
  | i :: idx' =>
      x <- of_option (nth_error a i) IndexError ;;
      xs <- take a idx' ;;
      Ok (x :: xs)
  end.

Fixpoint set_nth {A} (a : list A) (i : nat) (v : A) : list A :=
  match a, i with
  | [], _ => []
  | _ :: a', O => v :: a'
  | x :: a', S i' => x :: set_nth a' i' v
  end.

(** [a[idx] = v] for a scalar [v]. *)
Fixpoint put_const {A} (a : list A) (idx : list nat) (v : A) : result (list A) :=
  match idx with
  | [] => Ok a
  | i :: idx' =>
      if i <? length a then put_const (set_nth a i v) idx' v
      else Raise IndexError
  end.

Fixpoint put_loop {A} (a : list A) (idx : list nat) (vals : list A) : result (list A) :=
  match idx, vals with
  | i :: idx', v :: vals' =>
      if i <? length a then put_loop (set_nth a i v) idx' vals'
      else Raise IndexError
  | _, _ => Ok a
  end.

(** [a[idx] = vals] for an array [vals] of the same length as [idx]. *)
Definition put {A} (a : list A) (idx : list nat) (vals : list A) : result (list A) :=
  if length idx =? length vals then put_loop a idx vals
  else Raise (ValueError "shape mismatch").

(** [np.where(mask)[0]]. *)
Definition np_where (mask : list bool) : list nat :=
  filter (fun i => nth i mask false) (seq 0 (length mask)).

(** [np.diff(a)] at dtype [dt]. *)
Fixpoint np_diff (dt : npdtype) (a : list Q) : list Q :=
  match a with
  | x :: ((y :: _) as a') => scalar_sub dt y x :: np_diff dt a'
  | _ => []
  end.

(** [a.argmax()]: the first position of the largest entry. *)
Fixpoint argmax_from (best : Q) (best_i : nat) (i : nat) (a : list Q) : nat :=
  match a with
  | [] => best_i
  | x :: a' =>
      if Qltb best x then argmax_from x i (S i) a'
      else argmax_from best best_i (S i) a'
  end.

Definition argmax (a : list Q) : result nat :=
  match a with
  | [] => Raise (ValueError "attempt to get argmax of an empty sequence")
  | x :: a' => Ok (argmax_from x 0 1 a')
  end.

(** [np.unique(a)], up to order: the distinct values of [a]. *)
Fixpoint np_unique (a : list Q) : list Q :=
  match a with
  | [] => []
  | x :: a' => x :: filter (fun y => Qneqb y x) (np_unique a')
  end.

(** [i in l]. *)
Definition mem (i : nat) (l : list nat) : bool := existsb (Nat.eqb i) l.

(** ** Dense 2-D arrays *)

(** A 2-D [ndarray]: its dtype, its shape and its elements. [data i j] is
    read only for [i < nrows] and [j < ncols]. *)
Record ndarray : Type := mk_ndarray {
  dtype : npdtype;
  nrows : nat;
  ncols : nat;
  data : nat -> nat -> Q }.

Definition of_rows (dt : npdtype) (d : nat) (rows : list (list Q)) : ndarray :=
  mk_ndarray dt (length rows) d (fun i j => nth j (nth i rows []) 0%Q).

(** [X[i, j]]. *)
Definition get (X : ndarray) (i j : nat) : result Q :=
  if (i <? nrows X) && (j <? ncols X) then Ok (data X i j) else Raise IndexError.

(** A Python index into an axis of length [n]: negative indices count from
    the end. *)
Definition py_index (n : nat) (k : Z) : result nat :=
  if (0 <=? k)%Z && (k <? Z.of_nat n)%Z then Ok (Z.to_nat k)
  else if (- Z.of_nat n <=? k)%Z && (k <? 0)%Z then Ok (Z.to_nat (Z.of_nat n + k))
  else Raise IndexError.

(** [X[:, dim]]. *)
Definition column (X : ndarray) (dim : Z) : result (list Q) :=
  j <- py_index (ncols X) dim ;;
  Ok (map (fun i => data X i j) (seq 0 (nrows X))).

(** [X[idx, dim]] for an index array [idx]. *)
Definition column_at (X : ndarray) (idx : list nat) (dim : nat) : result (list Q) :=
  if dim <? ncols X then
    if forallb (fun i => i <? nrows X) idx
    then Ok (map (fun i => data X i dim) idx)
    else Raise IndexError
  else Raise IndexError.

(** [X[idx]]: the rows of [X] listed in [idx]. *)
Definition take_rows (X : ndarray) (idx : list nat) : result ndarray :=
  if forallb (fun i => i <? nrows X) idx
  then Ok (mk_ndarray (dtype X) (length idx) (ncols X)
             (fun i j => data X (nth i idx 0) j))
  else Raise IndexError.

(** ** Inputs accepted by [fit] and the queries *)

(** What a caller may pass as [X]: a Python scalar, a 1-D list or array, a
    2-D list or array, an array of another rank (given by its shape), or a
    [pandas.DataFrame]. *)
Inductive array_like : Type :=
| PyScalar (x : Q)
| Array1 (dt : npdtype) (elems : list Q)
| Array2 (X : ndarray)
| ArrayN (dt : npdtype) (shape : list nat)
| DataFrame (columns : list string) (values : ndarray).

Definition string_of_nat (n : nat) : string :=
  DecimalString.NilZero.string_of_uint (Nat.to_uint n).

(** ['x{}'.format(i) for i in range(d)]. *)
Definition default_feature_names (d : nat) : list string :=
  map (fun i => String.append "x" (string_of_nat i)) (seq 0 d).

(** [_ensure_float64]: the dtypes of [npdtype] are exactly those of its
    first test, on which it returns its argument. *)
Definition _ensure_float64 {A} (data : A) : result A := Ok data.

(** [_normalize_data_and_feature_names]. *)
Definition _normalize_data_and_feature_names
    (X : array_like) (feature_names : option (list string))
  : result (ndarray * list string) :=
  match X with
  | DataFrame columns values =>
      let feature_names :=
        match feature_names with Some f => f | None => columns end in
      X <- _ensure_float64 values ;;
      Ok (X, feature_names)
  | PyScalar x =>
      (* np.array([X]), then expand_dims *)
      let X := of_rows float64 1 [[x]] in
      let feature_names :=
        match feature_names with
        | Some f => f
        | None => default_feature_names (ncols X)
        end in
      X <- _ensure_float64 X ;;
      Ok (X, feature_names)
  | Array1 dt elems =>
      (* X.ndim == 1: np.expand_dims(X, 0) *)
      let X := of_rows dt (length elems) [elems] in
      let feature_names :=
        match feature_names with
        | Some f => f
        | None => default_feature_names (ncols X)
        end in
      X <- _ensure_float64 X ;;
      Ok (X, feature_names)
  | Array2 X =>
      let feature_names :=
        match feature_names with
        | Some f => f
        | None => default_feature_names (ncols X)
        end in
      X <- _ensure_float64 X ;;
      Ok (X, feature_names)
  | ArrayN dt shape =>
      _ <- match feature_names with
           | Some f => Ok f
           | None =>
               (* X.shape[1] *)
               d <- of_option (nth_error shape 1) IndexError ;;
               Ok (default_feature_names d)
           end ;;
      Raise (ValueError "X should have 2 dimensions")
  end.

(** ** Nodes *)

Section Nodes.

(** The type of the priors and posteriors of the model family. *)
Variable Dist : Type.

Inductive node : Type := mk_node {
  partition_prior : Q;
  prior : Dist;
  level : nat;
  n_dim : option nat;
  posterior : option Dist;
  n_data : option nat;
  child1 : option node;
  child2 : option node;
  log_p_data_no_split : option Q;
  best_log_p_data_split : option Q;
  split_dimension : Z;
  split_value : option Q;
  split_feature_name : option string }.

(** [_erase_split_info_base]. *)
Definition _erase_split_info_base (self : node) : node :=
  mk_node (partition_prior self) (prior self) (level self) (n_dim self)
    (posterior self) (n_data self)
    None None None None
    (split_dimension self) (split_value self) (split_feature_name self).

(** [_erase_split_info]. *)
Definition _erase_split_info (self : node) : node :=
  mk_node (partition_prior self) (prior self) (level self) (n_dim self)
    (posterior self) (n_data self)
    (child1 self) (child2 self)
    (log_p_data_no_split self) (best_log_p_data_split self)
    (-1)%Z None None.

(** [__init__] of [BasePerpendicularTree], which is also [child_type(...)]. *)
Definition new_node (partition_prior : Q) (prior : Dist) (level : nat) : node :=
  _erase_split_info
    (_erase_split_info_base
       (mk_node partition_prior prior level None None None
          None None None None (-1)%Z None None)).

Definition set_children (self : node) (c1 c2 : option node) : node :=
  mk_node (partition_prior self) (prior self) (level self) (n_dim self)
    (posterior self) (n_data self)
    c1 c2
    (log_p_data_no_split self) (best_log_p_data_split self)
    (split_dimension self) (split_value self) (split_feature_name self).

(** [self.posterior = p; self.n_data = n]. *)
Definition set_posterior_n_data (self : node) (p : Dist) (n : nat) : node :=
  mk_node (partition_prior self) (prior self) (level self) (n_dim self)
    (Some p) (Some n)
    (child1 self) (child2 self)
    (log_p_data_no_split self) (best_log_p_data_split self)
    (split_dimension self) (split_value self) (split_feature_name self).

(** [self.n_dim = d; self.n_data = n; self.posterior = p]. *)
Definition set_fitted (self : node) (d n : nat) (p : Dist) : node :=
  mk_node (partition_prior self) (prior self) (level self) (Some d)
    (Some p) (Some n)
    (child1 self) (child2 self)
    (log_p_data_no_split self) (best_log_p_data_split self)
    (split_dimension self) (split_value self) (split_feature_name self).

(** The assignments of [_fit] that store the split. *)
Definition set_split (self : node) (dim : Z) (name : string) (value : Q)
    (no_split best : Q) (c1 c2 : node) : node :=
  mk_node (partition_prior self) (prior self) (level self) (n_dim self)
    (posterior self) (n_data self)
    (Some c1) (Some c2)
    (Some no_split) (Some best)
    dim (Some value) (Some name).

End Nodes.

(** ** The model family *)

(** Modelled from the spec: the concrete model families (the subclasses that
    implement the abstract methods [_check_target],
    [_compute_log_p_data_no_split], [_compute_log_p_data_split],
    [_compute_posterior], [_compute_posterior_mean] and [_predict_leaf]) are
    not part of the engine.  Following the plugin interface of the spec, a
    family computes from the node's constructor arguments
    ([partition_prior], [prior], [level]) and the targets, and predicts from a
    posterior. *)
Class ModelFamily : Type := {
  Dist : Type;
  check_target : list Q -> result unit;
  compute_log_p_data_no_split :
    Q -> Dist -> nat -> list Q -> Q;
  compute_log_p_data_split :
    Q -> Dist -> nat -> list Q -> list nat -> nat -> list Q;
  compute_posterior :
    Q -> Dist -> nat -> list Q -> Q -> Dist;
  compute_posterior_mean : Dist -> list Q;
  predict_leaf : Dist -> Q }.

(** The result of a division of floats. *)
Inductive npfloat : Type :=
| finite (q : Q)
| inf (negative : bool)
| nan.

(** [a / b] on float64, with numpy's results for a zero divisor. *)
Definition true_divide (a b : Q) : npfloat :=
  if Qeq_bool b 0 then
    if Qeq_bool a 0 then nan else inf (Qltb a 0)
  else finite (a / b).

Section Engine.

Context {F : ModelFamily}.

(** [np.argsort]: the default sort is not stable, so the order it gives to
    equal keys is left open. *)
Variable argsort : list Q -> list nat.

(** The interpreter's bound on the depth of the call stack
    ([sys.getrecursionlimit()]), as seen by the two recursive methods that
    are not structural in the tree, [_fit] and [_prune]. *)
Variable recursion_limit : nat.

(** [_ensure_is_fitted]. *)
Definition _ensure_is_fitted (self : node Dist) (X : option ndarray) : result unit :=
  match posterior self with
  | None => Raise NotFittedError
  | Some _ =>
      match X with
      | Some X =>
          if match n_dim self with
             | Some d => negb (ncols X =? d)
             | None => true
             end
          then Raise BadInputDimensions
          else Ok tt
      | None => Ok tt
      end
  end.

(** [is_leaf]. *)
Definition is_leaf (self : node Dist) : result bool :=
  _ <- _ensure_is_fitted self None ;;
  Ok match split_value self with None => true | Some _ => false end.

(** [_predict_leaf], on the node's posterior. *)
Definition _predict_leaf (self : node Dist) : result Q :=
  p <- of_option (posterior self) (TypeError "posterior is None") ;;
  Ok (predict_leaf p).

(** ** Prediction *)

(** [_compute_child1_and_child2_indices]. *)
Definition _compute_child1_and_child2_indices (self : node Dist) (X : ndarray)
  : result (list nat * list nat) :=
  X_split <- column X (split_dimension self) ;;
  split_value <- of_option (split_value self)
                   (TypeError "'<' not supported with NoneType") ;;
  let indices1 := np_where (map (fun x => Qltb x split_value) X_split) in
  let indices2 := np_where (map (fun x => Qgeb x split_value) X_split) in
  Ok (indices1, indices2).

(** [_create_merged_predictions_array] for class predictions:
    [np.zeros(X.shape[0])]. *)
Definition _create_merged_predictions_array (X : ndarray) : list Q :=
  repeat 0%Q (nrows X).

(** [_predict] with [predict_class=True].  The result is [None] when a
    non-leaf node is given no rows.  A child that is given rows of numbers
    returns an array (lemma [_predict_routes]), so the assignment of [None],
    which numpy stores as NaN and an array of numbers cannot hold, is not
    reached here; [IEEE._predict] has it. *)
Fixpoint _predict (self : node Dist) (X : ndarray) : result (option (list Q)) :=
  leaf <- is_leaf self ;;
  if (leaf : bool) then
    prediction <- _predict_leaf self ;;
    let predictions := _create_merged_predictions_array X in
    (* predictions[:] = prediction *)
    Ok (Some (map (fun _ => prediction) predictions))
  else
    ' (indices1, indices2) <- _compute_child1_and_child2_indices self X ;;
    predictions_merged <-
      (if 0 <? length indices1 then
         X1 <- take_rows X indices1 ;;
         match child1 self with
         | None => Raise AttributeError
         | Some c1 =>
             predictions1 <- _predict c1 X1 ;;
             predictions1 <- of_option predictions1
                               (TypeError "NoneType assigned to an array") ;;
             merged <- put (_create_merged_predictions_array X)
                         indices1 predictions1 ;;
             Ok (Some merged)
         end
       else Ok None) ;;
    if 0 <? length indices2 then
      X2 <- take_rows X indices2 ;;
      match child2 self with
      | None => Raise AttributeError
      | Some c2 =>
          predictions2 <- _predict c2 X2 ;;
          predictions2 <- of_option predictions2
                            (TypeError "NoneType assigned to an array") ;;
          let predictions_merged :=
            match predictions_merged with
            | Some m => m
            | None => _create_merged_predictions_array X
            end in
          merged <- put predictions_merged indices2 predictions2 ;;
          Ok (Some merged)
      end
    else Ok predictions_merged.

(** [predict]. *)
Definition predict (self : node Dist) (X : array_like) : result (list Q) :=
  ' (X, _) <- _normalize_data_and_feature_names X None ;;
  _ <- _ensure_is_fitted self (Some X) ;;
  prediction <- _predict self X ;;
  match prediction with
  | Some prediction => Ok prediction
  | None => Ok (_create_merged_predictions_array X)
  end.

(** ** Prediction paths *)

(** One step of a path: [(split_dimension, split_feature_name, split_value,
    went_right)], with the fields as the node stores them. *)
Definition step : Type := (Z * option string * option Q * bool)%type.

(** The path lists are Python list objects that [paths], [paths1] and
    [paths2] share: the store maps the address of a list object to its
    contents, and the lists of paths hold addresses. *)
Definition path_store : Type := list (list step).

(** [for i in indices: paths[i].append(step)]. *)
Fixpoint append_step (paths : list nat) (indices : list nat) (s : step)
    (h : path_store) : result path_store :=
  match indices with
  | [] => Ok h
  | i :: indices' =>
      r <- of_option (nth_error paths i) IndexError ;;
      p <- of_option (nth_error h r) IndexError ;;
      append_step paths indices' s (set_nth h r (p ++ [s]))
  end.

(** [_update_prediction_paths]. *)
Fixpoint _update_prediction_paths (self : node Dist) (X : ndarray)
    (paths : list nat) (h : path_store) : result path_store :=
  leaf <- is_leaf self ;;
  if (leaf : bool) then Ok h
  else
    ' (indices1, indices2) <- _compute_child1_and_child2_indices self X ;;
    h <- (if 0 <? length indices1 then
            append_step paths indices1
              (split_dimension self, split_feature_name self,
               split_value self, false) h
          else Ok h) ;;
    h <- (if 0 <? length indices2 then
            append_step paths indices2
              (split_dimension self, split_feature_name self,
               split_value self, true) h
          else Ok h) ;;
    h <- (if 0 <? length indices1 then
            match child1 self with
            | None => Raise AttributeError
            | Some c1 =>
                leaf1 <- is_leaf c1 ;;
                if (leaf1 : bool) then Ok h
                else
                  X1 <- take_rows X indices1 ;;
                  paths1 <- take paths indices1 ;;
                  _update_prediction_paths c1 X1 paths1 h
            end
          else Ok h) ;;
    if 0 <? length indices2 then
      match child2 self with
      | None => Raise AttributeError
      | Some c2 =>
          leaf2 <- is_leaf c2 ;;
          if (leaf2 : bool) then Ok h
          else
            X2 <- take_rows X indices2 ;;
            paths2 <- take paths indices2 ;;
            _update_prediction_paths c2 X2 paths2 h
      end
    else Ok h.

(** [prediction_paths]: [paths] starts as [X.shape[0]] fresh empty lists. *)
Definition prediction_paths (self : node Dist) (X : array_like)
  : result (list (list step)) :=
  ' (X, _) <- _normalize_data_and_feature_names X None ;;
  _ <- _ensure_is_fitted self (Some X) ;;
  let paths := seq 0 (nrows X) in
  h <- _update_prediction_paths self X paths (repeat [] (nrows X)) ;;
  take h paths.

(** ** Feature importance *)

(** [a[k] += v] with a Python index [k]. *)
Definition add_at (a : list Q) (k : Z) (v : Q) : result (list Q) :=
  i <- py_index (length a) k ;;
  x <- of_option (nth_error a i) IndexError ;;
  Ok (set_nth a i (x + v)%Q).

(** [_update_feature_importance]. *)
Fixpoint _update_feature_importance (self : node Dist) (feature_importance : list Q)
  : result (list Q) :=
  leaf <- is_leaf self ;;
  if (leaf : bool) then Ok feature_importance
  else
    best <- of_option (best_log_p_data_split self)
              (TypeError "unsupported operand type(s) for -") ;;
    no_split <- of_option (log_p_data_no_split self)
                  (TypeError "unsupported operand type(s) for -") ;;
    let log_p_gain := (best - no_split)%Q in
    feature_importance <-
      add_at feature_importance (split_dimension self) log_p_gain ;;
    match child1 self with
    | None => Ok feature_importance
    | Some c1 =>
        feature_importance <- _update_feature_importance c1 feature_importance ;;
        match child2 self with
        | None => Raise AttributeError
        | Some c2 => _update_feature_importance c2 feature_importance
        end
    end.

Definition Qsum (a : list Q) : Q := fold_right Qplus 0%Q a.

(** [feature_importance]. *)
Definition feature_importance (self : node Dist) : result (list npfloat) :=
  _ <- _ensure_is_fitted self None ;;
  d <- of_option (n_dim self) (TypeError "expected a sequence of integers") ;;
  fi <- _update_feature_importance self (repeat 0%Q d) ;;
  let total := Qsum fi in
  Ok (map (fun x => true_divide x total) fi).

(** ** Depth and number of leaves *)

(** [_update_depth]. *)
Fixpoint _update_depth (self : node Dist) (depth : nat) : result nat :=
  leaf <- is_leaf self ;;
  if (leaf : bool) then Ok (Nat.max depth (level self))
  else
    match child1 self with
    | None => Ok depth
    | Some c1 =>
        depth <- _update_depth c1 depth ;;
        match child2 self with
        | None => Raise AttributeError
        | Some c2 => _update_depth c2 depth
        end
    end.

(** [_update_n_leaves]. *)
Fixpoint _update_n_leaves (self : node Dist) (n_leaves : nat) : result nat :=
  leaf <- is_leaf self ;;
  if (leaf : bool) then Ok (n_leaves + 1)
  else
    match child1 self with
    | None => Ok n_leaves
    | Some c1 =>
        n_leaves <- _update_n_leaves c1 n_leaves ;;
        match child2 self with
        | None => Raise AttributeError
        | Some c2 => _update_n_leaves c2 n_leaves
        end
    end.

Definition get_depth (self : node Dist) : result nat := _update_depth self 0.

Definition get_n_leaves (self : node Dist) : result nat := _update_n_leaves self 0.

(** ** Pruning *)

(** [_prune].  [fuel] is what is left of the recursion limit; running out of
    it is Python's [RecursionError]. *)
Fixpoint _prune (fuel : nat) (self : node Dist) : result (node Dist) :=
  match fuel with
  | O => Raise RecursionError
  | S fuel =>
      leaf <- is_leaf self ;;
      if (leaf : bool) then Ok self
      else
        depth_start <- get_depth self ;;
        n_leaves_start <- get_n_leaves self ;;
        c1 <- of_option (child1 self) AttributeError ;;
        leaf1 <- is_leaf c1 ;;
        both <- (if (leaf1 : bool) then
                   c2 <- of_option (child2 self) AttributeError ;;
                   is_leaf c2
                 else Ok false) ;;
        self <-
          (if (both : bool) then
             c2 <- of_option (child2 self) AttributeError ;;
             p1 <- _predict_leaf c1 ;;
             p2 <- _predict_leaf c2 ;;
             if Qeq_bool p1 p2
             then Ok (_erase_split_info (_erase_split_info_base self))
             else Ok self
           else
             c1' <- _prune fuel c1 ;;
             c2 <- of_option (child2 self) AttributeError ;;
             c2' <- _prune fuel c2 ;;
             Ok (set_children self (Some c1') (Some c2'))) ;;
        depth_end <- get_depth self ;;
        n_leaves_end <- get_n_leaves self ;;
        if negb (depth_start =? depth_end) || negb (n_leaves_start =? n_leaves_end)
        then _prune fuel self
        else Ok self
  end.

(** [prune()]: the call [self._prune()] of [fit]. *)
Definition prune (self : node Dist) : result (node Dist) :=
  _prune recursion_limit self.

(** ** Induction *)

(** [a[mask]] for a boolean mask. *)
Fixpoint compress {A} (mask : list bool) (a : list A) : list A :=
  match mask, a with
  | m :: mask', x :: a' =>
      if (m : bool) then x :: compress mask' a' else compress mask' a'
  | _, _ => []
  end.

(** [si[active[si]]]. *)
Definition select_active (active : list bool) (si : list nat)
  : result (list nat) :=
  mask <- take active si ;;
  Ok (compress mask si).

Fixpoint select_active_all (active : list bool) (sort_indices_by_dim : list (list nat))
  : result (list (list nat)) :=
  match sort_indices_by_dim with
  | [] => Ok []
  | si :: rest =>
      si' <- select_active active si ;;
      rest' <- select_active_all active rest ;;
      Ok (si' :: rest')
  end.

(** [a.shape[1]] for the array [a = np.array(rows)]. *)
Definition shape1 (rows : list (list nat)) : result nat :=
  match rows with
  | [] => Raise IndexError
  | r :: rest =>
      if forallb (fun r' => length r' =? length r) rest
      then Ok (length r)
      else Raise IndexError
  end.

(** The sort indices computed on first entry: one [argsort] per column. *)
Fixpoint initial_sort_indices (X : ndarray) (dims : list nat)
  : result (list (list nat)) :=
  match dims with
  | [] => Ok []
  | dim :: dims' =>
      X_dim <- column X (Z.of_nat dim) ;;
      rest <- initial_sort_indices X dims' ;;
      Ok (argsort X_dim :: rest)
  end.

(** [1 + np.where(np.diff(X_dim_sorted) != 0)[0]]: the positions at which
    the sorted column changes value. *)
Definition candidate_split_indices (X : ndarray) (sort_indices : list nat)
    (dim : nat) : result (list nat) :=
  X_dim_sorted <- column_at X sort_indices dim ;;
  Ok (map S (np_where (map (fun d => Qneqb d 0)
                         (np_diff (dtype X) X_dim_sorted)))).

(** The marginal log-likelihoods of the candidate splits of dimension
    [dim]. *)
Definition split_log_likelihoods (self : node Dist) (y : list Q)
    (sort_indices split_indices : list nat) (n_dim : nat) : result (list Q) :=
  y_sorted <- take y sort_indices ;;
  Ok (compute_log_p_data_split (partition_prior self) (prior self) (level self)
        y_sorted split_indices n_dim).

(** The variables of the search loop: [best_log_p_data_split],
    [best_split_index] and [best_split_dimension]. *)
Definition search_state : Type := (Q * Z * Z)%type.

(** The body of the loop over the dimensions. *)
Definition search_dim (self : node Dist) (X : ndarray) (y : list Q) (n_dim : nat)
    (sort_indices_by_dim : list (list nat)) (st : search_state) (dim : nat)
  : result search_state :=
  let '(best_log_p_data_split, best_split_index, best_split_dimension) := st in
  sort_indices <- of_option (nth_error sort_indices_by_dim dim) IndexError ;;
  split_indices <- candidate_split_indices X sort_indices dim ;;
  if length split_indices =? 0 then Ok st
  else
    log_p_data_split <-
      split_log_likelihoods self y sort_indices split_indices n_dim ;;
    i_max <- argmax log_p_data_split ;;
    best <- of_option (nth_error log_p_data_split i_max) IndexError ;;
    if Qltb best_log_p_data_split best then
      index <- of_option (nth_error split_indices i_max) IndexError ;;
      Ok (best, Z.of_nat index, Z.of_nat dim)
    else Ok st.

Fixpoint search_dims (self : node Dist) (X : ndarray) (y : list Q) (n_dim : nat)
    (sort_indices_by_dim : list (list nat)) (st : search_state)
    (dims : list nat) : result search_state :=
  match dims with
  | [] => Ok st
  | dim :: dims' =>
      st <- search_dim self X y n_dim sort_indices_by_dim st dim ;;
      search_dims self X y n_dim sort_indices_by_dim st dims'
  end.

(** [_fit].  [fuel] is what is left of the recursion limit. *)
Fixpoint _fit (fuel : nat) (self : node Dist) (X : ndarray) (y : list Q)
    (delta : Q) (feature_names : list string)
    (sort_indices_by_dim : option (list (list nat))) : result (node Dist) :=
  match fuel with
  | O => Raise RecursionError
  | S fuel =>
      n_data <- match sort_indices_by_dim with
                | Some s => shape1 s
                | None => Ok (nrows X)
                end ;;
      let n_dim := ncols X in
      sort_indices_by_dim <-
        match sort_indices_by_dim with
        | Some s => Ok s
        | None => initial_sort_indices X (seq 0 n_dim)
        end ;;
      row0 <- of_option (nth_error sort_indices_by_dim 0) IndexError ;;
      y0 <- take y row0 ;;
      let log_p_data_no_split :=
        compute_log_p_data_no_split
          (partition_prior self) (prior self) (level self) y0 in
      ' (best_log_p_data_split, best_split_index, best_split_dimension) <-
        search_dims self X y n_dim sort_indices_by_dim
          (log_p_data_no_split, (-1)%Z, (-1)%Z) (seq 0 n_dim) ;;
      self <-
        (if (0 <? best_split_index)%Z then
           let best_split_index := Z.to_nat best_split_index in
           row <- of_option
                    (nth_error sort_indices_by_dim (Z.to_nat best_split_dimension))
                    IndexError ;;
           let indices1 := firstn best_split_index row in
           let indices2 := skipn best_split_index row in
           active1 <- put_const (repeat false (nrows X)) indices1 true ;;
           active2 <- put_const (repeat false (nrows X)) indices2 true ;;
           sort_indices_by_dim_1 <- select_active_all active1 sort_indices_by_dim ;;
           sort_indices_by_dim_2 <- select_active_all active2 sort_indices_by_dim ;;
           n_data1 <- shape1 sort_indices_by_dim_1 ;;
           n_data2 <- shape1 sort_indices_by_dim_2 ;;
           y1 <- take y indices1 ;;
           y2 <- take y indices2 ;;
           let prior_child1 :=
             if Qneqb delta 0
             then compute_posterior (partition_prior self) (prior self)
                    (level self) y1 delta
             else prior self in
           let prior_child2 :=
             if Qneqb delta 0
             then compute_posterior (partition_prior self) (prior self)
                    (level self) y2 delta
             else prior self in
           name <- of_option
                     (nth_error feature_names (Z.to_nat best_split_dimension))
                     IndexError ;;
           last1 <- of_option (nth_error indices1 (length indices1 - 1))
                      IndexError ;;
           first2 <- of_option (nth_error indices2 0) IndexError ;;
           x1 <- get X last1 (Z.to_nat best_split_dimension) ;;
           x2 <- get X first2 (Z.to_nat best_split_dimension) ;;
           let split_value := ((1 # 2) * scalar_add (dtype X) x1 x2)%Q in
           let c1 := new_node (partition_prior self) prior_child1 (level self + 1) in
           let c2 := new_node (partition_prior self) prior_child2 (level self + 1) in
           c1 <- (if (1 <? n_data1) && (1 <? length (np_unique y1)) then
                    _fit fuel c1 X y delta feature_names (Some sort_indices_by_dim_1)
                  else
                    Ok (set_posterior_n_data c1
                          (compute_posterior (partition_prior self) (prior self)
                             (level self) y1 1)
                          n_data1)) ;;
           c2 <- (if (1 <? n_data2) && (1 <? length (np_unique y2)) then
                    _fit fuel c2 X y delta feature_names (Some sort_indices_by_dim_2)
                  else
                    Ok (set_posterior_n_data c2
                          (compute_posterior (partition_prior self) (prior self)
                             (level self) y2 1)
                          n_data2)) ;;
           Ok (set_split self best_split_dimension name split_value
                 log_p_data_no_split best_log_p_data_split c1 c2)
         else Ok self) ;;
      Ok (set_fitted self n_dim n_data
            (compute_posterior (partition_prior self) (prior self) (level self)
               y0 1))
  end.

(** [fit].  [y.squeeze()] turns a single target into a 0-d array, on which
    [len(y)] raises. *)
Definition fit (self : node Dist) (X : array_like) (y : list Q) (delta : Q)
    (prune_after : bool) (feature_names : option (list string)) : result (node Dist) :=
  y <- _ensure_float64 y ;;
  _ <- check_target y ;;
  if Qltb delta 0 || Qltb 1 delta
  then Raise (ValueError "Delta must be between 0.0 and 1.0")
  else
    ' (X, feature_names) <- _normalize_data_and_feature_names X feature_names ;;
    if length y =? 1 then Raise (TypeError "len() of unsized object")
    else if negb (nrows X =? length y) then Raise (ValueError "Invalid shapes")
    else
      self <- _fit recursion_limit self X y delta feature_names None ;;
      if (prune_after : bool) then prune self else Ok self.

End Engine.

(** ** A concrete [argsort] and a concrete model family *)

(** Insertion of index [i] into a list of indices sorted by [key]. *)
Fixpoint insert_by (key : nat -> Q) (i : nat) (l : list nat) : list nat :=
  match l with
  | [] => [i]
  | j :: l' =>
      if Qltb (key j) (key i) || Qeq_bool (key j) (key i)
      then j :: insert_by key i l'
      else i :: l
  end.

(** A stable [argsort]. *)
Definition stable_argsort (a : list Q) : list nat :=
  fold_right (insert_by (fun i => nth i a 0%Q)) [] (seq 0 (length a)).

Module Categorical.

Local Open Scope Q_scope.

(** An example family, to run the engine on concrete inputs.  Targets are
    class labels [0, 1, ..., K-1] and the prior is a vector of K Dirichlet
    weights: the posterior adds the class counts to the prior and a leaf
    predicts the class of largest posterior weight.  The likelihood of a set
    of targets is scored by its Gini impurity, and a split pays
    [1 - partition_prior]. *)

Definition count (y : list Q) (k : nat) : Q :=
  inject_Z (Z.of_nat (length (filter (fun v => Qeq_bool v (inject_Z (Z.of_nat k))) y))).

Definition counts (K : nat) (y : list Q) : list Q :=
  map (count y) (seq 0 K).

Definition gini (K : nat) (y : list Q) : Q :=
  let n := inject_Z (Z.of_nat (length y)) in
  if Qeq_bool n 0 then 0
  else Qsum (map (fun c => c * (n - c) / n) (counts K y)).

Definition posterior_of (prior : list Q) (y : list Q) (delta : Q) : list Q :=
  map (fun '(a, c) => a + delta * c) (combine prior (counts (length prior) y)).

Definition class_of (post : list Q) : Q :=
  match argmax post with
  | Ok k => inject_Z (Z.of_nat k)
  | Raise _ => 0
  end.

#[export] Instance family : ModelFamily := {
  Dist := list Q;
  check_target := fun _ => Ok tt;
  compute_log_p_data_no_split := fun _ prior _ y => - gini (length prior) y;
  compute_log_p_data_split := fun pp prior _ y split_indices _ =>
    map (fun i => - gini (length prior) (firstn i y)
                  - gini (length prior) (skipn i y) - (1 - pp))
        split_indices;
  compute_posterior := fun _ prior _ y delta => posterior_of prior y delta;
  compute_posterior_mean := fun post => map (fun a => a / Qsum post) post;
  predict_leaf := class_of }.

Definition root (prior : list Q) : node (@Dist family) := new_node (9 # 10) prior 0%nat.

End Categorical.

Definition Qs (l : list Z) : list Q := map inject_Z l.

(** ** Concrete trees *)

(** Five rows of one feature, fitted with a prior that favours class 0. *)
Definition demo_X : ndarray :=
  of_rows float64 1 [Qs [1]; Qs [2]; Qs [3]; Qs [4]; Qs [5]]%Z.

Definition demo_y : list Q := Qs [1; 1; 0; 1; 1]%Z.

Definition demo_fit (prune_after : bool) : result (node (@Dist Categorical.family)) :=
  fit stable_argsort 100 (Categorical.root [3; 1]%Q) (Array2 demo_X) demo_y 0
    prune_after None.

Definition demo_tree : node (@Dist Categorical.family) :=
  Eval vm_compute in
    match demo_fit false with
    | Ok t => t
    | Raise _ => Categorical.root []
    end.

Definition demo_pruned : node (@Dist Categorical.family) :=
  Eval vm_compute in
    match demo_fit true with
    | Ok t => t
    | Raise _ => Categorical.root []
    end.

(** A query of two rows against the pruned tree, fitted on five. *)
Definition two_rows : ndarray := of_rows float64 1 [Qs [7]; Qs [8]]%Z.

(** Two rows of one [uint8] feature. *)
Definition bytes_X : ndarray := of_rows uint8 1 [Qs [200]; Qs [250]]%Z.

Definition bytes_y : list Q := Qs [0; 1]%Z.

Definition bytes_fit : result (node (@Dist Categorical.family)) :=
  fit stable_argsort 100 (Categorical.root [1; 1]%Q) (Array2 bytes_X) bytes_y 0
    false None.

Definition bytes_tree : node (@Dist Categorical.family) :=
  Eval vm_compute in
    match bytes_fit with
    | Ok t => t
    | Raise _ => Categorical.root []
    end.

(** Four rows of two features, the second of which never changes. *)
Definition grid_X : ndarray :=
  of_rows float64 2 [Qs [1; 7]; Qs [2; 7]; Qs [3; 7]; Qs [4; 7]]%Z.

Definition grid_y : list Q := Qs [0; 0; 1; 1]%Z.

Definition grid_fit : result (node (@Dist Categorical.family)) :=
  fit stable_argsort 100 (Categorical.root [1; 1]%Q) (Array2 grid_X) grid_y
    (1 # 2) false None.

Definition grid_tree : node (@Dist Categorical.family) :=
  Eval vm_compute in
    match grid_fit with
    | Ok t => t
    | Raise _ => Categorical.root []
    end.

(** Three equal rows of one feature. *)
Definition flat_X : ndarray := of_rows float64 1 [Qs [4]; Qs [4]; Qs [4]]%Z.

Definition flat_y : list Q := Qs [0; 1; 0]%Z.

Definition flat_fit : result (node (@Dist Categorical.family)) :=
  fit stable_argsort 100 (Categorical.root [1; 1]%Q) (Array2 flat_X) flat_y 0
    true None.

Definition flat_tree : node (@Dist Categorical.family) :=
  Eval vm_compute in
    match flat_fit with
    | Ok t => t
    | Raise _ => Categorical.root []
    end.

(** A second [fit] on the estimator that holds [demo_tree], this time on the
    three equal rows. *)
Definition demo_refit : result (node (@Dist Categorical.family)) :=
  fit stable_argsort 100 demo_tree (Array2 flat_X) flat_y 0 false None.

(** A query of one row with two columns. *)
Definition wide_row : array_like := Array1 float64 (Qs [1; 2]%Z).

(** ** Specification-level notions *)

Section Specification.

Context {F : ModelFamily}.
Variable argsort : list Q -> list nat.
Variable recursion_limit : nat.

(** A node in leaf state, as [__init__] and [_erase_split_info*] leave it. *)
Definition leaf_state (t : node Dist) : Prop :=
  split_value t = None /\ child1 t = None /\ child2 t = None.

(** A fitted tree: what [fit] returns on a freshly constructed estimator,
    with or without pruning. *)
Definition fitted_tree (t : node Dist) : Prop :=
  exists partition_prior prior level X y delta prune_after feature_names,
    fit argsort recursion_limit (new_node partition_prior prior level)
      X y delta prune_after feature_names = Ok t.

(** The shape of a fitted tree whose queries take [d] columns: every node
    has a posterior; a leaf has no children; a split node has both children,
    a split dimension below [d] and a recorded gain. *)
Inductive well_formed (d : nat) : node Dist -> Prop :=
| wf_leaf t :
    posterior t <> None ->
    leaf_state t ->
    well_formed d t
| wf_split t sv c1 c2 no_split best :
    posterior t <> None ->
    split_value t = Some sv ->
    child1 t = Some c1 ->
    child2 t = Some c2 ->
    (0 <= split_dimension t < Z.of_nat d)%Z ->
    log_p_data_no_split t = Some no_split ->
    best_log_p_data_split t = Some best ->
    (no_split < best)%Q ->
    well_formed d c1 ->
    well_formed d c2 ->
    well_formed d t.

(** Routing of one row [x] by the spec's words: at a leaf, the leaf's point
    prediction; at an internal node, child1 when
    [x[split_dimension] < split_value] and child2 otherwise. *)
Fixpoint route_prediction (t : node Dist) (x : nat -> Q) : Q :=
  match split_value t with
  | None =>
      match posterior t with
      | Some p => predict_leaf p
      | None => 0%Q
      end
  | Some sv =>
      if Qltb (x (Z.to_nat (split_dimension t))) sv
      then match child1 t with
           | Some c => route_prediction c x
           | None => 0%Q
           end
      else match child2 t with
           | Some c => route_prediction c x
           | None => 0%Q
           end
  end.

(** The decisions taken by one row [x] from the root to its leaf, by the
    spec's words: one step per internal node, [went_right] when
    [x[split_dimension] >= split_value]. *)
Fixpoint route_path (t : node Dist) (x : nat -> Q) : list step :=
  match split_value t with
  | None => []
  | Some sv =>
      if Qgeb (x (Z.to_nat (split_dimension t))) sv
      then (split_dimension t, split_feature_name t, split_value t, true)
           :: match child2 t with
              | Some c => route_path c x
              | None => []
              end
      else (split_dimension t, split_feature_name t, split_value t, false)
           :: match child1 t with
              | Some c => route_path c x
              | None => []
              end
  end.

(** The last two statements of [_update_prediction_paths]: the descent into
    a child with its rows and its share of the path lists. *)
Definition descend_paths (c : option (node Dist)) (X : ndarray)
    (indices : list nat) (paths : list nat) (h : path_store)
  : result path_store :=
  if 0 <? length indices then
    match c with
    | None => Raise AttributeError
    | Some c =>
        leaf <- is_leaf c ;;
        if (leaf : bool) then Ok h
        else
          X1 <- take_rows X indices ;;
          paths1 <- take paths indices ;;
          _update_prediction_paths c X1 paths1 h
    end
  else Ok h.

(** What a call of [_update_prediction_paths] does to the store: the list
    of row [k] grows by the path of that row, and no other list changes. *)
Definition paths_extended (t : node Dist) (X : ndarray) (paths : list nat)
    (h h' : path_store) : Prop :=
  length h' = length h /\
  (forall k, k < length paths ->
     nth (nth k paths 0) h' [] = nth (nth k paths 0) h [] ++ route_path t (data X k)) /\
  (forall r, ~ In r paths -> nth r h' [] = nth r h []).

(** The marginal log-likelihoods of the legal candidate splits of one
    dimension, and of all the dimensions in [dims]. *)
Definition dim_candidates (self : node Dist) (X : ndarray) (y : list Q)
    (n_dim : nat) (sort_indices_by_dim : list (list nat)) (dim : nat)
  : result (list Q) :=
  sort_indices <- of_option (nth_error sort_indices_by_dim dim) IndexError ;;
  split_indices <- candidate_split_indices X sort_indices dim ;;
  if length split_indices =? 0 then Ok []
  else split_log_likelihoods self y sort_indices split_indices n_dim.

Fixpoint all_candidates (self : node Dist) (X : ndarray) (y : list Q)
    (n_dim : nat) (sort_indices_by_dim : list (list nat)) (dims : list nat)
  : result (list Q) :=
  match dims with
  | [] => Ok []
  | dim :: dims' =>
      c <- dim_candidates self X y n_dim sort_indices_by_dim dim ;;
      cs <- all_candidates self X y n_dim sort_indices_by_dim dims' ;;
      Ok (c ++ cs)
  end.

(** How the search leaves its state [st0] after scanning [dims], whose
    candidates are [cands]: unchanged when no candidate beats the best so
    far, else at the largest candidate. *)
Definition search_outcome (st0 st : search_state) (cands : list Q)
    (dims : list nat) : Prop :=
  let '(b0, i0, d0) := st0 in
  let '(b, i, d) := st in
  (st = st0 /\ forall c, In c cands -> (c <= b0)%Q)
  \/ (In b cands /\ (b0 < b)%Q /\ (forall c, In c cands -> (c <= b)%Q) /\
      (0 < i)%Z /\ exists dim, In dim dims /\ d = Z.of_nat dim).

(** The sort indices a call of [_fit] works on: those it is given, or the
    ones it computes on first entry. *)
Definition active_sort_indices (X : ndarray)
    (sort_indices_by_dim : option (list (list nat))) : result (list (list nat)) :=
  match sort_indices_by_dim with
  | Some s => Ok s
  | None => initial_sort_indices argsort X (seq 0 (ncols X))
  end.

(** The pieces of one call of [_fit]: the no-split likelihood, the node's
    own posterior, the prior handed to a child, and the fitting or sealing
    of a child. *)
Definition no_split_of (self : node Dist) (y0 : list Q) : Q :=
  compute_log_p_data_no_split
    (partition_prior self) (prior self) (level self) y0.

Definition own_posterior (self : node Dist) (y0 : list Q) : Dist :=
  compute_posterior (partition_prior self) (prior self) (level self) y0 1.

Definition child_prior (self : node Dist) (y1 : list Q) (delta : Q) : Dist :=
  if Qneqb delta 0
  then compute_posterior (partition_prior self) (prior self) (level self)
         y1 delta
  else prior self.

Definition fit_child (fuel : nat) (self : node Dist) (X : ndarray) (y : list Q)
    (delta : Q) (feature_names : list string)
    (sort_indices_by_dim_1 : list (list nat)) (n_data1 : nat) (y1 : list Q)
  : result (node Dist) :=
  let c := new_node (partition_prior self) (child_prior self y1 delta)
             (level self + 1) in
  if (1 <? n_data1) && (1 <? length (np_unique y1))
  then _fit argsort fuel c X y delta feature_names (Some sort_indices_by_dim_1)
  else Ok (set_posterior_n_data c (own_posterior self y1) n_data1).

(** The number of leaves of a tree. *)
Fixpoint count_leaves (t : node Dist) : nat :=
  match split_value t with
  | None => 1
  | Some _ =>
      match child1 t with Some c => count_leaves c | None => 0 end
      + match child2 t with Some c => count_leaves c | None => 0 end
  end.

(** [n_data] adds up over the split nodes of a tree. *)
Inductive n_data_adds_up : node Dist -> Prop :=
| adds_up_leaf t :
    split_value t = None ->
    n_data_adds_up t
| adds_up_split t sv c1 c2 n1 n2 :
    split_value t = Some sv ->
    child1 t = Some c1 ->
    child2 t = Some c2 ->
    n_data c1 = Some n1 ->
    n_data c2 = Some n2 ->
    n_data t = Some (n1 + n2) ->
    n_data_adds_up c1 ->
    n_data_adds_up c2 ->
    n_data_adds_up t.

(** The sort indices of a node list, dimension by dimension, the same
    [active] rows of [X], none of them twice. *)
Definition sort_indices_consistent (n : nat) (active : list nat)
    (sort_indices_by_dim : list (list nat)) : Prop :=
  NoDup active /\
  Forall (fun i => i < n) active /\
  Forall (fun r => Permutation r active) sort_indices_by_dim.

(** A dtype on which [scalar_add] and [scalar_sub] do not wrap around. *)
Definition exact_dtype (dt : npdtype) : Prop := int_info dt = None.

(** Rows in the order of their values in column [d]. *)
Definition column_le (X : ndarray) (d : nat) (a b : nat) : Prop :=
  (data X a d <= data X b d)%Q.

Definition sort_indices_sorted (X : ndarray)
    (sort_indices_by_dim : list (list nat)) : Prop :=
  forall d row,
    nth_error sort_indices_by_dim d = Some row ->
    StronglySorted (column_le X d) row.

(** The training rows [active] of a tree are separated by its split values:
    the rows sent to child1 lie strictly below the split value in the split
    dimension, and those sent to child2 strictly above it. *)
Inductive separates (X : ndarray) : list nat -> node Dist -> Prop :=
| separates_leaf active t :
    split_value t = None ->
    separates X active t
| separates_split active t sv c1 c2 rows1 rows2 j :
    split_value t = Some sv ->
    child1 t = Some c1 ->
    child2 t = Some c2 ->
    split_dimension t = Z.of_nat j ->
    j < ncols X ->
    Permutation (rows1 ++ rows2) active ->
    rows1 <> [] ->
    rows2 <> [] ->
    (forall i, In i rows1 -> (data X i j < sv)%Q) ->
    (forall i, In i rows2 -> (sv < data X i j)%Q) ->
    separates X rows1 c1 ->
    separates X rows2 c2 ->
    separates X active t.

(** An [argsort] result: a rearrangement of the positions of its argument. *)
Definition argsort_permutes : Prop :=
  forall a, Permutation (argsort a) (seq 0 (length a)).

(** An [argsort] result lists the positions in the order of their values. *)
Definition argsort_sorts : Prop :=
  forall a, StronglySorted Qle (map (fun i => nth i a 0%Q) (argsort a)).

End Specification.

(** ** Notions over whole trees *)

Section TreeNotions.

Context {F : ModelFamily}.
Variable argsort : list Q -> list nat.

(** [P] holds at every node of the tree. *)
Fixpoint every_node (P : node Dist -> Prop) (t : node Dist) : Prop :=
  P t /\
  match child1 t with Some c => every_node P c | None => True end /\
  match child2 t with Some c => every_node P c | None => True end.

(** The number of splits on the longest way from a node down to a leaf. *)
Fixpoint height (t : node Dist) : nat :=
  match split_value t with
  | None => 0
  | Some _ =>
      1 + Nat.max (match child1 t with Some c => height c | None => 0 end)
                  (match child2 t with Some c => height c | None => 0 end)
  end.

(** Some split node of the tree splits on dimension [j]. *)
Fixpoint uses_dimension (t : node Dist) (j : nat) : bool :=
  match split_value t with
  | None => false
  | Some _ =>
      (split_dimension t =? Z.of_nat j)%Z
      || match child1 t with Some c => uses_dimension c j | None => false end
      || match child2 t with Some c => uses_dimension c j | None => false end
  end.

(** What the first branch of [_prune] merges: a split node whose children
    are both leaves with the same point prediction. *)
Definition mergeable (t : node Dist) : Prop :=
  exists c1 c2 p1 p2,
    split_value t <> None /\
    child1 t = Some c1 /\ child2 t = Some c2 /\
    split_value c1 = None /\ split_value c2 = None /\
    posterior c1 = Some p1 /\ posterior c2 = Some p2 /\
    Qeq_bool (predict_leaf p1) (predict_leaf p2) = true.

(** Every node's [n_data] is the number of the rows [rows] of [X] that the
    comparison of [_compute_child1_and_child2_indices] sends through it:
    all of them at the root, those with [X[i, split_dimension] < split_value]
    into child1 and the others into child2. *)
Fixpoint counts_routed_rows (X : ndarray) (t : node Dist) (rows : list nat)
    {struct t} : Prop :=
  n_data t = Some (length rows) /\
  match split_value t with
  | None => True
  | Some sv =>
      let j := Z.to_nat (split_dimension t) in
      match child1 t with
      | Some c =>
          counts_routed_rows X c (filter (fun i => Qltb (data X i j) sv) rows)
      | None => False
      end /\
      match child2 t with
      | Some c =>
          counts_routed_rows X c (filter (fun i => Qgeb (data X i j) sv) rows)
      | None => False
      end
  end.

(** The two leaves that the first branch of [_prune] compares: [same] is
    the outcome of [child1._predict_leaf() == child2._predict_leaf()]. *)
Definition same_prediction (c1 c2 : node Dist) (same : bool) : Prop :=
  exists p1 p2,
    posterior c1 = Some p1 /\ posterior c2 = Some p2 /\
    Qeq_bool (predict_leaf p1) (predict_leaf p2) = same.

(** What [_fit] records about the rows [active] of [X] it grows a tree on:
    each node counts its rows, and a split node hands every row to one
    child, none of them empty-handed.  On a dtype without wrap-around and
    with an [argsort] that sorts, the split value lies strictly between the
    two sides. *)
Inductive trained (X : ndarray) : list nat -> node Dist -> Prop :=
| trained_leaf active t :
    split_value t = None ->
    n_data t = Some (length active) ->
    trained X active t
| trained_split active t sv c1 c2 rows1 rows2 j :
    split_value t = Some sv ->
    child1 t = Some c1 ->
    child2 t = Some c2 ->
    n_data t = Some (length active) ->
    split_dimension t = Z.of_nat j ->
    j < ncols X ->
    Permutation (rows1 ++ rows2) active ->
    rows1 <> [] ->
    rows2 <> [] ->
    (exact_dtype (dtype X) -> argsort_sorts argsort ->
     (forall i, In i rows1 -> (data X i j < sv)%Q) /\
     (forall i, In i rows2 -> (sv < data X i j)%Q)) ->
    trained X rows1 c1 ->
    trained X rows2 c2 ->
    trained X active t.

(** What [_fit] hands down from a split node to its children, apart from
    rows: the children sit one level below the node and carry its partition
    prior, and its prior when [delta] is 0; the node's feature name is the
    entry of [names] at its split dimension. *)
Inductive laid_out (names : list string) (delta : Q) : node Dist -> Prop :=
| laid_out_leaf t :
    split_value t = None ->
    laid_out names delta t
| laid_out_split t sv c1 c2 j name :
    split_value t = Some sv ->
    child1 t = Some c1 ->
    child2 t = Some c2 ->
    split_dimension t = Z.of_nat j ->
    nth_error names j = Some name ->
    split_feature_name t = Some name ->
    level c1 = level t + 1 ->
    level c2 = level t + 1 ->
    partition_prior c1 = partition_prior t ->
    partition_prior c2 = partition_prior t ->
    (Qeq_bool delta 0 = true -> prior c1 = prior t /\ prior c2 = prior t) ->
    laid_out names delta c1 ->
    laid_out names delta c2 ->
    laid_out names delta t.

(** The candidate splits of one dimension in the order in which the search
    meets them, each with its log-likelihood, its split index and its
    dimension, and those of all the dimensions in [dims]. *)
Definition dim_candidate_splits (self : node Dist) (X : ndarray) (y : list Q)
    (n_dim : nat) (sort_indices_by_dim : list (list nat)) (dim : nat)
  : result (list search_state) :=
  sort_indices <- of_option (nth_error sort_indices_by_dim dim) IndexError ;;
  split_indices <- candidate_split_indices X sort_indices dim ;;
  if length split_indices =? 0 then Ok []
  else
    log_p_data_split <-
      split_log_likelihoods self y sort_indices split_indices n_dim ;;
    Ok (map (fun '(l, k) => (l, Z.of_nat k, Z.of_nat dim))
          (combine log_p_data_split split_indices)).

Fixpoint all_candidate_splits (self : node Dist) (X : ndarray) (y : list Q)
    (n_dim : nat) (sort_indices_by_dim : list (list nat)) (dims : list nat)
  : result (list search_state) :=
  match dims with
  | [] => Ok []
  | dim :: dims' =>
      c <- dim_candidate_splits self X y n_dim sort_indices_by_dim dim ;;
      cs <- all_candidate_splits self X y n_dim sort_indices_by_dim dims' ;;
      Ok (c ++ cs)
  end.

(** The log-likelihood of a candidate split. *)
Definition candidate_value (c : search_state) : Q := fst (fst c).

(** How the search leaves its state [st0] after meeting the candidates
    [cands] in this order: unchanged when none of them lies above the
    starting value, else at the first candidate that is the largest. *)
Definition first_maximum (st0 st : search_state) (cands : list search_state)
  : Prop :=
  (st = st0 /\
   forall c, In c cands -> (candidate_value c <= candidate_value st0)%Q)
  \/ (exists before after,
        cands = before ++ st :: after /\
        (candidate_value st0 < candidate_value st)%Q /\
        (forall c, In c before -> (candidate_value c < candidate_value st)%Q) /\
        (forall c, In c after -> (candidate_value c <= candidate_value st)%Q)).

(** A model family whose [_compute_log_p_data_split] returns one
    log-likelihood per candidate split index. *)
Definition one_likelihood_per_split : Prop :=
  forall pp pr lvl ys idx n,
    length (compute_log_p_data_split pp pr lvl ys idx n) = length idx.

(** Every column of [X] holds one and the same number in all rows. *)
Definition constant_columns (X : ndarray) : Prop :=
  forall i i' j,
    i < nrows X -> i' < nrows X -> j < ncols X ->
    (data X i j == data X i' j)%Q.

(** Every entry of [X] is an integer of magnitude at most 2^22: the sums,
    differences and midpoints of such entries are floats of either floating
    dtype, so that float arithmetic computes them exactly. *)
Definition small_integers (X : ndarray) : Prop :=
  forall i j, i < nrows X -> j < ncols X ->
    exists z : Z, (data X i j == inject_Z z)%Q /\ (Z.abs z <= 2 ^ 22)%Z.

End TreeNotions.

(** ** Arrays of posterior means *)

Section Means.

Context {F : ModelFamily}.





End Means.

(** ** Queries on matrices of floats *)

(** The entries of a matrix of a floating dtype are IEEE floats: besides
    numbers they can be NaN or infinite, and numpy answers every comparison
    with NaN by false.  The engine above computes with numbers; this module
    embeds the two queries that compare the entries of the query matrix,
    [predict] and [prediction_paths], for matrices of floats.  The tree and
    its split values are those of the engine above, so split values are
    numbers here. *)

Module IEEE.

(** [a < b] on floats. *)
Definition lt (a b : npfloat) : bool :=
  match a, b with
  | finite x, finite y => Qltb x y
  | finite _, inf negative => negb negative
  | inf negative, finite _ => negative
  | inf negative, inf negative' => negative && negb negative'
  | nan, _ => false
  | _, nan => false
  end.

(** [a >= b] on floats. *)
Definition ge (a b : npfloat) : bool :=
  match a, b with
  | nan, _ => false
  | _, nan => false
  | _, _ => negb (lt a b)
  end.

(** A 2-D [ndarray] of floats. [data i j] is read only for [i < nrows] and
    [j < ncols]. *)
Record ndarray : Type := mk_ndarray {
  dtype : npdtype;
  nrows : nat;
  ncols : nat;
  data : nat -> nat -> npfloat }.

Definition of_rows (dt : npdtype) (d : nat) (rows : list (list npfloat))
  : ndarray :=
  mk_ndarray dt (length rows) d (fun i j => nth j (nth i rows []) (finite 0)).

(** [X[:, dim]]. *)
Definition column (X : ndarray) (dim : Z) : result (list npfloat) :=
  j <- py_index (ncols X) dim ;;
  Ok (map (fun i => data X i j) (seq 0 (nrows X))).

(** [X[idx]]: the rows of [X] listed in [idx]. *)
Definition take_rows (X : ndarray) (idx : list nat) : result ndarray :=
  if forallb (fun i => i <? nrows X) idx
  then Ok (mk_ndarray (dtype X) (length idx) (ncols X)
             (fun i j => data X (nth i idx 0) j))
  else Raise IndexError.

(** What a caller may pass as [X], with floats for entries. *)
Inductive array_like : Type :=
| PyScalar (x : npfloat)
| Array1 (dt : npdtype) (elems : list npfloat)
| Array2 (X : ndarray)
| ArrayN (dt : npdtype) (shape : list nat)
| DataFrame (columns : list string) (values : ndarray).

(** [_normalize_data_and_feature_names]. *)
Definition _normalize_data_and_feature_names
    (X : array_like) (feature_names : option (list string))
  : result (ndarray * list string) :=
  match X with
  | DataFrame columns values =>
      let feature_names :=
        match feature_names with Some f => f | None => columns end in
      X <- _ensure_float64 values ;;
      Ok (X, feature_names)
  | PyScalar x =>
      (* np.array([X]), then expand_dims *)
      let X := of_rows float64 1 [[x]] in
      let feature_names :=
        match feature_names with
        | Some f => f
        | None => default_feature_names (ncols X)
        end in
      X <- _ensure_float64 X ;;
      Ok (X, feature_names)
  | Array1 dt elems =>
      (* X.ndim == 1: np.expand_dims(X, 0) *)
      let X := of_rows dt (length elems) [elems] in
      let feature_names :=
        match feature_names with
        | Some f => f
        | None => default_feature_names (ncols X)
        end in
      X <- _ensure_float64 X ;;
      Ok (X, feature_names)
  | Array2 X =>
      let feature_names :=
        match feature_names with
        | Some f => f
        | None => default_feature_names (ncols X)
        end in
      X <- _ensure_float64 X ;;
      Ok (X, feature_names)
  | ArrayN dt shape =>
      _ <- match feature_names with
           | Some f => Ok f
           | None =>
               (* X.shape[1] *)
               d <- of_option (nth_error shape 1) IndexError ;;
               Ok (default_feature_names d)
           end ;;
      Raise (ValueError "X should have 2 dimensions")
  end.

Section Queries.

Context {F : ModelFamily}.

(** [_ensure_is_fitted]. *)
Definition _ensure_is_fitted (self : node Dist) (X : option ndarray) : result unit :=
  match posterior self with
  | None => Raise NotFittedError
  | Some _ =>
      match X with
      | Some X =>
          if match n_dim self with
             | Some d => negb (ncols X =? d)
             | None => true
             end
          then Raise BadInputDimensions
          else Ok tt
      | None => Ok tt
      end
  end.

(** [_compute_child1_and_child2_indices]: a row whose entry is NaN is in
    neither index array. *)
Definition _compute_child1_and_child2_indices (self : node Dist) (X : ndarray)
  : result (list nat * list nat) :=
  X_split <- column X (split_dimension self) ;;
  split_value <- of_option (split_value self)
                   (TypeError "'<' not supported with NoneType") ;;
  let indices1 := np_where (map (fun x => lt x (finite split_value)) X_split) in
  let indices2 := np_where (map (fun x => ge x (finite split_value)) X_split) in
  Ok (indices1, indices2).

(** [_create_merged_predictions_array] for class predictions:
    [np.zeros(X.shape[0])]. *)
Definition _create_merged_predictions_array (X : ndarray) : list npfloat :=
  repeat (finite 0) (nrows X).

(** [a[idx] = v] where [v] is what a child's [_predict] returned: an array
    of one value per index, or [None], which numpy stores in a float array
    as NaN. *)
Definition assign (a : list npfloat) (idx : list nat)
    (v : option (list npfloat)) : result (list npfloat) :=
  match v with
  | Some vals => put a idx vals
  | None => put_const a idx nan
  end.

(** [_predict] with [predict_class=True].  The result is [None] when no row
    reaches a child of a non-leaf node. *)
Fixpoint _predict (self : node Dist) (X : ndarray)
  : result (option (list npfloat)) :=
  leaf <- is_leaf self ;;
  if (leaf : bool) then
    prediction <- _predict_leaf self ;;
    let predictions := _create_merged_predictions_array X in
    (* predictions[:] = prediction *)
    Ok (Some (map (fun _ => finite prediction) predictions))
  else
    ' (indices1, indices2) <- _compute_child1_and_child2_indices self X ;;
    predictions_merged <-
      (if 0 <? length indices1 then
         X1 <- take_rows X indices1 ;;
         match child1 self with
         | None => Raise AttributeError
         | Some c1 =>
             predictions1 <- _predict c1 X1 ;;
             merged <- assign (_create_merged_predictions_array X)
                         indices1 predictions1 ;;
             Ok (Some merged)
         end
       else Ok None) ;;
    if 0 <? length indices2 then
      X2 <- take_rows X indices2 ;;
      match child2 self with
      | None => Raise AttributeError
      | Some c2 =>
          predictions2 <- _predict c2 X2 ;;
          let predictions_merged :=
            match predictions_merged with
            | Some m => m
            | None => _create_merged_predictions_array X
            end in
          merged <- assign predictions_merged indices2 predictions2 ;;
          Ok (Some merged)
      end
    else Ok predictions_merged.

(** [predict]. *)
Definition predict (self : node Dist) (X : array_like) : result (list npfloat) :=
  ' (X, _) <- _normalize_data_and_feature_names X None ;;
  _ <- _ensure_is_fitted self (Some X) ;;
  prediction <- _predict self X ;;
  match prediction with
  | Some prediction => Ok prediction
  | None => Ok (_create_merged_predictions_array X)
  end.

(** [_update_prediction_paths], on the store of path lists of the engine
    above. *)
Fixpoint _update_prediction_paths (self : node Dist) (X : ndarray)
    (paths : list nat) (h : path_store) : result path_store :=
  leaf <- is_leaf self ;;
  if (leaf : bool) then Ok h
  else
    ' (indices1, indices2) <- _compute_child1_and_child2_indices self X ;;
    h <- (if 0 <? length indices1 then
            append_step paths indices1
              (split_dimension self, split_feature_name self,
               split_value self, false) h
          else Ok h) ;;
    h <- (if 0 <? length indices2 then
            append_step paths indices2
              (split_dimension self, split_feature_name self,
               split_value self, true) h
          else Ok h) ;;
    h <- (if 0 <? length indices1 then
            match child1 self with
            | None => Raise AttributeError
            | Some c1 =>
                leaf1 <- is_leaf c1 ;;
                if (leaf1 : bool) then Ok h
                else
                  X1 <- take_rows X indices1 ;;
                  paths1 <- take paths indices1 ;;
                  _update_prediction_paths c1 X1 paths1 h
            end
          else Ok h) ;;
    if 0 <? length indices2 then
      match child2 self with
      | None => Raise AttributeError
      | Some c2 =>
          leaf2 <- is_leaf c2 ;;
          if (leaf2 : bool) then Ok h
          else
            X2 <- take_rows X indices2 ;;
            paths2 <- take paths indices2 ;;
            _update_prediction_paths c2 X2 paths2 h
      end
    else Ok h.

(** [prediction_paths]: [paths] starts as [X.shape[0]] fresh empty lists. *)
Definition prediction_paths (self : node Dist) (X : array_like)
  : result (list (list step)) :=
  ' (X, _) <- _normalize_data_and_feature_names X None ;;
  _ <- _ensure_is_fitted self (Some X) ;;
  let paths := seq 0 (nrows X) in
  h <- _update_prediction_paths self X paths (repeat [] (nrows X)) ;;
  take h paths.



End Queries.

End IEEE.

(** ** Notions for the queries on floats *)

Section FloatNotions.

Context {F : ModelFamily}.



(** What the assignment [predictions_merged[indices] = predictions] stores
    at the [k]-th of the indices. *)
Definition stored (predictions : option (list npfloat)) (k : nat) : npfloat :=
  match predictions with
  | Some l => nth k l nan
  | None => nan
  end.

(** The steps that the code appends to the path of one row [x]: one step
    per internal node for as long as the row's entry in the split dimension
    is below the split value or at least the split value; at an entry that
    is neither, a NaN, the row reaches no child and its path ends. *)
Fixpoint path_of_row (t : node Dist) (x : nat -> npfloat) : list step :=
  match split_value t with
  | None => []
  | Some sv =>
      if IEEE.lt (x (Z.to_nat (split_dimension t))) (finite sv)
      then (split_dimension t, split_feature_name t, split_value t, false)
           :: match child1 t with
              | Some c => path_of_row c x
              | None => []
              end
      else if IEEE.ge (x (Z.to_nat (split_dimension t))) (finite sv)
      then (split_dimension t, split_feature_name t, split_value t, true)
           :: match child2 t with
              | Some c => path_of_row c x
              | None => []
              end
      else []
  end.



(** The last two statements of [IEEE._update_prediction_paths]: the descent
    into a child with its rows and its share of the path lists. *)
Definition descend_float_paths (c : option (node Dist)) (X : IEEE.ndarray)
    (indices : list nat) (paths : list nat) (h : path_store)
  : result path_store :=
  if 0 <? length indices then
    match c with
    | None => Raise AttributeError
    | Some c =>
        leaf <- is_leaf c ;;
        if (leaf : bool) then Ok h
        else
          X1 <- IEEE.take_rows X indices ;;
          paths1 <- take paths indices ;;
          IEEE._update_prediction_paths c X1 paths1 h
    end
  else Ok h.

(** What a call of [IEEE._update_prediction_paths] does to the store: the
    list of row [k] grows by the steps of that row, and no other list
    changes. *)
Definition float_paths_extended (t : node Dist) (X : IEEE.ndarray)
    (paths : list nat) (h h' : path_store) : Prop :=
  length h' = length h /\
  (forall k, k < length paths ->
     nth (nth k paths 0) h' [] =
     nth (nth k paths 0) h [] ++ path_of_row t (IEEE.data X k)) /\
  (forall r, ~ In r paths -> nth r h' [] = nth r h []).


End FloatNotions.

(** A query of three rows, the second of which is NaN. *)
Definition nan_query : IEEE.ndarray :=
  IEEE.of_rows float64 1 [[finite 1]; [nan]; [finite 4]].



(** * Proofs *)

(** ** Results and comparisons *)

Ltac bind_inv H :=
  repeat match type of H with
    | match ?e with Ok _ => _ | Raise _ => _ end = Ok _ =>
        let E := fresh "E" in
        destruct e eqn:E; [ | discriminate H ]
    | Raise _ = Ok _ => discriminate H
    end.

Ltac bind_inv_all :=
  repeat match goal with
    | H : match ?e with Ok _ => _ | Raise _ => _ end = Ok _ |- _ =>
        let E := fresh "E" in
        destruct e eqn:E; [ | discriminate H ]
    | H : Raise _ = Ok _ |- _ => discriminate H
    end.

Lemma Qltb_true (a b : Q) : Qltb a b = true <-> (a < b)%Q.
Proof.
  unfold Qltb. destruct (Qlt_le_dec a b) as [L | L]; split; intro H.
  - exact L.
  - reflexivity.
  - discriminate.
  - exfalso. exact (Qlt_not_le _ _ H L).
Qed.

Lemma Qltb_false (a b : Q) : Qltb a b = false <-> (b <= a)%Q.
Proof.
  unfold Qltb. destruct (Qlt_le_dec a b) as [L | L]; split; intro H.
  - discriminate.
  - exfalso. exact (Qlt_not_le _ _ L H).
  - exact L.
  - reflexivity.
Qed.

Lemma Qgeb_true (a b : Q) : Qgeb a b = true <-> (b <= a)%Q.
Proof.
  unfold Qgeb. rewrite negb_true_iff. apply Qltb_false.
Qed.

Lemma of_option_ok {A} (o : option A) (e : exn) (a : A) :
  of_option o e = Ok a <-> o = Some a.
Proof.
  destruct o; simpl; split; intro H; inversion H; reflexivity.
Qed.

Ltac of_option_all :=
  repeat match goal with
    | H : of_option _ _ = Ok _ |- _ => apply of_option_ok in H
    end.

(** ** Index arrays *)

Lemma take_ok {A} (d : A) (a : list A) (idx : list nat) :
  Forall (fun i => i < length a) idx ->
  take a idx = Ok (map (fun i => nth i a d) idx).
Proof.
  induction 1 as [ | i idx Hi _ IH ]; simpl.
  - reflexivity.
  - destruct (nth_error a i) as [x | ] eqn:E.
    + simpl. rewrite IH. rewrite (nth_error_nth _ _ d E). reflexivity.
    + apply nth_error_None in E. lia.
Qed.

Lemma take_inv {A} (d : A) (a : list A) (idx : list nat) (l : list A) :
  take a idx = Ok l ->
  Forall (fun i => i < length a) idx /\ l = map (fun i => nth i a d) idx.
Proof.
  revert l. induction idx as [ | i idx IH ]; simpl; intros l H.
  - inversion H. split; constructor.
  - destruct (nth_error a i) as [x | ] eqn:E; simpl in H; [ | discriminate ].
    destruct (take a idx) as [xs | ] eqn:E'; [ | discriminate ].
    inversion H; subst l. destruct (IH xs eq_refl) as [Hall ->].
    split.
    + constructor; [ | exact Hall ].
      apply nth_error_Some. congruence.
    + rewrite (nth_error_nth _ _ d E). reflexivity.
Qed.

Lemma take_length {A} (a : list A) (idx : list nat) (l : list A) :
  take a idx = Ok l -> length l = length idx.
Proof.
  revert l. induction idx as [ | i idx IH ]; simpl; intros l H.
  - inversion H. reflexivity.
  - bind_inv H. inversion H. simpl. f_equal. apply IH. reflexivity.
Qed.

Lemma map_nth_seq {A} (d : A) (l : list A) :
  map (fun i => nth i l d) (seq 0 (length l)) = l.
Proof.
  induction l as [ | x l IH ]; simpl.
  - reflexivity.
  - f_equal. rewrite <- seq_shift, map_map. exact IH.
Qed.

Lemma map_nth_seq_compose {A B} (d : A) (f : A -> B) (l : list A) :
  map (fun k => f (nth k l d)) (seq 0 (length l)) = map f l.
Proof.
  rewrite <- (map_map (fun k => nth k l d) f). rewrite map_nth_seq. reflexivity.
Qed.

Lemma np_where_map {A} (d : A) (f : A -> bool) (l : list A) :
  np_where (map f l) = filter (fun i => f (nth i l d)) (seq 0 (length l)).
Proof.
  unfold np_where. rewrite length_map.
  apply filter_ext_in. intros i Hi. apply in_seq in Hi.
  rewrite (nth_indep _ false (f d)) by (rewrite length_map; lia).
  apply map_nth.
Qed.

Lemma np_where_NoDup (mask : list bool) : NoDup (np_where mask).
Proof.
  unfold np_where. apply NoDup_filter, seq_NoDup.
Qed.

Lemma np_where_bound (mask : list bool) (i : nat) :
  In i (np_where mask) -> i < length mask.
Proof.
  unfold np_where. intro H. apply filter_In in H. destruct H as [H _].
  apply in_seq in H. lia.
Qed.


Lemma py_index_nat (n j : nat) :
  j < n -> py_index n (Z.of_nat j) = Ok j.
Proof.
  intro H. unfold py_index.
  replace (0 <=? Z.of_nat j)%Z with true by (symmetry; apply Z.leb_le; lia).
  replace (Z.of_nat j <? Z.of_nat n)%Z with true by (symmetry; apply Z.ltb_lt; lia).
  simpl. rewrite Nat2Z.id. reflexivity.
Qed.

Lemma column_nat (X : ndarray) (j : nat) :
  j < ncols X ->
  column X (Z.of_nat j) = Ok (map (fun i => data X i j) (seq 0 (nrows X))).
Proof.
  intro H. unfold column. rewrite py_index_nat by exact H. reflexivity.
Qed.

Section Queries.

Context {F : ModelFamily}.
Variable argsort : list Q -> list nat.
Variable recursion_limit : nat.

(** The two index arrays of a split node, as filters of the row numbers. *)
Lemma child_indices (self : node Dist) (X : ndarray) (sv : Q) (j : nat) :
  split_value self = Some sv ->
  split_dimension self = Z.of_nat j ->
  j < ncols X ->
  _compute_child1_and_child2_indices self X =
    Ok (filter (fun i => Qltb (data X i j) sv) (seq 0 (nrows X)),
        filter (fun i => Qgeb (data X i j) sv) (seq 0 (nrows X))).
Proof.
  intros Hsv Hdim Hj. unfold _compute_child1_and_child2_indices.
  rewrite Hdim, column_nat by exact Hj. rewrite Hsv. unfold of_option.
  rewrite !map_map.
  rewrite (np_where_map 0%nat (fun i => Qltb (data X i j) sv)).
  rewrite (np_where_map 0%nat (fun i => Qgeb (data X i j) sv)).
  rewrite !length_seq.
  f_equal. f_equal.
  - apply filter_ext_in. intros i Hi. apply in_seq in Hi.
    rewrite seq_nth by lia. reflexivity.
  - apply filter_ext_in. intros i Hi. apply in_seq in Hi.
    rewrite seq_nth by lia. reflexivity.
Qed.

(** C5 (queries before fitting): on a node without a posterior,
    [feature_importance] raises the not-fitted error, and so do [predict]
    and [prediction_paths] on every input that passes input normalization;
    the error comes from [_ensure_is_fitted], ahead of the traversal. *)
Theorem not_fitted_queries_raise (t : node Dist) :
  posterior t = None ->
  feature_importance t = Raise NotFittedError /\
  forall X M names,
    _normalize_data_and_feature_names X None = Ok (M, names) ->
    _ensure_is_fitted t (Some M) = Raise NotFittedError /\
    predict t X = Raise NotFittedError /\
    prediction_paths t X = Raise NotFittedError.
Proof.
  intro Hp. split.
  - unfold feature_importance, _ensure_is_fitted. rewrite Hp. reflexivity.
  - intros X M names HX.
    assert (E : _ensure_is_fitted t (Some M) = Raise NotFittedError).
    { unfold _ensure_is_fitted. rewrite Hp. reflexivity. }
    split; [ exact E | ].
    unfold predict, prediction_paths. rewrite HX, E. split; reflexivity.
Qed.

End Queries.

(** ** Scattering values into an array *)

Lemma mem_In (i : nat) (l : list nat) : mem i l = true <-> In i l.
Proof.
  unfold mem. rewrite existsb_exists. split.
  - intros (x & Hx & E). apply Nat.eqb_eq in E. subst. exact Hx.
  - intro H. exists i. split; [ exact H | apply Nat.eqb_refl ].
Qed.

Lemma mem_filter_seq (p : nat -> bool) (n i : nat) :
  i < n -> mem i (filter p (seq 0 n)) = p i.
Proof.
  intro Hi. destruct (p i) eqn:E.
  - apply mem_In, filter_In. split; [ apply in_seq; lia | exact E ].
  - destruct (mem i (filter p (seq 0 n))) eqn:M; [ | reflexivity ].
    apply mem_In, filter_In in M. destruct M as [_ M]. congruence.
Qed.

Lemma set_nth_length {A} (a : list A) (i : nat) (v : A) :
  length (set_nth a i v) = length a.
Proof.
  revert i. induction a as [ | x a IH ]; intros [ | i ]; simpl; auto.
Qed.

Lemma nth_set_nth {A} (d : A) (a : list A) (i k : nat) (v : A) :
  i < length a ->
  nth k (set_nth a i v) d = if k =? i then v else nth k a d.
Proof.
  revert i k. induction a as [ | x a IH ]; intros i k Hi; simpl in Hi.
  - lia.
  - destruct i as [ | i ]; destruct k as [ | k ]; simpl; try reflexivity.
    apply IH. lia.
Qed.

Lemma nth_map_seq {A} (d : A) (h : nat -> A) (n i : nat) :
  i < n -> nth i (map h (seq 0 n)) d = h i.
Proof.
  intro Hi.
  rewrite (nth_indep _ d (h 0)) by (rewrite length_map, length_seq; exact Hi).
  rewrite map_nth, seq_nth by exact Hi. reflexivity.
Qed.

Lemma put_loop_map {A} (d : A) (g : nat -> A) (idx : list nat) (a : list A) :
  Forall (fun i => i < length a) idx ->
  put_loop a idx (map g idx) =
    Ok (map (fun i => if mem i idx then g i else nth i a d) (seq 0 (length a))).
Proof.
  revert a. induction idx as [ | i idx IH ]; intros a H; simpl.
  - rewrite map_nth_seq. reflexivity.
  - inversion H as [ | ? ? Hi Hrest ]; subst.
    apply Nat.ltb_lt in Hi. rewrite Hi. apply Nat.ltb_lt in Hi.
    rewrite IH by (rewrite set_nth_length; exact Hrest).
    rewrite set_nth_length. f_equal.
    apply map_ext_in. intros k Hk.
    fold (mem k idx).
    rewrite (nth_set_nth d a k (g i) Hi).
    destruct (mem k idx); [ rewrite orb_true_r; reflexivity | ].
    rewrite orb_false_r.
    destruct (k =? i) eqn:E; [ | reflexivity ].
    apply Nat.eqb_eq in E. subst. reflexivity.
Qed.

Lemma put_map {A} (d : A) (g : nat -> A) (idx : list nat) (a : list A) :
  Forall (fun i => i < length a) idx ->
  put a idx (map g idx) =
    Ok (map (fun i => if mem i idx then g i else nth i a d) (seq 0 (length a))).
Proof.
  intro H. unfold put. rewrite length_map, Nat.eqb_refl.
  apply put_loop_map. exact H.
Qed.

Lemma filter_seq_bound (p : nat -> bool) (n : nat) :
  Forall (fun i => i < n) (filter p (seq 0 n)).
Proof.
  apply Forall_forall. intros i Hi. apply filter_In in Hi.
  destruct Hi as [Hi _]. apply in_seq in Hi. lia.
Qed.

Lemma take_rows_filter (X : ndarray) (p : nat -> bool) :
  take_rows X (filter p (seq 0 (nrows X))) =
    Ok (mk_ndarray (dtype X) (length (filter p (seq 0 (nrows X)))) (ncols X)
          (fun i j => data X (nth i (filter p (seq 0 (nrows X))) 0) j)).
Proof.
  unfold take_rows.
  replace (forallb _ _) with true; [ reflexivity | ].
  symmetry. apply forallb_forall. intros i Hi.
  apply Nat.ltb_lt.
  exact (proj1 (Forall_forall _ _) (filter_seq_bound p (nrows X)) i Hi).
Qed.

Lemma filter_seq_empty (p : nat -> bool) (n i : nat) :
  length (filter p (seq 0 n)) = 0 -> i < n -> p i = false.
Proof.
  intros H Hi. destruct (p i) eqn:E; [ | reflexivity ].
  assert (In i (filter p (seq 0 n))) as Hin
    by (apply filter_In; split; [ apply in_seq; lia | exact E ]).
  destruct (filter p (seq 0 n)); [ destruct Hin | discriminate ].
Qed.

Lemma map_const_repeat {A B} (v : B) (z : A) (n : nat) :
  map (fun _ => v) (repeat z n) = repeat v n.
Proof.
  induction n as [ | n IH ]; simpl; [ reflexivity | f_equal; exact IH ].
Qed.

Lemma map_const_seq {B} (v : B) (h : nat -> B) (s n : nat) :
  (forall i, h i = v) -> map h (seq s n) = repeat v n.
Proof.
  intro H. revert s. induction n as [ | n IH ]; intro s; simpl.
  - reflexivity.
  - rewrite H, IH. reflexivity.
Qed.

Section Prediction.

Context {F : ModelFamily}.

Lemma route_prediction_eq (t : node Dist) (x : nat -> Q) :
  route_prediction t x =
    match split_value t with
    | None =>
        match posterior t with
        | Some p => predict_leaf p
        | None => 0%Q
        end
    | Some sv =>
        if Qltb (x (Z.to_nat (split_dimension t))) sv
        then match child1 t with
             | Some c => route_prediction c x
             | None => 0%Q
             end
        else match child2 t with
             | Some c => route_prediction c x
             | None => 0%Q
             end
    end.
Proof.
  destruct t; reflexivity.
Qed.

Lemma _predict_eq (self : node Dist) (X : ndarray) :
  _predict self X =
    (leaf <- is_leaf self ;;
     if (leaf : bool) then
       prediction <- _predict_leaf self ;;
       Ok (Some (map (fun _ => prediction) (_create_merged_predictions_array X)))
     else
       ' (indices1, indices2) <- _compute_child1_and_child2_indices self X ;;
       predictions_merged <-
         (if 0 <? length indices1 then
            X1 <- take_rows X indices1 ;;
            match child1 self with
            | None => Raise AttributeError
            | Some c1 =>
                predictions1 <- _predict c1 X1 ;;
                predictions1 <- of_option predictions1
                                  (TypeError "NoneType assigned to an array") ;;
                merged <- put (_create_merged_predictions_array X)
                            indices1 predictions1 ;;
                Ok (Some merged)
            end
          else Ok None) ;;
       if 0 <? length indices2 then
         X2 <- take_rows X indices2 ;;
         match child2 self with
         | None => Raise AttributeError
         | Some c2 =>
             predictions2 <- _predict c2 X2 ;;
             predictions2 <- of_option predictions2
                               (TypeError "NoneType assigned to an array") ;;
             let predictions_merged :=
               match predictions_merged with
               | Some m => m
               | None => _create_merged_predictions_array X
               end in
             merged <- put predictions_merged indices2 predictions2 ;;
             Ok (Some merged)
         end
       else Ok predictions_merged).
Proof.
  destruct self; reflexivity.
Qed.

Lemma is_leaf_fitted (t : node Dist) :
  posterior t <> None ->
  is_leaf t = Ok match split_value t with None => true | Some _ => false end.
Proof.
  intro H. unfold is_leaf, _ensure_is_fitted.
  destruct (posterior t); [ reflexivity | contradiction ].
Qed.

(** What [_predict] returns on a well-formed tree: the routed prediction of
    every row, in row order; a split node that is given no rows returns
    [None]. *)
Lemma _predict_routes (d : nat) (t : node Dist) :
  well_formed d t ->
  forall X, ncols X = d ->
  exists r,
    _predict t X = Ok r /\
    (r = Some (map (fun i => route_prediction t (data X i)) (seq 0 (nrows X)))
     \/ r = None /\ nrows X = 0 /\ split_value t <> None).
Proof.
  induction 1 as [ t Hp (Hsv & _ & _)
                 | t sv c1 c2 ns b Hp Hsv Hc1 Hc2 Hdim _ _ _ W1 IH1 W2 IH2 ];
    intros X HX.
  - rewrite _predict_eq, is_leaf_fitted by exact Hp. rewrite Hsv.
    unfold _predict_leaf.
    destruct (posterior t) as [p | ] eqn:Ep; [ | contradiction ].
    simpl. eexists. split; [ reflexivity | left ].
    unfold _create_merged_predictions_array. f_equal.
    rewrite map_const_repeat. symmetry. apply map_const_seq.
    intro i. rewrite route_prediction_eq, Hsv, Ep. reflexivity.
  - set (j := Z.to_nat (split_dimension t)).
    assert (Hj : split_dimension t = Z.of_nat j) by (unfold j; lia).
    assert (Hjd : j < ncols X) by (unfold j; lia).
    rewrite _predict_eq, is_leaf_fitted by exact Hp. rewrite Hsv.
    rewrite (child_indices t X Hsv Hj Hjd).
    set (p1 := fun i => Qltb (data X i j) sv).
    set (p2 := fun i => Qgeb (data X i j) sv).
    rewrite !take_rows_filter. rewrite Hc1, Hc2.
    set (g1 := fun i => route_prediction c1 (data X i)).
    set (g2 := fun i => route_prediction c2 (data X i)).
    assert (R : forall i, route_prediction t (data X i) =
                          if p1 i then g1 i else g2 i).
    { intro i. rewrite route_prediction_eq, Hsv, Hc1, Hc2. reflexivity. }
    assert (P12 : forall i, p2 i = negb (p1 i)) by reflexivity.
    (* the predictions of the two children on their rows *)
    assert (C1 : 0 < length (filter p1 (seq 0 (nrows X))) ->
                 _predict c1
                   (mk_ndarray (dtype X) (length (filter p1 (seq 0 (nrows X))))
                      (ncols X)
                      (fun i c => data X (nth i (filter p1 (seq 0 (nrows X))) 0) c))
                 = Ok (Some (map g1 (filter p1 (seq 0 (nrows X)))))).
    { intro Hlen.
      destruct (IH1 (mk_ndarray (dtype X) (length (filter p1 (seq 0 (nrows X))))
                       (ncols X)
                       (fun i c => data X (nth i (filter p1 (seq 0 (nrows X))) 0) c))
                  HX) as (r & -> & [-> | (_ & Hz & _)]).
      - simpl. do 2 f_equal.
        exact (map_nth_seq_compose 0 g1 (filter p1 (seq 0 (nrows X)))).
      - simpl in Hz. lia. }
    assert (C2 : 0 < length (filter p2 (seq 0 (nrows X))) ->
                 _predict c2
                   (mk_ndarray (dtype X) (length (filter p2 (seq 0 (nrows X))))
                      (ncols X)
                      (fun i c => data X (nth i (filter p2 (seq 0 (nrows X))) 0) c))
                 = Ok (Some (map g2 (filter p2 (seq 0 (nrows X)))))).
    { intro Hlen.
      destruct (IH2 (mk_ndarray (dtype X) (length (filter p2 (seq 0 (nrows X))))
                       (ncols X)
                       (fun i c => data X (nth i (filter p2 (seq 0 (nrows X))) 0) c))
                  HX) as (r & -> & [-> | (_ & Hz & _)]).
      - simpl. do 2 f_equal.
        exact (map_nth_seq_compose 0 g2 (filter p2 (seq 0 (nrows X)))).
      - simpl in Hz. lia. }
    unfold _create_merged_predictions_array.
    destruct (0 <? length (filter p1 (seq 0 (nrows X)))) eqn:L1;
      destruct (0 <? length (filter p2 (seq 0 (nrows X)))) eqn:L2.
    + apply Nat.ltb_lt in L1, L2. rewrite (C1 L1), (C2 L2).
      unfold of_option.
      rewrite (put_map 0%Q) by (rewrite repeat_length; apply filter_seq_bound).
      rewrite repeat_length.
      rewrite (put_map 0%Q) by (rewrite length_map, length_seq; apply filter_seq_bound).
      rewrite length_map, length_seq.
      eexists. split; [ reflexivity | left ]. f_equal.
      apply map_ext_in. intros i Hi. apply in_seq in Hi.
      rewrite R, !mem_filter_seq by lia.
      rewrite (nth_map_seq 0%Q) by lia.
      rewrite mem_filter_seq by lia. rewrite P12.
      destruct (p1 i); reflexivity.
    + apply Nat.ltb_lt in L1. apply Nat.ltb_ge in L2. rewrite (C1 L1).
      unfold of_option.
      rewrite (put_map 0%Q) by (rewrite repeat_length; apply filter_seq_bound).
      rewrite repeat_length.
      eexists. split; [ reflexivity | left ]. f_equal.
      apply map_ext_in. intros i Hi. apply in_seq in Hi.
      rewrite R, mem_filter_seq by lia.
      assert (E : p2 i = false) by (apply (filter_seq_empty p2 (n := nrows X)); lia).
      rewrite P12 in E. apply negb_false_iff in E. rewrite E. reflexivity.
    + apply Nat.ltb_lt in L2. apply Nat.ltb_ge in L1. rewrite (C2 L2).
      unfold of_option.
      rewrite (put_map 0%Q) by (rewrite repeat_length; apply filter_seq_bound).
      rewrite repeat_length.
      eexists. split; [ reflexivity | left ]. f_equal.
      apply map_ext_in. intros i Hi. apply in_seq in Hi.
      rewrite R, mem_filter_seq by lia.
      assert (E : p1 i = false) by (apply (filter_seq_empty p1 (n := nrows X)); lia).
      rewrite P12, E. reflexivity.
    + apply Nat.ltb_ge in L1, L2.
      eexists. split; [ reflexivity | right ].
      split; [ reflexivity | ]. split; [ | congruence ].
      destruct (nrows X) as [ | n ] eqn:En; [ reflexivity | exfalso ].
      assert (E1 : p1 0 = false) by (apply (filter_seq_empty p1 (n := S n)); lia).
      assert (E2 : p2 0 = false) by (apply (filter_seq_empty p2 (n := S n)); lia).
      rewrite P12, E1 in E2. discriminate.
Qed.

End Prediction.

(** ** The search for the best split *)

Lemma argmax_from_spec (a pre : list Q) (best : Q) (bi : nat) :
  nth_error pre bi = Some best ->
  (forall c, In c pre -> (c <= best)%Q) ->
  exists v,
    nth_error (pre ++ a) (argmax_from best bi (length pre) a) = Some v /\
    forall c, In c (pre ++ a) -> (c <= v)%Q.
Proof.
  revert pre best bi. induction a as [ | x a IH ]; intros pre best bi Hb Hmax; simpl.
  - exists best. rewrite app_nil_r. split; assumption.
  - replace (pre ++ x :: a) with ((pre ++ [x]) ++ a)
      by (rewrite <- app_assoc; reflexivity).
    replace (S (length pre)) with (length (pre ++ [x]))
      by (rewrite length_app; simpl; lia).
    destruct (Qltb best x) eqn:E.
    + apply Qltb_true in E. apply IH.
      * rewrite nth_error_app2, Nat.sub_diag by lia. reflexivity.
      * intros c Hc. apply in_app_or in Hc. destruct Hc as [Hc | [<- | []]].
        -- apply Qle_trans with best; [ apply Hmax, Hc | apply Qlt_le_weak, E ].
        -- apply Qle_refl.
    + apply Qltb_false in E. apply IH.
      * rewrite nth_error_app1; [ exact Hb | ].
        apply nth_error_Some. congruence.
      * intros c Hc. apply in_app_or in Hc. destruct Hc as [Hc | [<- | []]].
        -- apply Hmax, Hc.
        -- exact E.
Qed.

Lemma argmax_spec (a : list Q) (i : nat) :
  argmax a = Ok i ->
  exists v, nth_error a i = Some v /\ forall c, In c a -> (c <= v)%Q.
Proof.
  destruct a as [ | x a ]; simpl; intro H; [ discriminate | ].
  inversion H; subst i.
  apply (argmax_from_spec a [x] (best := x) 0).
  - reflexivity.
  - intros c [<- | []]. apply Qle_refl.
Qed.

Section Search.

Context {F : ModelFamily}.

Lemma search_dim_spec (self : node Dist) X y n_dim sidx st0 dim st :
  search_dim self X y n_dim sidx st0 dim = Ok st ->
  exists c,
    dim_candidates self X y n_dim sidx dim = Ok c /\
    search_outcome st0 st c [dim].
Proof.
  destruct st0 as [[b0 i0] d0]. unfold search_dim, dim_candidates. intro H.
  bind_inv H. destruct (length a0 =? 0) eqn:L.
  - inversion H; subst st. exists []. split; [ reflexivity | ].
    left. split; [ reflexivity | intros c [] ].
  - bind_inv H. exists a1. split; [ reflexivity | ].
    destruct (argmax_spec _ E2) as (v & Hv & Hmax).
    apply of_option_ok in E3. rewrite Hv in E3. inversion E3; subst a3.
    destruct (Qltb b0 v) eqn:L0.
    + bind_inv H. inversion H; subst st. right.
      apply Qltb_true in L0.
      split; [ eapply nth_error_In, Hv | ].
      split; [ exact L0 | ]. split; [ exact Hmax | ].
      split.
      * apply of_option_ok in E4. apply nth_error_In in E4.
        unfold candidate_split_indices in E0. bind_inv E0.
        inversion E0; subst a0. apply in_map_iff in E4.
        destruct E4 as (k & <- & _). lia.
      * exists dim. split; [ left; reflexivity | reflexivity ].
    + inversion H; subst st. left. apply Qltb_false in L0.
      split; [ reflexivity | ].
      intros c Hc. apply Qle_trans with v; [ apply Hmax, Hc | exact L0 ].
Qed.

Lemma search_dims_spec (self : node Dist) X y n_dim sidx dims :
  forall st0 st,
  search_dims self X y n_dim sidx st0 dims = Ok st ->
  exists cs,
    all_candidates self X y n_dim sidx dims = Ok cs /\
    search_outcome st0 st cs dims.
Proof.
  induction dims as [ | dim dims IH ]; intros st0 st H; simpl in H.
  - inversion H; subst st. exists []. split; [ reflexivity | ].
    destruct st0 as [[b0 i0] d0]. left. split; [ reflexivity | intros c [] ].
  - bind_inv H.
    destruct (search_dim_spec _ _ _ _ _ _ _ E) as (c & Hc & O1).
    destruct (IH _ _ H) as (cs & Hcs & O2).
    exists (c ++ cs). simpl. rewrite Hc, Hcs. split; [ reflexivity | ].
    destruct st0 as [[b0 i0] d0], a as [[b1 i1] d1], st as [[b i] d].
    unfold search_outcome in *.
    destruct O1 as [(E1 & M1) | (In1 & L1 & M1 & P1 & dim1 & D1 & ->)];
      destruct O2 as [(E2 & M2) | (In2 & L2 & M2 & P2 & dim2 & D2 & ->)].
    + inversion E1; inversion E2; subst. left. split; [ reflexivity | ].
      intros x Hx. apply in_app_or in Hx. destruct Hx; auto.
    + inversion E1; subst. right.
      split; [ apply in_or_app; right; exact In2 | ].
      split; [ exact L2 | ].
      split.
      { intros x Hx. apply in_app_or in Hx. destruct Hx as [Hx | Hx].
        - apply Qle_trans with b0; [ apply M1, Hx | apply Qlt_le_weak, L2 ].
        - apply M2, Hx. }
      split; [ exact P2 | ].
      exists dim2. split; [ right; exact D2 | reflexivity ].
    + inversion E2; subst. right.
      split; [ apply in_or_app; left; exact In1 | ].
      split; [ exact L1 | ].
      split.
      { intros x Hx. apply in_app_or in Hx. destruct Hx as [Hx | Hx].
        - apply M1, Hx.
        - apply M2, Hx. }
      split; [ exact P1 | ].
      destruct D1 as [<- | []].
      exists dim. split; [ left; reflexivity | reflexivity ].
    + right.
      split; [ apply in_or_app; right; exact In2 | ].
      split; [ apply Qlt_trans with b1; assumption | ].
      split.
      { intros x Hx. apply in_app_or in Hx. destruct Hx as [Hx | Hx].
        - apply Qle_trans with b1; [ apply M1, Hx | apply Qlt_le_weak, L2 ].
        - apply M2, Hx. }
      split; [ exact P2 | ].
      exists dim2. split; [ right; exact D2 | reflexivity ].
Qed.

End Search.

(** ** One call of [_fit] *)

Section Induction.

Context {F : ModelFamily}.
Variable argsort : list Q -> list nat.

Lemma _fit_inv fuel (self : node Dist) X y delta names sidx0 t :
  _fit argsort (S fuel) self X y delta names sidx0 = Ok t ->
  exists n_data sidx row0 y0 b i d,
    match sidx0 with Some s => shape1 s | None => Ok (nrows X) end = Ok n_data /\
    active_sort_indices argsort X sidx0 = Ok sidx /\
    nth_error sidx 0 = Some row0 /\
    take y row0 = Ok y0 /\
    search_dims self X y (ncols X) sidx
      (no_split_of self y0, (-1)%Z, (-1)%Z) (seq 0 (ncols X)) = Ok (b, i, d) /\
    ((i <= 0)%Z /\
     t = set_fitted self (ncols X) n_data (own_posterior self y0)
     \/
     (0 < i)%Z /\
     exists row active1 active2 s1 s2 n1 n2 y1 y2 name last1 first2 x1 x2 c1 c2,
       nth_error sidx (Z.to_nat d) = Some row /\
       put_const (repeat false (nrows X)) (firstn (Z.to_nat i) row) true = Ok active1 /\
       put_const (repeat false (nrows X)) (skipn (Z.to_nat i) row) true = Ok active2 /\
       select_active_all active1 sidx = Ok s1 /\
       select_active_all active2 sidx = Ok s2 /\
       shape1 s1 = Ok n1 /\
       shape1 s2 = Ok n2 /\
       take y (firstn (Z.to_nat i) row) = Ok y1 /\
       take y (skipn (Z.to_nat i) row) = Ok y2 /\
       nth_error names (Z.to_nat d) = Some name /\
       nth_error (firstn (Z.to_nat i) row)
         (length (firstn (Z.to_nat i) row) - 1) = Some last1 /\
       nth_error (skipn (Z.to_nat i) row) 0 = Some first2 /\
       get X last1 (Z.to_nat d) = Ok x1 /\
       get X first2 (Z.to_nat d) = Ok x2 /\
       fit_child argsort fuel self X y delta names s1 n1 y1 = Ok c1 /\
       fit_child argsort fuel self X y delta names s2 n2 y2 = Ok c2 /\
       t = set_fitted
             (set_split self d name ((1 # 2) * scalar_add (dtype X) x1 x2)%Q
                (no_split_of self y0) b c1 c2)
             (ncols X) n_data (own_posterior self y0)).
Proof.
  intro H. cbn [_fit] in H.
  bind_inv H. destruct a3 as [[b i] d].
  exists a, a0, a1, a2, b, i, d.
  apply of_option_ok in E1.
  do 4 (split; [ first [ reflexivity | assumption ] | ]).
  split; [ exact E3 | ].
  destruct (0 <? i)%Z eqn:L.
  - right. apply Z.ltb_lt in L. split; [ exact L | ].
    bind_inv_all. of_option_all.
    match goal with
    | E : Ok (set_split _ _ _ _ _ _ _ _) = Ok _ |- _ => inversion E; subst
    end.
    inversion H; subst t.
    do 16 eexists.
    repeat (split; [ eassumption | ]).
    reflexivity.
  - left. apply Z.ltb_ge in L. split; [ exact L | ].
    inversion H. reflexivity.
Qed.

Lemma search_found (self : node Dist) X y n_dim sidx b0 b i d dims :
  search_dims self X y n_dim sidx (b0, (-1)%Z, (-1)%Z) dims = Ok (b, i, d) ->
  (0 < i)%Z ->
  (b0 < b)%Q /\ exists dim, In dim dims /\ d = Z.of_nat dim.
Proof.
  intros H Hi. pose proof H as O. apply search_dims_spec in O. destruct O as (cs & _ & O).
  unfold search_outcome in O.
  destruct O as [(E & _) | (_ & L & _ & _ & D)].
  - inversion E. lia.
  - split; assumption.
Qed.

Lemma new_node_leaf_state pp (prior : Dist) lvl :
  leaf_state (new_node pp prior lvl : node Dist).
Proof.
  repeat split.
Qed.

(** A fit of a node in leaf state yields a well-formed tree. *)
Lemma _fit_well_formed fuel :
  forall (self : node Dist) X y delta names sidx0 t,
  leaf_state self ->
  _fit argsort fuel self X y delta names sidx0 = Ok t ->
  well_formed (ncols X) t /\ n_dim t = Some (ncols X).
Proof.
  induction fuel as [ | fuel IH ]; intros self X y delta names sidx0 t Hleaf H.
  - discriminate H.
  - pose proof H as Hinv. apply _fit_inv in Hinv. destruct Hinv
      as (n & sidx & row0 & y0 & b & i & d & _ & _ & _ & _ & Hsearch & Hcase).
    destruct Hcase as [(_ & ->) | (Hi & Hsplit)].
    + split; [ | reflexivity ].
      apply wf_leaf; [ discriminate | exact Hleaf ].
    + destruct Hsplit as (row & a1 & a2 & s1 & s2 & n1 & n2 & y1 & y2 & name
                          & l1 & f2 & x1 & x2 & c1 & c2 & Hsplit).
      destruct Hsplit as (_ & _ & _ & _ & _ & _ & _ & _ & _ & _ & _ & _ & _ & _
                          & Hc1 & Hc2 & ->).
      apply search_found in Hsearch; [ | exact Hi ].
      destruct Hsearch as (Hgain & dim & Hdim & ->).
      apply in_seq in Hdim.
      assert (W : forall s n' y' c,
                 fit_child argsort fuel self X y delta names s n' y' = Ok c ->
                 well_formed (ncols X) c).
      { intros s n' y' c Hc. unfold fit_child in Hc.
        destruct ((1 <? n') && (1 <? length (np_unique y'))).
        - apply IH in Hc; [ apply Hc | apply new_node_leaf_state ].
        - inversion Hc. apply wf_leaf; [ discriminate | repeat split ]. }
      split; [ | reflexivity ].
      eapply wf_split with (c1 := c1) (c2 := c2); try reflexivity.
      * discriminate.
      * simpl. lia.
      * exact Hgain.
      * eapply W, Hc1.
      * eapply W, Hc2.
Qed.

Lemma _prune_eq fuel (self : node Dist) :
  _prune (S fuel) self =
    (leaf <- is_leaf self ;;
     if (leaf : bool) then Ok self
     else
       depth_start <- get_depth self ;;
       n_leaves_start <- get_n_leaves self ;;
       c1 <- of_option (child1 self) AttributeError ;;
       leaf1 <- is_leaf c1 ;;
       both <- (if (leaf1 : bool) then
                  c2 <- of_option (child2 self) AttributeError ;;
                  is_leaf c2
                else Ok false) ;;
       self <-
         (if (both : bool) then
            c2 <- of_option (child2 self) AttributeError ;;
            p1 <- _predict_leaf c1 ;;
            p2 <- _predict_leaf c2 ;;
            if Qeq_bool p1 p2
            then Ok (_erase_split_info (_erase_split_info_base self))
            else Ok self
          else
            c1' <- _prune fuel c1 ;;
            c2 <- of_option (child2 self) AttributeError ;;
            c2' <- _prune fuel c2 ;;
            Ok (set_children self (Some c1') (Some c2'))) ;;
       depth_end <- get_depth self ;;
       n_leaves_end <- get_n_leaves self ;;
       if negb (depth_start =? depth_end) || negb (n_leaves_start =? n_leaves_end)
       then _prune fuel self
       else Ok self).
Proof.
  reflexivity.
Qed.

(** One pass of [_prune] over a split node, before the test for a change:
    the node is collapsed, kept, or has its two children pruned. *)
Lemma _prune_inv fuel (self t : node Dist) :
  _prune (S fuel) self = Ok t ->
  posterior self <> None ->
  split_value self <> None ->
  exists c1 c2 self',
    child1 self = Some c1 /\ child2 self = Some c2 /\
    (self' = _erase_split_info (_erase_split_info_base self)
     \/ self' = self
     \/ exists c1' c2',
          _prune fuel c1 = Ok c1' /\ _prune fuel c2 = Ok c2' /\
          self' = set_children self (Some c1') (Some c2')) /\
    (_prune fuel self' = Ok t
     \/ t = self' /\ get_n_leaves self' = get_n_leaves self).
Proof.
  intros H Hp Hsv. rewrite _prune_eq in H.
  rewrite (is_leaf_fitted _ Hp) in H.
  destruct (split_value self) as [sv | ] eqn:Esv; [ | contradiction ].
  bind_inv_all. of_option_all.
  assert (C2 : exists c2, child2 self = Some c2).
  { destruct a3.
    - bind_inv_all. of_option_all. eauto.
    - bind_inv_all. of_option_all. eauto. }
  destruct C2 as (c2 & Hc2).
  exists a1, c2, a4. split; [ assumption | ]. split; [ assumption | ].
  rewrite Hc2 in E4. cbn [of_option] in E4.
  split.
  - destruct a3.
    + bind_inv_all.
      match goal with
      | E : (if Qeq_bool ?p ?q then _ else _) = Ok _ |- _ =>
          destruct (Qeq_bool p q)
      end.
      * left. congruence.
      * right. left. congruence.
    + bind_inv_all. right. right.
      do 2 eexists. split; [ reflexivity | ].
      split; [ reflexivity | ]. congruence.
  - destruct (negb (a =? a5) || negb (a0 =? a6)) eqn:Hchanged.
    + left. exact H.
    + right. split; [ congruence | ].
      apply orb_false_iff in Hchanged. destruct Hchanged as (_ & Hn).
      apply negb_false_iff, Nat.eqb_eq in Hn. congruence.
Qed.

(** Pruning keeps a tree well-formed and leaves the root's [n_dim],
    [n_data] and posterior as they are. *)
Lemma _prune_well_formed d fuel :
  forall (self t : node Dist),
  _prune fuel self = Ok t ->
  well_formed d self ->
  well_formed d t /\ n_dim t = n_dim self /\ n_data t = n_data self
  /\ posterior t = posterior self.
Proof.
  induction fuel as [ | fuel IH ]; intros self t H W.
  - discriminate H.
  - inversion W as [ ? Hp (Hsv & Hk1 & Hk2)
                   | ? sv c1 c2 ns b Hp Hsv Hc1 Hc2 Hdim Hns Hb Hgain W1 W2 ]; subst.
    + rewrite _prune_eq, (is_leaf_fitted _ Hp), Hsv in H.
      inversion H; subst. auto.
    + pose proof H as Hinv. apply _prune_inv in Hinv; [ | exact Hp | congruence ].
      destruct Hinv as (k1 & k2 & self' & Ek1 & Ek2 & Hself' & Htail).
      rewrite Hc1 in Ek1. rewrite Hc2 in Ek2.
      inversion Ek1; inversion Ek2; subst k1 k2.
      assert (W' : well_formed d self' /\ n_dim self' = n_dim self
                   /\ n_data self' = n_data self
                   /\ posterior self' = posterior self).
      { destruct Hself' as [-> | [-> | (c1' & c2' & P1 & P2 & ->)]].
        - split; [ | repeat split ].
          apply wf_leaf; [ exact Hp | repeat split ].
        - auto.
        - split; [ | repeat split ].
          apply wf_split with (sv := sv) (c1 := c1') (c2 := c2')
                              (no_split := ns) (best := b);
            try assumption; try reflexivity.
          + eapply IH; eassumption.
          + eapply IH; eassumption. }
      destruct W' as (W' & Nd & Nn & Np).
      destruct Htail as [Htail | (-> & _)].
      * destruct (IH self' t Htail W') as (Wt & Nd' & Nn' & Np').
        repeat split; congruence.
      * auto.
Qed.

(** Every fitted tree is well-formed for its number of features. *)
Lemma fitted_tree_well_formed recursion_limit (t : node Dist) :
  fitted_tree argsort recursion_limit t ->
  exists d p, n_dim t = Some d /\ posterior t = Some p /\ well_formed d t.
Proof.
  intros (pp & prior & lvl & X & y & delta & pr & names & H).
  unfold fit in H. bind_inv_all.
  destruct (Qltb delta 0 || Qltb 1 delta); [ discriminate | ].
  bind_inv_all. destruct a1 as [M fnames].
  destruct (length a =? 1); [ discriminate | ].
  destruct (negb (nrows M =? length a)); [ discriminate | ].
  bind_inv_all.
  apply _fit_well_formed in E2; [ | apply new_node_leaf_state ].
  destruct E2 as (W & Nd).
  assert (R : exists p, posterior t = Some p /\ n_dim t = Some (ncols M)
                        /\ well_formed (ncols M) t).
  { destruct pr.
    - unfold prune in H.
      destruct (@_prune_well_formed _ _ _ _ H W) as (Wt & Nd' & _ & Np).
      assert (Hp : posterior t <> None).
      { inversion Wt; assumption. }
      destruct (posterior t) as [p | ] eqn:Ep; [ | contradiction ].
      exists p. repeat split; congruence.
    - inversion H; subst t.
      assert (Hp : posterior a1 <> None).
      { inversion W; assumption. }
      destruct (posterior a1) as [p | ] eqn:Ep; [ | contradiction ].
      exists p. repeat split; congruence. }
  destruct R as (p & Hp & Hd & Wt). exists (ncols M), p. auto.
Qed.

End Induction.

(** ** Prediction on fitted trees *)

Section FittedPrediction.

Context {F : ModelFamily}.
Variable argsort : list Q -> list nat.
Variable recursion_limit : nat.

Lemma predict_routes d (t : node Dist) X M names :
  well_formed d t ->
  n_dim t = Some d ->
  _normalize_data_and_feature_names X None = Ok (M, names) ->
  ncols M = d ->
  predict t X = Ok (map (fun i => route_prediction t (data M i)) (seq 0 (nrows M))).
Proof.
  intros W Hd HX Hc. unfold predict. rewrite HX.
  assert (Hp : posterior t <> None) by (inversion W; assumption).
  unfold _ensure_is_fitted. rewrite Hd.
  destruct (posterior t) as [p | ]; [ | contradiction ].
  rewrite Hc, Nat.eqb_refl. simpl.
  destruct (_predict_routes W M Hc) as (r & -> & [-> | (-> & Hz & _)]).
  - reflexivity.
  - unfold _create_merged_predictions_array. rewrite Hz. reflexivity.
Qed.

(** C9 (single leaf): on a fitted tree that is one unsplit leaf, [predict]
    returns one entry per row of the query, each the leaf's point
    prediction, whatever the number of rows. *)
Theorem single_leaf_broadcast (t : node Dist) X M names :
  fitted_tree argsort recursion_limit t ->
  split_value t = None ->
  _normalize_data_and_feature_names X None = Ok (M, names) ->
  n_dim t = Some (ncols M) ->
  exists p,
    posterior t = Some p /\
    predict t X = Ok (repeat (predict_leaf p) (nrows M)) /\
    (forall l, predict t X = Ok l -> length l = nrows M).
Proof.
  intros Hfit Hsv HX Hd.
  destruct (fitted_tree_well_formed Hfit) as (d & p & Hd' & Hp & W).
  assert (d = ncols M) by congruence. subst d.
  assert (E : predict t X = Ok (repeat (predict_leaf p) (nrows M))).
  { rewrite (@predict_routes (ncols M) t X M names W Hd' HX eq_refl). f_equal.
    apply map_const_seq. intro i.
    rewrite route_prediction_eq, Hsv, Hp. reflexivity. }
  exists p. split; [ exact Hp | ]. split; [ exact E | ].
  intros l Hl. rewrite E in Hl. inversion Hl. apply repeat_length.
Qed.

(** C10 (1-D input): input normalization turns a 1-D input of length [d]
    into one sample of [d] features, for [predict] and for [fit] alike, so
    [predict] on such an input returns an array of length 1. *)
Theorem one_dimensional_input_is_one_sample (dt : npdtype) (elems : list Q)
    (feature_names : option (list string)) :
  exists M names,
    _normalize_data_and_feature_names (Array1 dt elems) feature_names
      = Ok (M, names) /\
    nrows M = 1 /\
    ncols M = length elems /\
    (forall j, data M 0 j = nth j elems 0%Q) /\
    forall t : node Dist,
      fitted_tree argsort recursion_limit t ->
      n_dim t = Some (length elems) ->
      exists v, predict t (Array1 dt elems) = Ok [v].
Proof.
  eexists. eexists. split; [ reflexivity | ].
  split; [ reflexivity | ]. split; [ reflexivity | ].
  split; [ reflexivity | ].
  intros t Hfit Hd.
  destruct (fitted_tree_well_formed Hfit) as (d & p & Hd' & Hp & W).
  assert (d = length elems) by congruence. subst d.
  eexists.
  apply (@predict_routes (length elems) t (Array1 dt elems) _ _ W Hd' eq_refl eq_refl).
Qed.

End FittedPrediction.

(** ** Prediction paths *)

Lemma NoDup_nth_inj (l : list nat) (i j : nat) :
  NoDup l -> i < length l -> j < length l -> nth i l 0 = nth j l 0 -> i = j.
Proof.
  intros H Hi Hj E. exact (proj1 (NoDup_nth l 0) H i j Hi Hj E).
Qed.

Lemma append_step_spec (paths : list nat) (s : step) (indices : list nat) :
  forall h : path_store,
  Forall (fun k => k < length paths) indices ->
  Forall (fun r => r < length h) paths ->
  NoDup indices ->
  NoDup paths ->
  exists h',
    append_step paths indices s h = Ok h' /\
    length h' = length h /\
    (forall k, In k indices ->
       nth (nth k paths 0) h' [] = nth (nth k paths 0) h [] ++ [s]) /\
    (forall r, (forall k, In k indices -> nth k paths 0 <> r) ->
       nth r h' [] = nth r h []).
Proof.
  induction indices as [ | i indices IH ]; intros h Hidx Hpaths Nd Np; simpl.
  - exists h. repeat split; auto. intros k [].
  - inversion Hidx as [ | ? ? Hi Hrest ]; subst.
    inversion Nd as [ | ? ? Hnotin Nd' ]; subst.
    assert (Hr : nth i paths 0 < length h).
    { apply (proj1 (Forall_forall _ _) Hpaths). apply nth_In. exact Hi. }
    rewrite (nth_error_nth' paths 0 Hi). simpl.
    rewrite (nth_error_nth' h [] Hr). simpl.
    set (r0 := nth i paths 0) in *.
    set (h1 := set_nth h r0 (nth r0 h [] ++ [s])).
    assert (L1 : length h1 = length h) by apply set_nth_length.
    destruct (IH h1 Hrest) as (h' & E & L & In' & Out'); auto.
    { rewrite L1. exact Hpaths. }
    exists h'. split; [ exact E | ]. split; [ congruence | ].
    split.
    + intros k [<- | Hk].
      * fold r0. rewrite Out'.
        -- unfold h1. rewrite (nth_set_nth [] h r0 _ Hr), Nat.eqb_refl. reflexivity.
        -- intros k Hk E'. apply Hnotin.
           assert (k = i); [ | subst; exact Hk ].
           apply (NoDup_nth_inj Np); auto.
           apply (proj1 (Forall_forall _ _) Hrest). exact Hk.
      * rewrite (In' k Hk). f_equal.
        unfold h1. rewrite (nth_set_nth [] h _ _ Hr).
        destruct (nth k paths 0 =? r0) eqn:E'; [ | reflexivity ].
        apply Nat.eqb_eq in E'. exfalso. apply Hnotin.
        assert (k = i); [ | subst; exact Hk ].
        apply (NoDup_nth_inj Np); auto.
        apply (proj1 (Forall_forall _ _) Hrest). exact Hk.
    + intros r Hout. rewrite Out'.
      * unfold h1. rewrite (nth_set_nth [] h _ _ Hr).
        destruct (r =? r0) eqn:E'; [ | reflexivity ].
        apply Nat.eqb_eq in E'. exfalso.
        apply (Hout i (or_introl eq_refl)). fold r0. congruence.
      * intros k Hk. apply Hout. right. exact Hk.
Qed.

Lemma NoDup_map_nth (paths idx : list nat) :
  NoDup paths -> NoDup idx -> Forall (fun k => k < length paths) idx ->
  NoDup (map (fun k => nth k paths 0) idx).
Proof.
  intros Np Ni Hb. induction idx as [ | k idx IH ]; simpl.
  - constructor.
  - inversion Ni as [ | ? ? Hnotin Ni' ]; subst.
    inversion Hb as [ | ? ? Hk Hb' ]; subst.
    constructor; [ | apply IH; assumption ].
    intro Hin. apply in_map_iff in Hin. destruct Hin as (k' & E & Hk').
    apply Hnotin. assert (k' = k); [ | subst; exact Hk' ].
    apply (NoDup_nth_inj Np); auto.
    apply (proj1 (Forall_forall _ _) Hb'). exact Hk'.
Qed.

Lemma nth_map_nth (paths idx : list nat) (k' : nat) :
  k' < length idx ->
  nth k' (map (fun k => nth k paths 0) idx) 0 = nth (nth k' idx 0) paths 0.
Proof.
  intro H.
  rewrite (nth_indep _ 0 ((fun k => nth k paths 0) 0)) by (rewrite length_map; exact H).
  apply (map_nth (fun k => nth k paths 0)).
Qed.

Lemma in_filter_seq_nth (p : nat -> bool) (n k : nat) :
  k < n -> p k = true ->
  exists k', k' < length (filter p (seq 0 n)) /\ nth k' (filter p (seq 0 n)) 0 = k.
Proof.
  intros Hk Hp. apply In_nth. apply filter_In. split; [ apply in_seq; lia | exact Hp ].
Qed.

Section Paths.

Context {F : ModelFamily}.

Lemma route_path_eq (t : node Dist) (x : nat -> Q) :
  route_path t x =
    match split_value t with
    | None => []
    | Some sv =>
        if Qgeb (x (Z.to_nat (split_dimension t))) sv
        then (split_dimension t, split_feature_name t, split_value t, true)
             :: match child2 t with
                | Some c => route_path c x
                | None => []
                end
        else (split_dimension t, split_feature_name t, split_value t, false)
             :: match child1 t with
                | Some c => route_path c x
                | None => []
                end
    end.
Proof.
  destruct t; reflexivity.
Qed.

Lemma _update_prediction_paths_eq (self : node Dist) X paths h :
  _update_prediction_paths self X paths h =
    (leaf <- is_leaf self ;;
     if (leaf : bool) then Ok h
     else
       ' (indices1, indices2) <- _compute_child1_and_child2_indices self X ;;
       h <- (if 0 <? length indices1 then
               append_step paths indices1
                 (split_dimension self, split_feature_name self,
                  split_value self, false) h
             else Ok h) ;;
       h <- (if 0 <? length indices2 then
               append_step paths indices2
                 (split_dimension self, split_feature_name self,
                  split_value self, true) h
             else Ok h) ;;
       h <- descend_paths (child1 self) X indices1 paths h ;;
       descend_paths (child2 self) X indices2 paths h).
Proof.
  destruct self; reflexivity.
Qed.

(** The effect of one of the two [append] loops on the store. *)
Lemma append_filter_spec (X : ndarray) (paths : list nat) (p : nat -> bool)
    (s : step) (h : path_store) :
  nrows X = length paths ->
  NoDup paths ->
  Forall (fun r => r < length h) paths ->
  exists h',
    (if 0 <? length (filter p (seq 0 (nrows X)))
     then append_step paths (filter p (seq 0 (nrows X))) s h
     else Ok h) = Ok h' /\
    length h' = length h /\
    (forall k, k < nrows X -> p k = true ->
       nth (nth k paths 0) h' [] = nth (nth k paths 0) h [] ++ [s]) /\
    (forall k, k < nrows X -> p k = false ->
       nth (nth k paths 0) h' [] = nth (nth k paths 0) h []) /\
    (forall r, ~ In r paths -> nth r h' [] = nth r h []).
Proof.
  intros Hn Np Hb.
  destruct (0 <? length (filter p (seq 0 (nrows X)))) eqn:L.
  - destruct (@append_step_spec paths s (filter p (seq 0 (nrows X))) h)
      as (h' & E & Len & In' & Out'); auto.
    { rewrite <- Hn. apply filter_seq_bound. }
    { apply NoDup_filter, seq_NoDup. }
    exists h'. split; [ exact E | ]. split; [ exact Len | ].
    split; [ | split ].
    + intros k Hk Hp. apply In'. apply filter_In.
      split; [ apply in_seq; lia | exact Hp ].
    + intros k Hk Hp. apply Out'. intros k' Hk' E'.
      apply filter_In in Hk'. destruct Hk' as [Hk' Hp']. apply in_seq in Hk'.
      assert (k' = k) by (apply (NoDup_nth_inj Np); auto; lia).
      subst. congruence.
    + intros r Hr. apply Out'. intros k' Hk' E'. apply Hr.
      apply filter_In in Hk'. destruct Hk' as [Hk' _]. apply in_seq in Hk'.
      subst r. apply nth_In. lia.
  - exists h. split; [ reflexivity | ]. split; [ reflexivity | ].
    apply Nat.ltb_ge in L.
    split; [ | split ]; auto.
    intros k Hk Hp. rewrite (filter_seq_empty p (n := nrows X)) in Hp by lia.
    discriminate.
Qed.

(** The effect of the descent into one child on the store. *)
Lemma descend_paths_spec d (c : node Dist) (X : ndarray) (paths : list nat)
    (p : nat -> bool) (h : path_store) :
  well_formed d c ->
  (forall X1 paths1 h1,
     ncols X1 = d -> nrows X1 = length paths1 -> NoDup paths1 ->
     Forall (fun r => r < length h1) paths1 ->
     exists h',
       _update_prediction_paths c X1 paths1 h1 = Ok h' /\
       paths_extended c X1 paths1 h1 h') ->
  ncols X = d ->
  nrows X = length paths ->
  NoDup paths ->
  Forall (fun r => r < length h) paths ->
  exists h',
    descend_paths (Some c) X (filter p (seq 0 (nrows X))) paths h = Ok h' /\
    length h' = length h /\
    (forall k, k < nrows X -> p k = true ->
       nth (nth k paths 0) h' [] =
       nth (nth k paths 0) h [] ++ route_path c (data X k)) /\
    (forall k, k < nrows X -> p k = false ->
       nth (nth k paths 0) h' [] = nth (nth k paths 0) h []) /\
    (forall r, ~ In r paths -> nth r h' [] = nth r h []).
Proof.
  intros W IH Hc Hn Np Hb. unfold descend_paths.
  set (idx := filter p (seq 0 (nrows X))).
  destruct (0 <? length idx) eqn:L.
  - assert (Hp : posterior c <> None) by (inversion W; assumption).
    rewrite (is_leaf_fitted _ Hp).
    destruct (split_value c) as [sv | ] eqn:Esv.
    + unfold idx at 1. rewrite take_rows_filter. fold idx.
      assert (Bidx : Forall (fun k => k < length paths) idx).
      { rewrite <- Hn. apply filter_seq_bound. }
      rewrite (take_ok 0 paths Bidx).
      set (paths1 := map (fun k => nth k paths 0) idx).
      set (X1 := mk_ndarray (dtype X) (length idx) (ncols X)
                   (fun i j => data X (nth i idx 0) j)).
      destruct (IH X1 paths1 h) as (h' & E & Len & In' & Out').
      { exact Hc. }
      { unfold paths1. rewrite length_map. reflexivity. }
      { apply NoDup_map_nth; auto. apply NoDup_filter, seq_NoDup. }
      { apply Forall_forall. intros r Hr. apply in_map_iff in Hr.
        destruct Hr as (k & <- & Hk).
        apply (proj1 (Forall_forall _ _) Hb). apply nth_In.
        apply (proj1 (Forall_forall _ _) Bidx). exact Hk. }
      exists h'. split; [ exact E | ]. split; [ exact Len | ].
      split; [ | split ].
      * intros k Hk Hpk.
        destruct (in_filter_seq_nth p Hk Hpk) as (k' & Hk' & Ek').
        fold idx in Hk', Ek'.
        assert (Hk1 : k' < length paths1) by (unfold paths1; rewrite length_map; exact Hk').
        specialize (In' k' Hk1).
        unfold paths1 in In'. rewrite (nth_map_nth paths idx Hk') in In'.
        unfold X1 in In'. simpl in In'. rewrite Ek' in In'. exact In'.
      * intros k Hk Hpk. apply Out'. intro Hin. apply in_map_iff in Hin.
        destruct Hin as (k2 & E2 & Hk2).
        unfold idx in Hk2. apply filter_In in Hk2. destruct Hk2 as [Hk2 Hp2].
        apply in_seq in Hk2.
        assert (k2 = k) by (apply (NoDup_nth_inj Np); auto; lia).
        subst. congruence.
      * intros r Hr. apply Out'. intro Hin. apply Hr. apply in_map_iff in Hin.
        destruct Hin as (k2 & <- & Hk2). apply nth_In.
        apply (proj1 (Forall_forall _ _) Bidx). exact Hk2.
    + exists h. split; [ reflexivity | ]. split; [ reflexivity | ].
      split; [ | split ]; auto.
      intros k Hk Hpk. rewrite route_path_eq, Esv, app_nil_r. reflexivity.
  - exists h. split; [ reflexivity | ]. split; [ reflexivity | ].
    apply Nat.ltb_ge in L.
    split; [ | split ]; auto.
    intros k Hk Hpk. rewrite (filter_seq_empty p (n := nrows X)) in Hpk by (fold idx; lia).
    discriminate.
Qed.

(** [_update_prediction_paths] on a well-formed tree appends to the list of
    every row the path of that row. *)
Lemma _update_prediction_paths_spec d (t : node Dist) :
  well_formed d t ->
  forall X paths h,
  ncols X = d -> nrows X = length paths -> NoDup paths ->
  Forall (fun r => r < length h) paths ->
  exists h',
    _update_prediction_paths t X paths h = Ok h' /\
    paths_extended t X paths h h'.
Proof.
  induction 1 as [ t Hp (Hsv & _ & _)
                 | t sv c1 c2 ns b Hp Hsv Hc1 Hc2 Hdim _ _ _ W1 IH1 W2 IH2 ];
    intros X paths h HX Hn Np Hb.
  - rewrite _update_prediction_paths_eq, (is_leaf_fitted _ Hp), Hsv.
    exists h. split; [ reflexivity | ].
    split; [ reflexivity | ]. split; [ | reflexivity ].
    intros k Hk. rewrite route_path_eq, Hsv, app_nil_r. reflexivity.
  - set (j := Z.to_nat (split_dimension t)).
    assert (Hj : split_dimension t = Z.of_nat j) by (unfold j; lia).
    assert (Hjd : j < ncols X) by (unfold j; lia).
    rewrite _update_prediction_paths_eq, (is_leaf_fitted _ Hp), Hsv.
    rewrite (child_indices t X Hsv Hj Hjd).
    set (p1 := fun i => Qltb (data X i j) sv).
    set (p2 := fun i => Qgeb (data X i j) sv).
    assert (P12 : forall i, p2 i = negb (p1 i)) by reflexivity.
    rewrite Hc1, Hc2.
    destruct (@append_filter_spec X paths p1
                (split_dimension t, split_feature_name t, Some sv, false) h
                Hn Np Hb)
      as (h1 & -> & L1 & A1 & B1 & O1).
    assert (Hb1 : Forall (fun r => r < length h1) paths) by (rewrite L1; exact Hb).
    destruct (@append_filter_spec X paths p2
                (split_dimension t, split_feature_name t, Some sv, true) h1
                Hn Np Hb1)
      as (h2 & -> & L2 & A2 & B2 & O2).
    assert (Hb2 : Forall (fun r => r < length h2) paths) by (rewrite L2; exact Hb1).
    destruct (@descend_paths_spec d c1 X paths p1 h2 W1 IH1 HX Hn Np Hb2)
      as (h3 & -> & L3 & A3 & B3 & O3).
    assert (Hb3 : Forall (fun r => r < length h3) paths) by (rewrite L3; exact Hb2).
    destruct (@descend_paths_spec d c2 X paths p2 h3 W2 IH2 HX Hn Np Hb3)
      as (h4 & -> & L4 & A4 & B4 & O4).
    exists h4. split; [ reflexivity | ].
    split; [ congruence | ]. split.
    + intros k Hk. rewrite <- Hn in Hk.
      rewrite route_path_eq, Hsv, Hc1, Hc2. fold j.
      change (Qgeb (data X k j) sv) with (p2 k).
      destruct (p1 k) eqn:E1.
      * assert (E2 : p2 k = false) by (rewrite P12, E1; reflexivity).
        rewrite E2, (B4 k Hk E2), (A3 k Hk E1), (B2 k Hk E2), (A1 k Hk E1).
        rewrite <- app_assoc. reflexivity.
      * assert (E2 : p2 k = true) by (rewrite P12, E1; reflexivity).
        rewrite E2, (A4 k Hk E2), (B3 k Hk E1), (A2 k Hk E2), (B1 k Hk E1).
        rewrite <- app_assoc. reflexivity.
    + intros r Hr. rewrite (O4 r Hr), (O3 r Hr), (O2 r Hr), (O1 r Hr). reflexivity.
Qed.

End Paths.

(** ** Feature importance *)

Lemma Qsum_set_nth (a : list Q) (i : nat) (v : Q) :
  i < length a ->
  (Qsum (set_nth a i (nth i a 0 + v)) == Qsum a + v)%Q.
Proof.
  revert i. induction a as [ | x a IH ]; intros i Hi; simpl in Hi.
  - lia.
  - destruct i as [ | i ]; simpl.
    + ring.
    + rewrite IH by lia. ring.
Qed.

Lemma Forall_set_nth {A} (P : A -> Prop) (a : list A) (i : nat) (v : A) :
  Forall P a -> P v -> Forall P (set_nth a i v).
Proof.
  intros H Hv. revert i.
  induction H as [ | x a Hx Ha IH ]; intros [ | i ]; simpl.
  - constructor.
  - constructor.
  - constructor; assumption.
  - constructor; [ exact Hx | apply IH ].
Qed.

Lemma Qsum_repeat_0 (n : nat) : (Qsum (repeat 0 n) == 0)%Q.
Proof.
  induction n as [ | n IH ]; simpl; [ reflexivity | rewrite IH; ring ].
Qed.

Lemma Qsum_div (a : list Q) (total : Q) :
  (Qsum (map (fun x => x / total) a) == Qsum a / total)%Q.
Proof.
  induction a as [ | x a IH ]; simpl.
  - unfold Qdiv. ring.
  - rewrite IH. unfold Qdiv. ring.
Qed.

Section Importance.

Context {F : ModelFamily}.
Variable argsort : list Q -> list nat.
Variable recursion_limit : nat.

Lemma _update_feature_importance_eq (self : node Dist) fi :
  _update_feature_importance self fi =
    (leaf <- is_leaf self ;;
     if (leaf : bool) then Ok fi
     else
       best <- of_option (best_log_p_data_split self)
                 (TypeError "unsupported operand type(s) for -") ;;
       no_split <- of_option (log_p_data_no_split self)
                     (TypeError "unsupported operand type(s) for -") ;;
       let log_p_gain := (best - no_split)%Q in
       fi <- add_at fi (split_dimension self) log_p_gain ;;
       match child1 self with
       | None => Ok fi
       | Some c1 =>
           fi <- _update_feature_importance c1 fi ;;
           match child2 self with
           | None => Raise AttributeError
           | Some c2 => _update_feature_importance c2 fi
           end
       end).
Proof.
  destruct self; reflexivity.
Qed.

Lemma add_at_spec (a : list Q) (k : Z) (v : Q) :
  (0 <= k < Z.of_nat (length a))%Z ->
  (0 <= v)%Q ->
  Forall (fun x => (0 <= x)%Q) a ->
  exists a',
    add_at a k v = Ok a' /\
    length a' = length a /\
    Forall (fun x => (0 <= x)%Q) a' /\
    (Qsum a' == Qsum a + v)%Q.
Proof.
  intros Hk Hv Ha. unfold add_at.
  replace k with (Z.of_nat (Z.to_nat k)) by lia.
  assert (Hj : Z.to_nat k < length a) by lia.
  rewrite py_index_nat by exact Hj.
  rewrite (nth_error_nth' a 0%Q Hj). simpl.
  eexists. split; [ reflexivity | ].
  split; [ apply set_nth_length | ].
  split.
  - apply Forall_set_nth; [ exact Ha | ].
    assert (0 <= nth (Z.to_nat k) a 0)%Q.
    { apply (proj1 (Forall_forall _ _) Ha). apply nth_In. exact Hj. }
    replace 0%Q with (0 + 0)%Q by reflexivity.
    apply Qplus_le_compat; assumption.
  - apply Qsum_set_nth. exact Hj.
Qed.

(** The accumulated gains: every entry stays non-negative, and the total
    grows strictly as soon as the node is split. *)
Lemma _update_feature_importance_spec d (t : node Dist) :
  well_formed d t ->
  forall fi,
  length fi = d ->
  Forall (fun x => (0 <= x)%Q) fi ->
  exists fi',
    _update_feature_importance t fi = Ok fi' /\
    length fi' = d /\
    Forall (fun x => (0 <= x)%Q) fi' /\
    (Qsum fi <= Qsum fi')%Q /\
    (split_value t <> None -> (Qsum fi < Qsum fi')%Q) /\
    (split_value t = None -> fi' = fi).
Proof.
  induction 1 as [ t Hp (Hsv & _ & _)
                 | t sv c1 c2 ns b Hp Hsv Hc1 Hc2 Hdim Hns Hb Hgain W1 IH1 W2 IH2 ];
    intros fi Hlen Hpos.
  - rewrite _update_feature_importance_eq, (is_leaf_fitted _ Hp), Hsv.
    exists fi. repeat split; auto.
    + apply Qle_refl.
    + congruence.
  - rewrite _update_feature_importance_eq, (is_leaf_fitted _ Hp), Hsv.
    rewrite Hb, Hns, Hc1, Hc2. cbn [of_option].
    assert (G : (0 < b - ns)%Q).
    { apply (Qplus_lt_l _ _ ns). ring_simplify. exact Hgain. }
    destruct (@add_at_spec fi (split_dimension t) (b - ns)%Q)
      as (fi0 & -> & L0 & P0 & S0); auto.
    { rewrite Hlen. exact Hdim. }
    { apply Qlt_le_weak, G. }
    destruct (IH1 fi0) as (fi1 & -> & L1 & P1 & S1 & _); [ congruence | exact P0 | ].
    destruct (IH2 fi1) as (fi2 & -> & L2 & P2 & S2 & _); [ congruence | exact P1 | ].
    exists fi2. split; [ reflexivity | ].
    split; [ exact L2 | ]. split; [ exact P2 | ].
    assert (Lt : (Qsum fi < Qsum fi2)%Q).
    { apply Qlt_le_trans with (Qsum fi0).
      - rewrite S0. rewrite <- (Qplus_0_r (Qsum fi)) at 1.
        apply Qplus_lt_r. exact G.
      - apply Qle_trans with (Qsum fi1); assumption. }
    split; [ apply Qlt_le_weak, Lt | ].
    split; [ intros _; exact Lt | congruence ].
Qed.

(** C4 (feature importance): on a fitted tree with at least one split,
    [feature_importance] returns [n_dim] non-negative entries that sum to 1;
    on a single-leaf tree every gain is zero and the normalization is the
    undefined 0/0 in every entry. *)
Theorem feature_importance_normalized (t : node Dist) :
  fitted_tree argsort recursion_limit t ->
  exists d,
    n_dim t = Some d /\
    (split_value t <> None ->
     exists v,
       feature_importance t = Ok (map finite v) /\
       length v = d /\
       Forall (fun x => (0 <= x)%Q) v /\
       (Qsum v == 1)%Q) /\
    (split_value t = None ->
     feature_importance t = Ok (repeat nan d)).
Proof.
  intro Hfit.
  destruct (fitted_tree_well_formed Hfit) as (d & p & Hd & Hp & W).
  exists d. split; [ exact Hd | ].
  assert (Z0 : Forall (fun x => (0 <= x)%Q) (repeat 0%Q d)).
  { apply Forall_forall. intros x Hx. apply repeat_spec in Hx. subst.
    apply Qle_refl. }
  destruct (@_update_feature_importance_spec d t W (repeat 0%Q d))
    as (fi & E & Len & Pos & _ & Lt & Eq); [ apply repeat_length | exact Z0 | ].
  unfold feature_importance, _ensure_is_fitted. rewrite Hp, Hd. cbn [of_option].
  rewrite E. split.
  - intro Hsv. specialize (Lt Hsv). rewrite Qsum_repeat_0 in Lt.
    exists (map (fun x => x / Qsum fi)%Q fi).
    split; [ | split; [ | split ] ].
    + f_equal. rewrite map_map. apply map_ext. intro x.
      unfold true_divide.
      destruct (Qeq_bool (Qsum fi) 0) eqn:E0; [ | reflexivity ].
      apply Qeq_bool_eq in E0. rewrite E0 in Lt.
      exfalso. exact (Qlt_irrefl _ Lt).
    + rewrite length_map. exact Len.
    + apply Forall_forall. intros x Hx. apply in_map_iff in Hx.
      destruct Hx as (x0 & <- & Hx0).
      apply Qle_shift_div_l; [ exact Lt | ].
      rewrite Qmult_0_l.
      apply (proj1 (Forall_forall _ _) Pos). exact Hx0.
    + rewrite Qsum_div. apply Qmult_inv_r.
      intro E0. rewrite E0 in Lt. exact (Qlt_irrefl _ Lt).
  - intro Hsv. rewrite (Eq Hsv). f_equal.
    assert (T : Qeq_bool (Qsum (repeat 0%Q d)) 0 = true)
      by (apply Qeq_eq_bool, Qsum_repeat_0).
    unfold true_divide. rewrite T. clear.
    induction d as [ | d IH ]; simpl; [ reflexivity | f_equal; exact IH ].
Qed.

End Importance.

(** ** Acceptance of a split *)

Section Acceptance.

Context {F : ModelFamily}.
Variable argsort : list Q -> list nat.

(** C1 (monotonic acceptance): a call of [_fit] on a node records a split
    exactly when the largest marginal log-likelihood over the legal
    candidate splits of all dimensions is strictly greater than the no-split
    marginal log-likelihood of the node's active targets, and then records
    these two values; otherwise the split fields are left as they were, so
    that a leaf remains a leaf with no split value and no children. *)
Theorem monotonic_acceptance fuel (self : node Dist) X y delta names sidx0 t :
  _fit argsort fuel self X y delta names sidx0 = Ok t ->
  exists sidx row0 y0 cands,
    active_sort_indices argsort X sidx0 = Ok sidx /\
    nth_error sidx 0 = Some row0 /\
    take y row0 = Ok y0 /\
    all_candidates self X y (ncols X) sidx (seq 0 (ncols X)) = Ok cands /\
    ((exists c, In c cands /\ (no_split_of self y0 < c)%Q) ->
     exists best sv c1 c2,
       In best cands /\
       (forall c, In c cands -> (c <= best)%Q) /\
       (no_split_of self y0 < best)%Q /\
       log_p_data_no_split t = Some (no_split_of self y0) /\
       best_log_p_data_split t = Some best /\
       split_value t = Some sv /\
       child1 t = Some c1 /\
       child2 t = Some c2 /\
       (0 <= split_dimension t < Z.of_nat (ncols X))%Z) /\
    (~ (exists c, In c cands /\ (no_split_of self y0 < c)%Q) ->
     split_value t = split_value self /\
     child1 t = child1 self /\
     child2 t = child2 self /\
     split_dimension t = split_dimension self /\
     split_feature_name t = split_feature_name self /\
     log_p_data_no_split t = log_p_data_no_split self /\
     best_log_p_data_split t = best_log_p_data_split self) /\
    (leaf_state self ->
     (split_value t <> None <->
      exists c, In c cands /\ (no_split_of self y0 < c)%Q) /\
     (~ (exists c, In c cands /\ (no_split_of self y0 < c)%Q) ->
      leaf_state t)).
Proof.
  destruct fuel as [ | fuel ]; intro H; [ discriminate H | ].
  apply _fit_inv in H.
  destruct H as (n & sidx & row0 & y0 & b & i & d & _ & Hs & Hr & Hy & Hsearch & Hcase).
  pose proof Hsearch as O. apply search_dims_spec in O.
  destruct O as (cands & Hc & O). unfold search_outcome in O.
  exists sidx, row0, y0, cands.
  do 4 (split; [ assumption | ]).
  destruct O as [(E & Hmax) | (Hin & Hlt & Hmax & Hi & dim & Hdim & ->)].
  - (* no candidate beats the no-split likelihood *)
    inversion E; subst b i d.
    destruct Hcase as [(_ & ->) | (Hi & _)]; [ | lia ].
    assert (No : ~ (exists c, In c cands /\ (no_split_of self y0 < c)%Q)).
    { intros (c & Hin & Hlt). exact (Qlt_not_le _ _ Hlt (Hmax c Hin)). }
    split; [ intro Y; contradiction | ].
    split; [ intros _; repeat split | ].
    intros (Hsv & Hk1 & Hk2). split.
    + split; [ intro Hne; exfalso; apply Hne; exact Hsv | intro Y; contradiction ].
    + intros _. repeat split; assumption.
  - (* a candidate is recorded *)
    destruct Hcase as [(Hi' & _) | (_ & Hsplit)]; [ lia | ].
    destruct Hsplit as (row & a1 & a2 & s1 & s2 & n1 & n2 & y1 & y2 & name
                        & l1 & f2 & x1 & x2 & c1 & c2 & Hsplit).
    destruct Hsplit as (_ & _ & _ & _ & _ & _ & _ & _ & _ & _ & _ & _ & _ & _
                        & _ & _ & ->).
    apply in_seq in Hdim.
    assert (Yes : exists c, In c cands /\ (no_split_of self y0 < c)%Q)
      by (exists b; split; assumption).
    split.
    + intros _. exists b. eexists. exists c1, c2.
      repeat split; try assumption; try reflexivity; simpl; lia.
    + split; [ intro No; contradiction | ].
      intros _. split.
      * split; [ intros _; exact Yes | intros _; discriminate ].
      * intro No. contradiction.
Qed.

End Acceptance.

(** ** Active rows *)

Lemma put_const_true (idx : list nat) :
  forall a : list bool,
  Forall (fun i => i < length a) idx ->
  put_const a idx true =
    Ok (map (fun i => mem i idx || nth i a false) (seq 0 (length a))).
Proof.
  induction idx as [ | i idx IH ]; intros a H; simpl.
  - rewrite map_nth_seq. reflexivity.
  - inversion H as [ | ? ? Hi Hrest ]; subst.
    apply Nat.ltb_lt in Hi. rewrite Hi. apply Nat.ltb_lt in Hi.
    rewrite IH by (rewrite set_nth_length; exact Hrest).
    rewrite set_nth_length. f_equal.
    apply map_ext_in. intros k Hk.
    fold (mem k idx).
    rewrite (nth_set_nth false a k true Hi).
    destruct (k =? i); simpl.
    + apply orb_true_r.
    + reflexivity.
Qed.

Lemma active_mask (n : nat) (idx : list nat) (act : list bool) :
  Forall (fun i => i < n) idx ->
  put_const (repeat false n) idx true = Ok act ->
  length act = n /\ forall i, i < n -> nth i act false = mem i idx.
Proof.
  intros H E. rewrite put_const_true in E by (rewrite repeat_length; exact H).
  inversion E; subst act. rewrite repeat_length, length_map, length_seq.
  split; [ reflexivity | ].
  intros i Hi. rewrite (nth_map_seq false) by exact Hi.
  rewrite nth_repeat. apply orb_false_r.
Qed.

Lemma compress_map {A} (f : A -> bool) (l : list A) :
  compress (map f l) l = filter f l.
Proof.
  induction l as [ | x l IH ]; simpl; [ reflexivity | ].
  rewrite IH. reflexivity.
Qed.

Lemma select_active_filter (act : list bool) (si : list nat) :
  Forall (fun i => i < length act) si ->
  select_active act si = Ok (filter (fun s => nth s act false) si).
Proof.
  intro H. unfold select_active. rewrite (@take_ok _ false act si H).
  rewrite compress_map. reflexivity.
Qed.

Lemma select_active_all_filter (act : list bool) (sidx : list (list nat)) :
  Forall (Forall (fun i => i < length act)) sidx ->
  select_active_all act sidx =
    Ok (map (filter (fun s => nth s act false)) sidx).
Proof.
  induction 1 as [ | si sidx H _ IH ]; simpl.
  - reflexivity.
  - rewrite (@select_active_filter act si H), IH. reflexivity.
Qed.

Lemma shape1_rectangular (rows : list (list nat)) (n m : nat) (r : list nat) :
  shape1 rows = Ok n ->
  nth_error rows 0 = Some r ->
  Forall (fun r' => length r' = m) rows ->
  n = m /\ length r = m.
Proof.
  intros H Hr Hall. destruct rows as [ | r0 rows ]; [ discriminate | ].
  simpl in Hr. inversion Hr; subst r0.
  inversion Hall; subst. simpl in H.
  destruct (forallb _ rows); inversion H. auto.
Qed.

Lemma Permutation_filter_compat {A} (f : A -> bool) (l l' : list A) :
  Permutation l l' -> Permutation (filter f l) (filter f l').
Proof.
  induction 1 as [ | x l l' _ IH | x z l | l l' l'' _ IH1 _ IH2 ]; simpl.
  - constructor.
  - destruct (f x); [ constructor | ]; exact IH.
  - destruct (f x), (f z); try apply Permutation_refl. constructor.
  - exact (Permutation_trans IH1 IH2).
Qed.

Lemma filter_all {A} (f : A -> bool) (l : list A) :
  (forall x, In x l -> f x = true) -> filter f l = l.
Proof.
  induction l as [ | x l IH ]; simpl; intro H; [ reflexivity | ].
  rewrite (H x (or_introl eq_refl)). f_equal.
  apply IH. intros z Hz. apply H. right. exact Hz.
Qed.

Lemma filter_none {A} (f : A -> bool) (l : list A) :
  (forall x, In x l -> f x = false) -> filter f l = [].
Proof.
  induction l as [ | x l IH ]; simpl; intro H; [ reflexivity | ].
  rewrite (H x (or_introl eq_refl)).
  apply IH. intros z Hz. apply H. right. exact Hz.
Qed.

Lemma NoDup_app_disjoint {A} (l1 l2 : list A) (x : A) :
  NoDup (l1 ++ l2) -> In x l1 -> In x l2 -> False.
Proof.
  induction l1 as [ | z l1 IH ]; simpl; intros H H1 H2.
  - destruct H1.
  - inversion H as [ | ? ? Hn Hd ]; subst.
    destruct H1 as [-> | H1]; [ | exact (IH Hd H1 H2) ].
    apply Hn, in_or_app. right. exact H2.
Qed.

Lemma filter_mem_app (l1 l2 : list nat) :
  NoDup (l1 ++ l2) ->
  filter (fun s => mem s l1) (l1 ++ l2) = l1 /\
  filter (fun s => mem s l2) (l1 ++ l2) = l2.
Proof.
  intro H. rewrite !filter_app. split.
  - rewrite (filter_all (fun s => mem s l1) l1), (filter_none (fun s => mem s l1) l2).
    + apply app_nil_r.
    + intros x Hx. destruct (mem x l1) eqn:E; [ | reflexivity ].
      apply mem_In in E. exfalso. eapply NoDup_app_disjoint; eassumption.
    + intros x Hx. apply mem_In. exact Hx.
  - rewrite (filter_all (fun s => mem s l2) l2), (filter_none (fun s => mem s l2) l1).
    + reflexivity.
    + intros x Hx. destruct (mem x l2) eqn:E; [ | reflexivity ].
      apply mem_In in E. exfalso. eapply NoDup_app_disjoint; eassumption.
    + intros x Hx. apply mem_In. exact Hx.
Qed.

Lemma filter_mem_firstn_skipn (l : list nat) (i : nat) :
  NoDup l ->
  filter (fun s => mem s (firstn i l)) l = firstn i l /\
  filter (fun s => mem s (skipn i l)) l = skipn i l.
Proof.
  intro H. rewrite <- (firstn_skipn i l) in H.
  destruct (@filter_mem_app _ _ H) as (E1 & E2).
  rewrite (firstn_skipn i l) in E1, E2. split; assumption.
Qed.

Lemma shape1_permutation (rows : list (list nat)) (active : list nat) (m : nat) :
  shape1 rows = Ok m ->
  Forall (fun r => Permutation r active) rows ->
  m = length active.
Proof.
  intros H Hall. destruct rows as [ | r rows ]; [ discriminate | ].
  inversion Hall as [ | ? ? Hr _ ]; subst. simpl in H.
  destruct (forallb _ rows); inversion H.
  apply Permutation_length. exact Hr.
Qed.

(** The sort indices handed to a child list the child's rows. *)
Lemma child_sort_indices (n : nat) (active : list nat) (sidx : list (list nat))
    (row idx : list nat) (act : list bool) (s1 : list (list nat)) :
  sort_indices_consistent n active sidx ->
  Permutation row active ->
  NoDup idx ->
  incl idx row ->
  filter (fun s => mem s idx) row = idx ->
  put_const (repeat false n) idx true = Ok act ->
  select_active_all act sidx = Ok s1 ->
  sort_indices_consistent n idx s1.
Proof.
  intros (Nd & Hb & Hperm) Hrow Nidx Hincl Hfilter Hact Hsel.
  assert (Brow : Forall (fun i => i < n) row).
  { apply Forall_forall. intros x Hx.
    apply (proj1 (Forall_forall _ _) Hb).
    apply (Permutation_in _ Hrow). exact Hx. }
  assert (Bidx : Forall (fun i => i < n) idx).
  { apply Forall_forall. intros x Hx.
    apply (proj1 (Forall_forall _ _) Brow). apply Hincl. exact Hx. }
  destruct (active_mask Bidx Hact) as (Lact & Hmask).
  rewrite select_active_all_filter in Hsel.
  - inversion Hsel; subst s1. split; [ exact Nidx | ]. split; [ exact Bidx | ].
    apply Forall_forall. intros r' Hr'. apply in_map_iff in Hr'.
    destruct Hr' as (r & <- & Hr).
    assert (Pr : Permutation r active)
      by (apply (proj1 (Forall_forall _ _) Hperm); exact Hr).
    rewrite (filter_ext_in (fun s => nth s act false) (fun s => mem s idx)).
    + apply Permutation_trans with (filter (fun s => mem s idx) row);
        [ | rewrite Hfilter; apply Permutation_refl ].
      apply Permutation_filter_compat.
      apply Permutation_trans with active; [ exact Pr | ].
      apply Permutation_sym. exact Hrow.
    + intros x Hx. apply Hmask.
      apply (proj1 (Forall_forall _ _) Hb).
      apply (Permutation_in _ Pr). exact Hx.
  - rewrite Lact. apply Forall_forall. intros r Hr.
    apply Forall_forall. intros x Hx.
    apply (proj1 (Forall_forall _ _) Hb).
    apply (Permutation_in x (proj1 (Forall_forall _ _) Hperm r Hr)). exact Hx.
Qed.

Section NData.

Context {F : ModelFamily}.
Variable argsort : list Q -> list nat.

(** After a fit of a node in leaf state on consistent sort indices, the
    node's [n_data] is the number of its active rows and [n_data] adds up
    over the tree. *)
Lemma _fit_n_data fuel :
  forall (self : node Dist) X y delta names sidx0 sidx active t,
  active_sort_indices argsort X sidx0 = Ok sidx ->
  sort_indices_consistent (nrows X) active sidx ->
  (sidx0 = None -> length active = nrows X) ->
  leaf_state self ->
  _fit argsort fuel self X y delta names sidx0 = Ok t ->
  n_data t = Some (length active) /\ n_data_adds_up t.
Proof.
  induction fuel as [ | fuel IH ];
    intros self X y delta names sidx0 sidx active t Hs Hcons Hroot Hleaf H.
  - discriminate H.
  - apply _fit_inv in H.
    destruct H as (n & sidx' & row0 & y0 & b & i & d & Hn & Hs' & Hr0 & _ & _ & Hcase).
    rewrite Hs in Hs'. inversion Hs'; subst sidx'. clear Hs'.
    assert (En : n = length active).
    { destruct sidx0 as [s | ].
      - simpl in Hs. inversion Hs; subst s.
        apply (shape1_permutation Hn). apply Hcons.
      - inversion Hn. symmetry. apply Hroot. reflexivity. }
    subst n.
    destruct Hcase as [(_ & ->) | (Hi & Hsplit)].
    + split; [ reflexivity | ].
      apply adds_up_leaf. apply Hleaf.
    + destruct Hsplit as (row & a1 & a2 & s1 & s2 & n1 & n2 & y1 & y2 & name
                          & l1 & f2 & x1 & x2 & c1 & c2 & Hsplit).
      destruct Hsplit as (Hrow & Ha1 & Ha2 & Hs1 & Hs2 & Hn1 & Hn2 & _ & _ & _
                          & _ & _ & _ & _ & Hc1 & Hc2 & ->).
      set (k := Z.to_nat i) in *.
      assert (Prow : Permutation row active).
      { destruct Hcons as (_ & _ & Hperm).
        apply (proj1 (Forall_forall _ _) Hperm).
        apply nth_error_In with (Z.to_nat d). exact Hrow. }
      assert (Nrow : NoDup row).
      { apply (Permutation_NoDup (Permutation_sym Prow)). apply Hcons. }
      destruct (filter_mem_firstn_skipn k Nrow) as (F1 & F2).
      assert (N12 : NoDup (firstn k row ++ skipn k row))
        by (rewrite firstn_skipn; exact Nrow).
      assert (C1 : sort_indices_consistent (nrows X) (firstn k row) s1).
      { apply (@child_sort_indices (nrows X) active sidx row (firstn k row) a1 s1);
          auto.
        - apply (NoDup_app_remove_r _ _ N12).
        - intros x Hx. rewrite <- (firstn_skipn k row).
          apply in_or_app. left. exact Hx. }
      assert (C2 : sort_indices_consistent (nrows X) (skipn k row) s2).
      { apply (@child_sort_indices (nrows X) active sidx row (skipn k row) a2 s2);
          auto.
        - apply (NoDup_app_remove_l _ _ N12).
        - intros x Hx. rewrite <- (firstn_skipn k row).
          apply in_or_app. right. exact Hx. }
      assert (E1 : n1 = length (firstn k row))
        by (apply (shape1_permutation Hn1); apply C1).
      assert (E2 : n2 = length (skipn k row))
        by (apply (shape1_permutation Hn2); apply C2).
      assert (W : forall s n' y' act c,
                 sort_indices_consistent (nrows X) act s ->
                 n' = length act ->
                 fit_child argsort fuel self X y delta names s n' y' = Ok c ->
                 n_data c = Some n' /\ n_data_adds_up c).
      { intros s n' y' act c Hc En' Hfit. unfold fit_child in Hfit.
        destruct ((1 <? n') && (1 <? length (np_unique y'))).
        - subst n'.
          eapply (IH _ X y delta names (Some s) s act c);
            [ reflexivity | exact Hc | discriminate
            | apply new_node_leaf_state | exact Hfit ].
        - inversion Hfit. split; [ reflexivity | ].
          apply adds_up_leaf. reflexivity. }
      destruct (W _ _ _ _ _ C1 E1 Hc1) as (D1 & U1).
      destruct (W _ _ _ _ _ C2 E2 Hc2) as (D2 & U2).
      split; [ reflexivity | ].
      eapply adds_up_split with (c1 := c1) (c2 := c2) (n1 := n1) (n2 := n2);
        try reflexivity; try assumption.
      simpl. f_equal.
      rewrite <- (Permutation_length Prow).
      rewrite <- (firstn_skipn k row) at 1.
      rewrite length_app. congruence.
Qed.

Lemma initial_sort_indices_consistent (X : ndarray) (dims : list nat)
    (sidx : list (list nat)) :
  argsort_permutes argsort ->
  initial_sort_indices argsort X dims = Ok sidx ->
  sort_indices_consistent (nrows X) (seq 0 (nrows X)) sidx.
Proof.
  intros Hperm H.
  split; [ apply seq_NoDup | ].
  split; [ apply Forall_forall; intros i Hi; apply in_seq in Hi; lia | ].
  revert sidx H. induction dims as [ | dim dims IH ]; intros sidx H; simpl in H.
  - inversion H. constructor.
  - bind_inv_all. inversion H; subst sidx.
    constructor; [ | apply IH; reflexivity ].
    unfold column in E. bind_inv_all. inversion E; subst a.
    specialize (Hperm (map (fun i => data X i a1) (seq 0 (nrows X)))).
    rewrite length_map, length_seq in Hperm. exact Hperm.
Qed.

(** Pruning keeps [n_data] adding up. *)
Lemma _prune_n_data d fuel :
  forall (self t : node Dist),
  _prune fuel self = Ok t ->
  well_formed d self ->
  n_data_adds_up self ->
  n_data_adds_up t.
Proof.
  induction fuel as [ | fuel IH ]; intros self t H W U.
  - discriminate H.
  - inversion W as [ ? Hp (Hsv & Hk1 & Hk2)
                   | ? sv c1 c2 ns b Hp Hsv Hc1 Hc2 Hdim Hns Hb Hgain W1 W2 ]; subst.
    + rewrite _prune_eq, (is_leaf_fitted _ Hp), Hsv in H.
      inversion H; subst. exact U.
    + pose proof H as Hinv. apply _prune_inv in Hinv; [ | exact Hp | congruence ].
      destruct Hinv as (k1 & k2 & self' & Ek1 & Ek2 & Hself' & Htail).
      rewrite Hc1 in Ek1. rewrite Hc2 in Ek2.
      inversion Ek1; inversion Ek2; subst k1 k2.
      inversion U as [ ? Hsv' | ? sv' k1 k2 n1 n2 _ Hk1 Hk2 Hn1 Hn2 Hn U1 U2 ]; subst;
        [ congruence | ].
      rewrite Hc1 in Hk1. rewrite Hc2 in Hk2.
      inversion Hk1; inversion Hk2; subst k1 k2.
      assert (R : well_formed d self' /\ n_data_adds_up self').
      { destruct Hself' as [-> | [-> | (c1' & c2' & P1 & P2 & ->)]].
        - split; [ | apply adds_up_leaf; reflexivity ].
          apply wf_leaf; [ exact Hp | repeat split ].
        - auto.
        - destruct (@_prune_well_formed _ d fuel c1 c1' P1 W1) as (W1' & _ & N1 & _).
          destruct (@_prune_well_formed _ d fuel c2 c2' P2 W2) as (W2' & _ & N2 & _).
          split.
          + apply wf_split with (sv := sv) (c1 := c1') (c2 := c2')
                                (no_split := ns) (best := b);
              try assumption; try reflexivity.
          + apply adds_up_split with (sv := sv) (c1 := c1') (c2 := c2')
                                     (n1 := n1) (n2 := n2);
              try assumption; try reflexivity; try congruence.
            * eapply IH; eassumption.
            * eapply IH; eassumption. }
      destruct R as (W' & U').
      destruct Htail as [Htail | (-> & _)].
      * eapply IH; eassumption.
      * exact U'.
Qed.

End NData.

(** ** [n_data] over fitted trees *)

Section NDataFitted.

Context {F : ModelFamily}.
Variable argsort : list Q -> list nat.
Variable recursion_limit : nat.

(** X22 (n_data adds up after a first fit): when [argsort] returns a
    rearrangement of the row numbers, every split node of the tree that
    [fit] returns on a freshly constructed estimator has
    [n_data = child1.n_data + child2.n_data], and pruning a tree in which
    this holds gives a tree in which it holds. *)
Theorem n_data_adds_up_in_fitted_trees :
  argsort_permutes argsort ->
  (forall t : node Dist,
     fitted_tree argsort recursion_limit t -> n_data_adds_up t) /\
  (forall d fuel (t t' : node Dist),
     well_formed d t -> n_data_adds_up t -> _prune fuel t = Ok t' ->
     n_data_adds_up t').
Proof.
  intro Hperm. split.
  - intros t (pp & prior & lvl & X & y & delta & pr & names & H).
    unfold fit in H. bind_inv_all.
    destruct (Qltb delta 0 || Qltb 1 delta); [ discriminate | ].
    bind_inv_all. destruct a1 as [M fnames].
    destruct (length a =? 1); [ discriminate | ].
    destruct (negb (nrows M =? length a)); [ discriminate | ].
    bind_inv_all.
    assert (U : n_data_adds_up a1).
    { destruct recursion_limit as [ | fuel ]; [ discriminate | ].
      pose proof E2 as Hinv. apply _fit_inv in Hinv.
      destruct Hinv as (n & sidx & _ & _ & _ & _ & _ & _ & Hs & _).
      eapply (@_fit_n_data _ argsort (S fuel) _ M a delta fnames None sidx
                (seq 0 (nrows M)) a1).
      - exact Hs.
      - apply (@initial_sort_indices_consistent argsort M (seq 0 (ncols M)));
          assumption.
      - intros _. apply length_seq.
      - apply new_node_leaf_state.
      - exact E2. }
    destruct pr.
    + apply _fit_well_formed in E2; [ | apply new_node_leaf_state ].
      destruct E2 as (W & _).
      eapply _prune_n_data; eassumption.
    + inversion H; subst. exact U.
  - intros d fuel t t' W U H. eapply _prune_n_data; eassumption.
Qed.

End NDataFitted.

(** ** The concrete [argsort] *)

Lemma insert_by_permutation (key : nat -> Q) (i : nat) (l : list nat) :
  Permutation (insert_by key i l) (i :: l).
Proof.
  induction l as [ | j l IH ]; simpl.
  - apply Permutation_refl.
  - destruct (Qltb (key j) (key i) || Qeq_bool (key j) (key i)).
    + apply Permutation_trans with (j :: i :: l).
      * constructor. exact IH.
      * constructor.
    + apply Permutation_refl.
Qed.

Lemma stable_argsort_permutes : argsort_permutes stable_argsort.
Proof.
  intro a. unfold stable_argsort.
  generalize (seq 0 (length a)). intro l.
  induction l as [ | i l IH ]; simpl.
  - constructor.
  - apply Permutation_trans with (i :: fold_right (insert_by (fun i => nth i a 0%Q)) [] l).
    + apply insert_by_permutation.
    + constructor. exact IH.
Qed.

(** ** The engine on concrete trees *)

Lemma demo_tree_fitted : fitted_tree stable_argsort 100 demo_tree.
Proof.
  exists (9 # 10)%Q, [3; 1]%Q, 0, (Array2 demo_X), demo_y, 0%Q, false, None.
  vm_compute. reflexivity.
Qed.

Lemma demo_pruned_fitted : fitted_tree stable_argsort 100 demo_pruned.
Proof.
  exists (9 # 10)%Q, [3; 1]%Q, 0, (Array2 demo_X), demo_y, 0%Q, true, None.
  vm_compute. reflexivity.
Qed.

(** C3 (pruning): with a prior that favours class 0, the fitted tree
    predicts class 0 on all five training rows; both children of the root
    predict class 0, so pruning merges them, and the merged leaf, whose own
    posterior favours class 1, predicts class 1 on all five rows. *)
Theorem pruning_changes_predictions :
  demo_fit false = Ok demo_tree /\
  prune 100 demo_tree = Ok demo_pruned /\
  demo_fit true = Ok demo_pruned /\
  predict demo_tree (Array2 demo_X) = Ok (Qs [0; 0; 0; 0; 0]%Z) /\
  predict demo_pruned (Array2 demo_X) = Ok (Qs [1; 1; 1; 1; 1]%Z).
Proof.
  repeat split; vm_compute; reflexivity.
Qed.

(** C7 (split value): on two [uint8] rows with feature values 200 and 250
    the sum of the two values wraps around to 194, so the recorded split
    value is 97; in training row 0 (value 200) went to child1 and row 1
    (value 250) to child2, and 97 does not lie between 200 and 250: both
    rows are routed to child2 by [predict]. *)
Theorem split_value_wraps_on_uint8 :
  bytes_fit = Ok bytes_tree /\
  split_dimension bytes_tree = 0%Z /\
  (exists sv c1 c2,
     split_value bytes_tree = Some sv /\ (sv == 97)%Q /\
     child1 bytes_tree = Some c1 /\ n_data c1 = Some 1 /\
     child2 bytes_tree = Some c2 /\ n_data c2 = Some 1 /\
     ~ (data bytes_X 0 0 < sv)%Q) /\
  (data bytes_X 0 0 == 200)%Q /\
  (data bytes_X 1 0 == 250)%Q /\
  scalar_add uint8 (data bytes_X 0 0) (data bytes_X 1 0) = 194%Q /\
  _compute_child1_and_child2_indices bytes_tree bytes_X = Ok ([], [0; 1]).
Proof.
  split; [ vm_compute; reflexivity | ].
  split; [ reflexivity | ].
  split.
  - do 3 eexists.
    split; [ reflexivity | ]. split; [ reflexivity | ].
    split; [ reflexivity | ]. split; [ reflexivity | ].
    split; [ reflexivity | ]. split; [ reflexivity | ].
    vm_compute. discriminate.
  - repeat split.
Qed.

Lemma monotonic_acceptance_witness :
  _fit stable_argsort 100 (Categorical.root [3; 1]%Q) demo_X demo_y 0
    ["x0"%string] None = Ok demo_tree /\
  exists sidx row0 y0 cands,
    active_sort_indices stable_argsort demo_X None = Ok sidx /\
    nth_error sidx 0 = Some row0 /\
    take demo_y row0 = Ok y0 /\
    all_candidates (Categorical.root [3; 1]%Q) demo_X demo_y (ncols demo_X)
      sidx (seq 0 (ncols demo_X)) = Ok cands /\
    ((exists c, In c cands /\ (no_split_of (Categorical.root [3; 1]%Q) y0 < c)%Q) ->
     exists best sv c1 c2,
       In best cands /\
       (forall c, In c cands -> (c <= best)%Q) /\
       (no_split_of (Categorical.root [3; 1]%Q) y0 < best)%Q /\
       log_p_data_no_split demo_tree
         = Some (no_split_of (Categorical.root [3; 1]%Q) y0) /\
       best_log_p_data_split demo_tree = Some best /\
       split_value demo_tree = Some sv /\
       child1 demo_tree = Some c1 /\
       child2 demo_tree = Some c2 /\
       (0 <= split_dimension demo_tree < Z.of_nat (ncols demo_X))%Z) /\
    (~ (exists c, In c cands /\ (no_split_of (Categorical.root [3; 1]%Q) y0 < c)%Q) ->
     split_value demo_tree = split_value (Categorical.root [3; 1]%Q) /\
     child1 demo_tree = child1 (Categorical.root [3; 1]%Q) /\
     child2 demo_tree = child2 (Categorical.root [3; 1]%Q) /\
     split_dimension demo_tree = split_dimension (Categorical.root [3; 1]%Q) /\
     split_feature_name demo_tree
       = split_feature_name (Categorical.root [3; 1]%Q) /\
     log_p_data_no_split demo_tree
       = log_p_data_no_split (Categorical.root [3; 1]%Q) /\
     best_log_p_data_split demo_tree
       = best_log_p_data_split (Categorical.root [3; 1]%Q)) /\
    (leaf_state (Categorical.root [3; 1]%Q) ->
     (split_value demo_tree <> None <->
      exists c, In c cands /\ (no_split_of (Categorical.root [3; 1]%Q) y0 < c)%Q) /\
     (~ (exists c, In c cands /\ (no_split_of (Categorical.root [3; 1]%Q) y0 < c)%Q) ->
      leaf_state demo_tree)).
Proof.
  split.
  - vm_compute. reflexivity.
  - apply (@monotonic_acceptance Categorical.family stable_argsort 100
             (Categorical.root [3; 1]%Q) demo_X demo_y 0%Q ["x0"%string] None
             demo_tree).
    vm_compute. reflexivity.
Defined.

Lemma not_fitted_queries_raise_witness :
  posterior (Categorical.root [3; 1]%Q) = None /\
  feature_importance (Categorical.root [3; 1]%Q) = Raise NotFittedError /\
  predict (Categorical.root [3; 1]%Q) (Array2 demo_X) = Raise NotFittedError /\
  prediction_paths (Categorical.root [3; 1]%Q) (Array2 demo_X)
    = Raise NotFittedError.
Proof.
  split; [ reflexivity | ].
  destruct (@not_fitted_queries_raise Categorical.family
              (Categorical.root [3; 1]%Q) eq_refl) as (H1 & H2).
  split; [ exact H1 | ].
  destruct (H2 (Array2 demo_X) demo_X ["x0"%string] eq_refl) as (_ & H3 & H4).
  split; assumption.
Defined.

Lemma feature_importance_normalized_witness :
  fitted_tree stable_argsort 100 demo_tree /\
  exists d,
    n_dim demo_tree = Some d /\
    (split_value demo_tree <> None ->
     exists v,
       feature_importance demo_tree = Ok (map finite v) /\
       length v = d /\
       Forall (fun x => (0 <= x)%Q) v /\
       (Qsum v == 1)%Q) /\
    (split_value demo_tree = None ->
     feature_importance demo_tree = Ok (repeat nan d)).
Proof.
  split.
  - exists (9 # 10)%Q, [3; 1]%Q, 0, (Array2 demo_X), demo_y, 0%Q, false, None.
    vm_compute. reflexivity.
  - apply (@feature_importance_normalized Categorical.family stable_argsort 100).
    exists (9 # 10)%Q, [3; 1]%Q, 0, (Array2 demo_X), demo_y, 0%Q, false, None.
    vm_compute. reflexivity.
Defined.

Lemma n_data_adds_up_witness :
  argsort_permutes stable_argsort /\
  fitted_tree stable_argsort 100 demo_tree /\
  n_data_adds_up demo_tree.
Proof.
  split; [ exact stable_argsort_permutes | ].
  split.
  - exists (9 # 10)%Q, [3; 1]%Q, 0, (Array2 demo_X), demo_y, 0%Q, false, None.
    vm_compute. reflexivity.
  - apply (proj1 (@n_data_adds_up_in_fitted_trees Categorical.family
                    stable_argsort 100 stable_argsort_permutes)).
    exists (9 # 10)%Q, [3; 1]%Q, 0, (Array2 demo_X), demo_y, 0%Q, false, None.
    vm_compute. reflexivity.
Defined.

Lemma single_leaf_broadcast_witness :
  fitted_tree stable_argsort 100 demo_pruned /\
  split_value demo_pruned = None /\
  _normalize_data_and_feature_names (Array2 two_rows) None
    = Ok (two_rows, ["x0"%string]) /\
  n_dim demo_pruned = Some (ncols two_rows) /\
  exists p,
    posterior demo_pruned = Some p /\
    predict demo_pruned (Array2 two_rows) = Ok (repeat (predict_leaf p) 2).
Proof.
  assert (Hfit : fitted_tree stable_argsort 100 demo_pruned).
  { exists (9 # 10)%Q, [3; 1]%Q, 0, (Array2 demo_X), demo_y, 0%Q, true, None.
    vm_compute. reflexivity. }
  split; [ exact Hfit | ]. split; [ reflexivity | ].
  split; [ reflexivity | ]. split; [ reflexivity | ].
  destruct (@single_leaf_broadcast Categorical.family stable_argsort 100
              demo_pruned (Array2 two_rows) two_rows ["x0"%string]
              Hfit eq_refl eq_refl eq_refl) as (p & Hp & E & _).
  exists p. split; assumption.
Defined.

Lemma one_dimensional_input_witness :
  fitted_tree stable_argsort 100 demo_tree /\
  n_dim demo_tree = Some (length [(7 # 2)%Q]) /\
  exists v, predict demo_tree (Array1 float64 [(7 # 2)%Q]) = Ok [v].
Proof.
  assert (Hfit : fitted_tree stable_argsort 100 demo_tree).
  { exists (9 # 10)%Q, [3; 1]%Q, 0, (Array2 demo_X), demo_y, 0%Q, false, None.
    vm_compute. reflexivity. }
  split; [ exact Hfit | ]. split; [ reflexivity | ].
  destruct (@one_dimensional_input_is_one_sample Categorical.family
              stable_argsort 100 float64 [(7 # 2)%Q] None)
    as (M & names & _ & _ & _ & _ & H).
  exact (H demo_tree Hfit eq_refl).
Defined.

(** ** A second pruning *)

Section PruneTwice.

Context {F : ModelFamily}.

Lemma count_leaves_eq (t : node Dist) :
  count_leaves t =
    match split_value t with
    | None => 1
    | Some _ =>
        match child1 t with Some c => count_leaves c | None => 0 end
        + match child2 t with Some c => count_leaves c | None => 0 end
    end.
Proof.
  destruct t; reflexivity.
Qed.

Lemma _update_n_leaves_eq (self : node Dist) (n_leaves : nat) :
  _update_n_leaves self n_leaves =
    (leaf <- is_leaf self ;;
     if (leaf : bool) then Ok (n_leaves + 1)
     else
       match child1 self with
       | None => Ok n_leaves
       | Some c1 =>
           n_leaves <- _update_n_leaves c1 n_leaves ;;
           match child2 self with
           | None => Raise AttributeError
           | Some c2 => _update_n_leaves c2 n_leaves
           end
       end).
Proof.
  destruct self; reflexivity.
Qed.

Lemma _update_n_leaves_counts d (t : node Dist) :
  well_formed d t ->
  forall n, _update_n_leaves t n = Ok (n + count_leaves t).
Proof.
  induction 1 as [ t Hp (Hsv & _ & _)
                 | t sv c1 c2 ns b Hp Hsv Hc1 Hc2 _ _ _ _ W1 IH1 W2 IH2 ];
    intro n.
  - rewrite _update_n_leaves_eq, (is_leaf_fitted _ Hp), count_leaves_eq, Hsv.
    reflexivity.
  - rewrite _update_n_leaves_eq, (is_leaf_fitted _ Hp), count_leaves_eq, Hsv.
    rewrite Hc1, Hc2, IH1, IH2. f_equal. lia.
Qed.

Lemma count_leaves_positive d (t : node Dist) :
  well_formed d t -> 0 < count_leaves t.
Proof.
  induction 1 as [ t Hp (Hsv & _ & _)
                 | t sv c1 c2 ns b Hp Hsv Hc1 Hc2 _ _ _ _ W1 IH1 W2 IH2 ];
    rewrite count_leaves_eq, Hsv.
  - lia.
  - rewrite Hc1, Hc2. lia.
Qed.

Lemma set_children_same (t : node Dist) (c1 c2 : node Dist) :
  child1 t = Some c1 -> child2 t = Some c2 ->
  set_children t (Some c1) (Some c2) = t.
Proof.
  destruct t; simpl. intros -> ->. reflexivity.
Qed.

(** A pruning either returns the tree as it is or removes leaves. *)
Lemma _prune_same_or_fewer d fuel :
  forall (self t : node Dist),
  _prune fuel self = Ok t ->
  well_formed d self ->
  t = self \/ count_leaves t < count_leaves self.
Proof.
  induction fuel as [ | fuel IH ]; intros self t H W.
  - discriminate H.
  - inversion W as [ ? Hp (Hsv & Hk1 & Hk2)
                   | ? sv c1 c2 ns b Hp Hsv Hc1 Hc2 Hdim Hns Hb Hgain W1 W2 ]; subst.
    + rewrite _prune_eq, (is_leaf_fitted _ Hp), Hsv in H.
      inversion H. left. reflexivity.
    + pose proof H as Hinv. apply _prune_inv in Hinv; [ | exact Hp | congruence ].
      destruct Hinv as (k1 & k2 & self' & Ek1 & Ek2 & Hself' & Htail).
      rewrite Hc1 in Ek1. rewrite Hc2 in Ek2.
      inversion Ek1; inversion Ek2; subst k1 k2.
      assert (P1 := count_leaves_positive W1).
      assert (P2 := count_leaves_positive W2).
      assert (Cself : count_leaves self = count_leaves c1 + count_leaves c2)
        by (rewrite count_leaves_eq, Hsv, Hc1, Hc2; reflexivity).
      assert (R : well_formed d self' /\
                  (self' = self \/ count_leaves self' < count_leaves self)).
      { destruct Hself' as [-> | [-> | (c1' & c2' & Q1 & Q2 & ->)]].
        - split; [ apply wf_leaf; [ exact Hp | repeat split ] | ].
          right. rewrite Cself. simpl. lia.
        - auto.
        - destruct (@_prune_well_formed _ d fuel c1 c1' Q1 W1) as (W1' & _).
          destruct (@_prune_well_formed _ d fuel c2 c2' Q2 W2) as (W2' & _).
          split.
          + apply wf_split with (sv := sv) (c1 := c1') (c2 := c2')
                                (no_split := ns) (best := b);
              try assumption; try reflexivity.
          + destruct (IH _ _ Q1 W1) as [-> | L1];
              destruct (IH _ _ Q2 W2) as [-> | L2].
            * left. apply set_children_same; assumption.
            * right. rewrite count_leaves_eq. simpl. rewrite Hsv. lia.
            * right. rewrite count_leaves_eq. simpl. rewrite Hsv. lia.
            * right. rewrite count_leaves_eq. simpl. rewrite Hsv. lia. }
      destruct R as (W' & [-> | Lt]).
      * destruct Htail as [Htail | (-> & _)]; [ apply (IH _ _ Htail W') | ].
        left. reflexivity.
      * right. destruct Htail as [Htail | (-> & _)]; [ | exact Lt ].
        destruct (IH _ _ Htail W') as [-> | Lt']; lia.
Qed.

(** More recursion depth does not change the result of a pruning. *)
Lemma _prune_more_fuel fuel :
  forall (self t : node Dist),
  _prune fuel self = Ok t -> _prune (S fuel) self = Ok t.
Proof.
  induction fuel as [ | fuel IH ]; intros self t H.
  - discriminate H.
  - rewrite _prune_eq in H. rewrite (_prune_eq (S fuel)).
    destruct (is_leaf self) as [[ | ] | ]; [ exact H | | discriminate H ].
    destruct (get_depth self) as [ds | ]; [ | discriminate H ].
    destruct (get_n_leaves self) as [ns | ]; [ | discriminate H ].
    destruct (of_option (child1 self) AttributeError) as [c1 | ];
      [ | discriminate H ].
    destruct (is_leaf c1) as [leaf1 | ]; [ | discriminate H ].
    match type of H with
    | match ?e with Ok _ => _ | Raise _ => _ end = Ok _ =>
        destruct e as [both | ]; [ | discriminate H ]
    end.
    match type of H with
    | match ?e with Ok _ => _ | Raise _ => _ end = Ok _ =>
        destruct e as [self' | ] eqn:Epass; [ | discriminate H ]
    end.
    destruct both; cbv match in Epass |- *.
    + rewrite Epass.
      destruct (get_depth self') as [de | ]; [ | discriminate H ].
      destruct (get_n_leaves self') as [ne | ]; [ | discriminate H ].
      destruct (negb (ds =? de) || negb (ns =? ne)); [ apply IH | ]; exact H.
    + destruct (_prune fuel c1) as [c1' | ] eqn:E1; [ | discriminate Epass ].
      rewrite (IH _ _ E1).
      destruct (of_option (child2 self) AttributeError) as [c2 | ];
        [ | discriminate Epass ].
      destruct (_prune fuel c2) as [c2' | ] eqn:E2; [ | discriminate Epass ].
      rewrite (IH _ _ E2). inversion Epass; subst self'. cbv match.
      destruct (get_depth (set_children self (Some c1') (Some c2'))) as [de | ]; [ | discriminate H ].
      destruct (get_n_leaves (set_children self (Some c1') (Some c2')))
        as [ne | ]; [ | discriminate H ].
      destruct (negb (ds =? de) || negb (ns =? ne)); [ apply IH | ]; exact H.
Qed.

(** Pruning a pruned tree returns it as it is. *)
Lemma _prune_twice d fuel :
  forall (self t : node Dist),
  _prune fuel self = Ok t ->
  well_formed d self ->
  _prune fuel t = Ok t.
Proof.
  induction fuel as [ | fuel IH ]; intros self t H W.
  - discriminate H.
  - inversion W as [ ? Hp (Hsv & Hk1 & Hk2)
                   | ? sv c1 c2 ns b Hp Hsv Hc1 Hc2 Hdim Hns Hb Hgain W1 W2 ]; subst.
    + pose proof H as H'.
      rewrite _prune_eq, (is_leaf_fitted _ Hp), Hsv in H'.
      inversion H'; subst. exact H.
    + pose proof H as Hinv. apply _prune_inv in Hinv; [ | exact Hp | congruence ].
      destruct Hinv as (k1 & k2 & self' & Ek1 & Ek2 & Hself' & Htail).
      rewrite Hc1 in Ek1. rewrite Hc2 in Ek2.
      inversion Ek1; inversion Ek2; subst k1 k2.
      assert (P1 := count_leaves_positive W1).
      assert (P2 := count_leaves_positive W2).
      assert (Cself : count_leaves self = count_leaves c1 + count_leaves c2)
        by (rewrite count_leaves_eq, Hsv, Hc1, Hc2; reflexivity).
      assert (R : well_formed d self' /\
                  (self' = self \/ count_leaves self' < count_leaves self)).
      { destruct Hself' as [-> | [-> | (c1' & c2' & Q1 & Q2 & ->)]].
        - split; [ apply wf_leaf; [ exact Hp | repeat split ] | ].
          right. rewrite Cself. simpl. lia.
        - auto.
        - destruct (@_prune_well_formed _ d fuel c1 c1' Q1 W1) as (W1' & _).
          destruct (@_prune_well_formed _ d fuel c2 c2' Q2 W2) as (W2' & _).
          split.
          + apply wf_split with (sv := sv) (c1 := c1') (c2 := c2')
                                (no_split := ns) (best := b);
              try assumption; try reflexivity.
          + destruct (@_prune_same_or_fewer d fuel c1 c1' Q1 W1) as [-> | L1];
              destruct (@_prune_same_or_fewer d fuel c2 c2' Q2 W2) as [-> | L2].
            * left. apply set_children_same; assumption.
            * right. rewrite count_leaves_eq. simpl. rewrite Hsv. lia.
            * right. rewrite count_leaves_eq. simpl. rewrite Hsv. lia.
            * right. rewrite count_leaves_eq. simpl. rewrite Hsv. lia. }
      destruct R as (W' & Same).
      destruct Htail as [Htail | (-> & Hleaves)].
      * apply _prune_more_fuel. apply (IH _ _ Htail W').
      * destruct Same as [-> | Lt]; [ exact H | exfalso ].
        unfold get_n_leaves in Hleaves.
        rewrite (_update_n_leaves_counts W'), (_update_n_leaves_counts W) in Hleaves.
        inversion Hleaves. lia.
Qed.

(** X16 (pruning twice), the part of C3 that holds: [prune] on a tree that
    [prune] returned returns that tree unchanged. *)
Lemma prune_idempotent d recursion_limit (t t' : node Dist) :
  well_formed d t ->
  prune recursion_limit t = Ok t' ->
  prune recursion_limit t' = Ok t'.
Proof.
  intros W H. unfold prune in *. eapply _prune_twice; eassumption.
Qed.

End PruneTwice.

(** ** Split values between the two sides *)

Lemma StronglySorted_app_inv {A} (R : A -> A -> Prop) (l1 l2 : list A) :
  StronglySorted R (l1 ++ l2) ->
  StronglySorted R l1 /\ StronglySorted R l2 /\
  forall a b, In a l1 -> In b l2 -> R a b.
Proof.
  induction l1 as [ | x l1 IH ]; simpl; intro H.
  - split; [ constructor | ]. split; [ exact H | ]. intros a b [].
  - inversion H as [ | ? ? Hs Hall ]; subst.
    destruct (IH Hs) as (S1 & S2 & Hab).
    split.
    + constructor; [ exact S1 | ].
      apply Forall_forall. intros z Hz.
      apply (proj1 (Forall_forall _ _) Hall). apply in_or_app. left. exact Hz.
    + split; [ exact S2 | ].
      intros a b [<- | Ha] Hb.
      * apply (proj1 (Forall_forall _ _) Hall). apply in_or_app. right. exact Hb.
      * apply Hab; assumption.
Qed.

Lemma StronglySorted_filter {A} (R : A -> A -> Prop) (f : A -> bool) (l : list A) :
  StronglySorted R l -> StronglySorted R (filter f l).
Proof.
  induction 1 as [ | x l Hs IH Hall ]; simpl.
  - constructor.
  - destruct (f x); [ | exact IH ].
    constructor; [ exact IH | ].
    apply Forall_forall. intros z Hz. apply filter_In in Hz.
    apply (proj1 (Forall_forall _ _) Hall). apply Hz.
Qed.

Lemma StronglySorted_map_inv {A B} (R : B -> B -> Prop) (f : A -> B) (l : list A) :
  StronglySorted R (map f l) -> StronglySorted (fun a b => R (f a) (f b)) l.
Proof.
  induction l as [ | x l IH ]; simpl; intro H.
  - constructor.
  - inversion H as [ | ? ? Hs Hall ]; subst.
    constructor; [ apply IH; exact Hs | ].
    apply Forall_forall. intros z Hz.
    apply (proj1 (Forall_forall _ _) Hall). apply in_map. exact Hz.
Qed.

Lemma StronglySorted_ext_in {A} (R R' : A -> A -> Prop) (l : list A) :
  (forall a b, In a l -> In b l -> R a b -> R' a b) ->
  StronglySorted R l -> StronglySorted R' l.
Proof.
  intros H S. induction S as [ | x l Hs IH Hall ].
  - constructor.
  - constructor.
    + apply IH. intros a b Ha Hb. apply H; right; assumption.
    + apply Forall_forall. intros z Hz. apply H.
      * left. reflexivity.
      * right. exact Hz.
      * apply (proj1 (Forall_forall _ _) Hall). exact Hz.
Qed.

Lemma sorted_last_bounds {A} (R : A -> A -> Prop) (l : list A) (z : A) :
  (forall a, R a a) ->
  StronglySorted R l ->
  nth_error l (length l - 1) = Some z ->
  forall a, In a l -> R a z.
Proof.
  intros Hrefl S. induction S as [ | x l Hs IH Hall ]; intros Hz a Ha.
  - destruct Ha.
  - destruct l as [ | y l ].
    + simpl in Hz. inversion Hz; subst z.
      destruct Ha as [<- | []]. apply Hrefl.
    + assert (Hz' : nth_error (y :: l) (length (y :: l) - 1) = Some z).
      { simpl in Hz. simpl. rewrite Nat.sub_0_r. exact Hz. }
      destruct Ha as [<- | Ha].
      * apply (proj1 (Forall_forall _ _) Hall).
        eapply nth_error_In. exact Hz'.
      * apply IH; assumption.
Qed.

(** In a sorted list cut at [k], the element before the cut bounds the
    first part from above and the element after it bounds the second part
    from below. *)
Lemma sorted_cut {A} (R : A -> A -> Prop) (l : list A) (k : nat) (z w : A) :
  (forall a, R a a) ->
  StronglySorted R l ->
  nth_error (firstn k l) (length (firstn k l) - 1) = Some z ->
  nth_error (skipn k l) 0 = Some w ->
  (forall a, In a (firstn k l) -> R a z) /\
  (forall b, In b (skipn k l) -> R w b) /\
  R z w.
Proof.
  intros Hrefl S Hz Hw.
  rewrite <- (firstn_skipn k l) in S.
  apply StronglySorted_app_inv in S. destruct S as (S1 & S2 & Hab).
  assert (Iz : In z (firstn k l)) by (eapply nth_error_In; exact Hz).
  assert (Iw : In w (skipn k l)) by (eapply nth_error_In; exact Hw).
  split; [ | split ].
  - intros a Ha. apply (sorted_last_bounds Hrefl S1 Hz). exact Ha.
  - intros b Hb.
    destruct (skipn k l) as [ | x l2 ]; [ destruct Hb | ].
    simpl in Hw. inversion Hw; subst x.
    inversion S2 as [ | ? ? _ Hall ]; subst.
    destruct Hb as [<- | Hb]; [ apply Hrefl | ].
    apply (proj1 (Forall_forall _ _) Hall). exact Hb.
  - apply Hab; assumption.
Qed.

Lemma np_diff_length (dt : npdtype) (a : list Q) :
  length (np_diff dt a) = length a - 1.
Proof.
  induction a as [ | x [ | y a ] IH ]; simpl in *; try reflexivity.
  rewrite IH. lia.
Qed.

Lemma np_diff_nth (dt : npdtype) (a : list Q) (m : nat) :
  S m < length a ->
  nth m (np_diff dt a) 0%Q = scalar_sub dt (nth (S m) a 0%Q) (nth m a 0%Q).
Proof.
  revert m. induction a as [ | x [ | y a ] IH ]; intros m Hm; simpl in Hm; try lia.
  destruct m as [ | m ].
  - reflexivity.
  - change (np_diff dt (x :: y :: a)) with (scalar_sub dt y x :: np_diff dt (y :: a)).
    change (nth (S m) (scalar_sub dt y x :: np_diff dt (y :: a)) 0%Q)
      with (nth m (np_diff dt (y :: a)) 0%Q).
    rewrite IH by (simpl; lia). reflexivity.
Qed.

(** A candidate split position of a dimension lies inside the sorted column,
    between two different values. *)
Lemma candidate_split_index (X : ndarray) (row : list nat) (dim k : nat)
    (cidx : list nat) :
  exact_dtype (dtype X) ->
  candidate_split_indices X row dim = Ok cidx ->
  In k cidx ->
  exists m,
    k = S m /\ S m < length row /\ dim < ncols X /\
    ~ (data X (nth (S m) row 0%nat) dim == data X (nth m row 0%nat) dim)%Q.
Proof.
  intros Hexact H Hk. unfold candidate_split_indices, column_at in H.
  destruct (dim <? ncols X) eqn:Hd; [ | discriminate ].
  destruct (forallb _ row); [ | discriminate ].
  inversion H; subst cidx. clear H.
  apply in_map_iff in Hk. destruct Hk as (m & <- & Hm).
  unfold np_where in Hm. apply filter_In in Hm. destruct Hm as (Hm & Hne).
  apply in_seq in Hm. rewrite length_map, np_diff_length, length_map in Hm.
  exists m. split; [ reflexivity | ].
  split; [ lia | ]. split; [ apply Nat.ltb_lt; exact Hd | ].
  assert (Lm : m < length (np_diff (dtype X) (map (fun i => data X i dim) row)))
    by (rewrite np_diff_length, length_map; lia).
  rewrite (nth_indep _ false ((fun d => Qneqb d 0%Q) 0%Q)) in Hne by (rewrite length_map; exact Lm).
  rewrite (map_nth (fun d => Qneqb d 0%Q)) in Hne.
  rewrite np_diff_nth in Hne by (rewrite length_map; lia).
  unfold scalar_sub in Hne. rewrite Hexact in Hne.
  rewrite (nth_indep _ 0%Q ((fun i => data X i dim) 0)) in Hne
    by (rewrite length_map; lia).
  rewrite (nth_indep (map _ row) 0%Q ((fun i => data X i dim) 0)) in Hne
    by (rewrite length_map; lia).
  rewrite !(map_nth (fun i => data X i dim)) in Hne.
  unfold Qneqb in Hne. apply negb_true_iff in Hne.
  intro Heq. rewrite Heq in Hne.
  assert (T : Qeq_bool (data X (nth m row 0%nat) dim - data X (nth m row 0%nat) dim)%Q 0%Q = true).
  { apply Qeq_eq_bool. ring. }
  rewrite T in Hne. discriminate.
Qed.

Lemma compress_In {A} (mask : list bool) (a : list A) (x : A) :
  In x (compress mask a) -> In x a.
Proof.
  revert a. induction mask as [ | m mask IH ]; intros [ | y a ]; simpl; try tauto.
  destruct m; simpl.
  - intros [-> | H]; [ left; reflexivity | right; apply IH; exact H ].
  - intro H. right. apply IH. exact H.
Qed.

Lemma StronglySorted_compress {A} (R : A -> A -> Prop) (mask : list bool)
    (a : list A) :
  StronglySorted R a -> StronglySorted R (compress mask a).
Proof.
  intro S. revert mask. induction S as [ | x a Hs IH Hall ]; intros [ | m mask ]; simpl;
    try constructor.
  destruct m; [ | apply IH ].
  constructor; [ apply IH | ].
  apply Forall_forall. intros z Hz.
  apply (proj1 (Forall_forall _ _) Hall). eapply compress_In. exact Hz.
Qed.

Lemma select_active_all_sorted_from (X : ndarray) (act : list bool)
    (sidx : list (list nat)) :
  forall (off : nat) (s1 : list (list nat)),
  select_active_all act sidx = Ok s1 ->
  (forall d row, nth_error sidx d = Some row ->
                 StronglySorted (column_le X (off + d)) row) ->
  forall d row, nth_error s1 d = Some row ->
                StronglySorted (column_le X (off + d)) row.
Proof.
  induction sidx as [ | si sidx IH ]; intros off s1 H Hs; simpl in H.
  - inversion H. intros d row Hd. destruct d; discriminate.
  - bind_inv_all. inversion H; subst s1.
    intros d row Hd. destruct d as [ | d ]; simpl in Hd.
    + inversion Hd; subst row.
      unfold select_active in E. bind_inv_all. inversion E; subst a.
      apply StronglySorted_compress. apply (Hs 0). reflexivity.
    + replace (off + S d) with (S off + d) by lia.
      apply (IH (S off) a0 eq_refl); [ | exact Hd ].
      intros d' row' Hd'. replace (S off + d') with (off + S d') by lia.
      apply (Hs (S d')). exact Hd'.
Qed.

Lemma select_active_all_sorted (X : ndarray) (act : list bool)
    (sidx s1 : list (list nat)) :
  select_active_all act sidx = Ok s1 ->
  sort_indices_sorted X sidx ->
  sort_indices_sorted X s1.
Proof.
  intros H Hs d row Hd.
  apply (@select_active_all_sorted_from X act sidx 0 s1 H Hs d row Hd).
Qed.

Section SplitValues.

Context {F : ModelFamily}.
Variable argsort : list Q -> list nat.

Lemma search_dim_index (self : node Dist) X y n_dim sidx b0 i0 d0 dim b i d :
  search_dim self X y n_dim sidx (b0, i0, d0) dim = Ok (b, i, d) ->
  (i = i0 /\ d = d0)
  \/ exists row cidx,
       d = Z.of_nat dim /\
       nth_error sidx dim = Some row /\
       candidate_split_indices X row dim = Ok cidx /\
       In (Z.to_nat i) cidx.
Proof.
  unfold search_dim. intro H. bind_inv H. apply of_option_ok in E.
  destruct (length a0 =? 0).
  - inversion H. left. split; reflexivity.
  - bind_inv H. destruct (Qltb b0 a3).
    + bind_inv H. inversion H; subst. right.
      exists a, a0. split; [ reflexivity | ]. split; [ exact E | ].
      split; [ exact E0 | ].
      rewrite Nat2Z.id. apply of_option_ok in E4.
      eapply nth_error_In. exact E4.
    + inversion H. left. split; reflexivity.
Qed.

Lemma search_dims_index (self : node Dist) X y n_dim sidx dims :
  forall b0 i0 d0 b i d,
  search_dims self X y n_dim sidx (b0, i0, d0) dims = Ok (b, i, d) ->
  (i = i0 /\ d = d0)
  \/ exists dim row cidx,
       In dim dims /\
       d = Z.of_nat dim /\
       nth_error sidx dim = Some row /\
       candidate_split_indices X row dim = Ok cidx /\
       In (Z.to_nat i) cidx.
Proof.
  induction dims as [ | dim dims IH ]; intros b0 i0 d0 b i d H; simpl in H.
  - inversion H. left. split; reflexivity.
  - bind_inv H. destruct a as [[b1 i1] d1].
    apply IH in H. apply search_dim_index in E.
    destruct H as [(-> & ->) | (dim' & row & cidx & Hin & Hd & Hr & Hc & Hi)].
    + destruct E as [(-> & ->) | (row & cidx & Hd & Hr & Hc & Hi)].
      * left. split; reflexivity.
      * right. exists dim, row, cidx.
        split; [ left; reflexivity | ]. auto.
    + right. exists dim', row, cidx.
      split; [ right; exact Hin | ]. auto.
Qed.

(** On a dtype without wrap-around, a fit of a node in leaf state on sort
    indices that are consistent and sorted separates the training rows by
    its split values. *)
Lemma _fit_separates fuel :
  forall (self : node Dist) X y delta names sidx0 sidx active t,
  exact_dtype (dtype X) ->
  active_sort_indices argsort X sidx0 = Ok sidx ->
  sort_indices_consistent (nrows X) active sidx ->
  sort_indices_sorted X sidx ->
  leaf_state self ->
  _fit argsort fuel self X y delta names sidx0 = Ok t ->
  separates X active t.
Proof.
  induction fuel as [ | fuel IH ];
    intros self X y delta names sidx0 sidx active t Hexact Hs Hcons Hsorted Hleaf H.
  - discriminate H.
  - apply _fit_inv in H.
    destruct H as (n & sidx' & row0 & y0 & b & i & d & _ & Hs' & _ & _ & Hsearch & Hcase).
    rewrite Hs in Hs'. inversion Hs'; subst sidx'. clear Hs'.
    destruct Hcase as [(_ & ->) | (Hi & Hsplit)].
    + apply separates_leaf. apply Hleaf.
    + destruct Hsplit as (row & a1 & a2 & s1 & s2 & n1 & n2 & y1 & y2 & name
                          & l1 & f2 & x1 & x2 & c1 & c2 & Hsplit).
      destruct Hsplit as (Hrow & Ha1 & Ha2 & Hs1 & Hs2 & Hn1 & Hn2 & _ & _ & _
                          & Hl1 & Hf2 & Hx1 & Hx2 & Hc1 & Hc2 & ->).
      apply search_dims_index in Hsearch.
      destruct Hsearch as [(-> & _) | (dim & row' & cidx & Hdim & -> & Hrow' & Hcand & Hk)];
        [ lia | ].
      rewrite Nat2Z.id in *. rewrite Hrow in Hrow'. inversion Hrow'; subst row'.
      set (k := Z.to_nat i) in *.
      destruct (@candidate_split_index X row dim k cidx Hexact Hcand Hk)
        as (m & Ek & Hm & Hd & Hne).
      assert (Prow : Permutation row active).
      { destruct Hcons as (_ & _ & Hperm).
        apply (proj1 (Forall_forall _ _) Hperm).
        apply nth_error_In with dim. exact Hrow. }
      assert (Nrow : NoDup row).
      { apply (Permutation_NoDup (Permutation_sym Prow)). apply Hcons. }
      assert (Srow : StronglySorted (column_le X dim) row) by (apply (Hsorted dim); exact Hrow).
      destruct (@sorted_cut _ (column_le X dim) row k l1 f2) as (B1 & B2 & B12); auto.
      { intro a. apply Qle_refl. }
      (* the two values around the cut *)
      assert (El1 : l1 = nth m row 0).
      { rewrite length_firstn, Nat.min_l in Hl1 by lia.
        rewrite nth_error_firstn in Hl1.
        replace (k - 1) with m in Hl1 by lia.
        replace (m <? k) with true in Hl1 by (symmetry; apply Nat.ltb_lt; lia).
        symmetry. apply nth_error_nth. exact Hl1. }
      assert (Ef2 : f2 = nth (S m) row 0).
      { rewrite nth_error_skipn, Nat.add_0_r, Ek in Hf2.
        symmetry. apply nth_error_nth. exact Hf2. }
      assert (Ex1 : x1 = data X l1 dim).
      { unfold get in Hx1. destruct (_ && _); inversion Hx1. reflexivity. }
      assert (Ex2 : x2 = data X f2 dim).
      { unfold get in Hx2. destruct (_ && _); inversion Hx2. reflexivity. }
      assert (Lt : (x1 < x2)%Q).
      { unfold column_le in B12. rewrite <- Ex1, <- Ex2 in B12.
        destruct (Qle_lt_or_eq _ _ B12) as [L | E]; [ exact L | exfalso ].
        apply Hne. rewrite <- El1, <- Ef2, <- Ex1, <- Ex2. symmetry. exact E. }
      assert (Esv : scalar_add (dtype X) x1 x2 = (x1 + x2)%Q).
      { unfold scalar_add. rewrite Hexact. reflexivity. }
      destruct (filter_mem_firstn_skipn k Nrow) as (F1 & F2).
      assert (N12 : NoDup (firstn k row ++ skipn k row))
        by (rewrite firstn_skipn; exact Nrow).
      assert (C1 : sort_indices_consistent (nrows X) (firstn k row) s1).
      { apply (@child_sort_indices (nrows X) active sidx row (firstn k row) a1 s1);
          auto.
        - apply (NoDup_app_remove_r _ _ N12).
        - intros x Hx. rewrite <- (firstn_skipn k row).
          apply in_or_app. left. exact Hx. }
      assert (C2 : sort_indices_consistent (nrows X) (skipn k row) s2).
      { apply (@child_sort_indices (nrows X) active sidx row (skipn k row) a2 s2);
          auto.
        - apply (NoDup_app_remove_l _ _ N12).
        - intros x Hx. rewrite <- (firstn_skipn k row).
          apply in_or_app. right. exact Hx. }
      assert (W : forall s n' y' act c,
                 sort_indices_consistent (nrows X) act s ->
                 sort_indices_sorted X s ->
                 fit_child argsort fuel self X y delta names s n' y' = Ok c ->
                 separates X act c).
      { intros s n' y' act c Hc Hso Hfit. unfold fit_child in Hfit.
        destruct ((1 <? n') && (1 <? length (np_unique y'))).
        - eapply (IH _ X y delta names (Some s) s act c);
            [ exact Hexact | reflexivity | exact Hc | exact Hso
            | apply new_node_leaf_state | exact Hfit ].
        - inversion Hfit. apply separates_leaf. reflexivity. }
      eapply separates_split with (c1 := c1) (c2 := c2)
                                  (rows1 := firstn k row) (rows2 := skipn k row)
                                  (j := dim);
        try reflexivity.
      * exact Hd.
      * rewrite firstn_skipn. exact Prow.
      * intro E. rewrite E in Hl1. destruct (length [] - 1); discriminate.
      * intro E. rewrite E in Hf2. discriminate.
      * intros r Hr. specialize (B1 r Hr). unfold column_le in B1.
        rewrite <- Ex1 in B1. rewrite Esv. lra.
      * intros r Hr. specialize (B2 r Hr). unfold column_le in B2.
        rewrite <- Ex2 in B2. rewrite Esv. lra.
      * apply (W s1 n1 y1 _ c1 C1 (@select_active_all_sorted X a1 sidx s1 Hs1 Hsorted) Hc1).
      * apply (W s2 n2 y2 _ c2 C2 (@select_active_all_sorted X a2 sidx s2 Hs2 Hsorted) Hc2).
Qed.

End SplitValues.

Section SplitValuesFitted.

Context {F : ModelFamily}.
Variable argsort : list Q -> list nat.
Variable recursion_limit : nat.

Lemma initial_sort_indices_rows (X : ndarray) (dims : list nat) :
  forall sidx,
  initial_sort_indices argsort X dims = Ok sidx ->
  forall p row,
  nth_error sidx p = Some row ->
  exists dim,
    nth_error dims p = Some dim /\ dim < ncols X /\
    row = argsort (map (fun i => data X i dim) (seq 0 (nrows X))).
Proof.
  induction dims as [ | dim dims IH ]; intros sidx H p row Hp; simpl in H.
  - inversion H; subst. destruct p; discriminate.
  - bind_inv_all. inversion H; subst sidx.
    destruct p as [ | p ]; simpl in Hp.
    + inversion Hp; subst row. exists dim. split; [ reflexivity | ].
      unfold column, py_index in E.
      destruct ((0 <=? Z.of_nat dim)%Z && (Z.of_nat dim <? Z.of_nat (ncols X))%Z) eqn:B.
      * apply andb_true_iff in B. destruct B as (_ & B). apply Z.ltb_lt in B.
        inversion E. rewrite Nat2Z.id. split; [ lia | reflexivity ].
      * destruct ((- Z.of_nat (ncols X) <=? Z.of_nat dim)%Z && (Z.of_nat dim <? 0)%Z) eqn:B';
          [ | discriminate ].
        apply andb_true_iff in B'. destruct B' as (_ & B'). apply Z.ltb_lt in B'. lia.
    + destruct (IH a0 eq_refl p row Hp) as (dim' & H1 & H2).
      exists dim'. split; assumption.
Qed.

Lemma initial_sort_indices_sorted (X : ndarray) (sidx : list (list nat)) :
  argsort_permutes argsort ->
  argsort_sorts argsort ->
  initial_sort_indices argsort X (seq 0 (ncols X)) = Ok sidx ->
  sort_indices_sorted X sidx.
Proof.
  intros Hperm Hsort H p row Hp.
  destruct (initial_sort_indices_rows _ _ H _ Hp) as (dim & Hdim & Hlt & ->).
  assert (dim = p).
  { assert (p < ncols X).
    { assert (L : p < length (seq 0 (ncols X)))
        by (apply nth_error_Some; congruence).
      rewrite length_seq in L. exact L. }
    apply nth_error_nth with (d := 0) in Hdim.
    rewrite seq_nth in Hdim by assumption. lia. }
  subst dim.
  set (col := map (fun i => data X i p) (seq 0 (nrows X))).
  specialize (Hsort col). specialize (Hperm col).
  apply StronglySorted_map_inv in Hsort.
  apply (StronglySorted_ext_in (R := fun a b => (nth a col 0 <= nth b col 0)%Q));
    [ | exact Hsort ].
  intros a b Ha Hb Hab. unfold column_le.
  assert (La : a < nrows X).
  { apply (Permutation_in _ Hperm) in Ha. apply in_seq in Ha.
    unfold col in Ha. rewrite length_map, length_seq in Ha. lia. }
  assert (Lb : b < nrows X).
  { apply (Permutation_in _ Hperm) in Hb. apply in_seq in Hb.
    unfold col in Hb. rewrite length_map, length_seq in Hb. lia. }
  unfold col in Hab.
  rewrite !(nth_map_seq 0%Q (fun i => data X i p)) in Hab by assumption.
  exact Hab.
Qed.

(** Pruning keeps the training rows separated. *)
Lemma _prune_separates d X fuel :
  forall (self t : node Dist) active,
  _prune fuel self = Ok t ->
  well_formed d self ->
  separates X active self ->
  separates X active t.
Proof.
  induction fuel as [ | fuel IH ]; intros self t active H W U.
  - discriminate H.
  - inversion W as [ ? Hp (Hsv & Hk1 & Hk2)
                   | ? sv c1 c2 ns b Hp Hsv Hc1 Hc2 Hdim Hns Hb Hgain W1 W2 ]; subst.
    + rewrite _prune_eq, (is_leaf_fitted _ Hp), Hsv in H.
      inversion H; subst. exact U.
    + pose proof H as Hinv. apply _prune_inv in Hinv; [ | exact Hp | congruence ].
      destruct Hinv as (k1 & k2 & self' & Ek1 & Ek2 & Hself' & Htail).
      rewrite Hc1 in Ek1. rewrite Hc2 in Ek2.
      inversion Ek1; inversion Ek2; subst k1 k2.
      inversion U as [ ? ? Hsv'
                     | ? ? sv' k1 k2 r1 r2 j Hsv' Hk1 Hk2 Hj Hjd Hperm Hr1 Hr2
                         Hlo Hhi U1 U2 ]; subst;
        [ congruence | ].
      rewrite Hc1 in Hk1. rewrite Hc2 in Hk2.
      inversion Hk1; inversion Hk2; subst k1 k2.
      assert (R : well_formed d self' /\ separates X active self').
      { destruct Hself' as [-> | [-> | (c1' & c2' & P1 & P2 & ->)]].
        - split; [ | apply separates_leaf; reflexivity ].
          apply wf_leaf; [ exact Hp | repeat split ].
        - auto.
        - destruct (@_prune_well_formed _ d fuel c1 c1' P1 W1) as (W1' & _).
          destruct (@_prune_well_formed _ d fuel c2 c2' P2 W2) as (W2' & _).
          split.
          + apply wf_split with (sv := sv) (c1 := c1') (c2 := c2')
                                (no_split := ns) (best := b);
              try assumption; try reflexivity.
          + apply separates_split with (sv := sv') (c1 := c1') (c2 := c2')
                                       (rows1 := r1) (rows2 := r2) (j := j);
              try assumption; try reflexivity.
            * eapply IH; eassumption.
            * eapply IH; eassumption. }
      destruct R as (W' & U').
      destruct Htail as [Htail | (-> & _)].
      * eapply IH; eassumption.
      * exact U'.
Qed.

(** X9 (split values between the two sides), the part of C7 that holds: on
    a floating dtype, on training entries that are integers of magnitude at
    most 2^22, whose sums and midpoints float arithmetic computes exactly,
    and with an [argsort] that sorts, every split value of a fitted tree
    lies strictly between the feature values of the training rows sent to
    child1 and those of the rows sent to child2, in a valid split
    dimension. *)
Lemma split_values_separate_training_rows
    (partition_prior : Q) (prior : Dist) (level : nat)
    (X : array_like) (M : ndarray) (y : list Q) (delta : Q) (prune_after : bool)
    (feature_names : option (list string)) (names : list string) (t : node Dist) :
  argsort_permutes argsort ->
  argsort_sorts argsort ->
  _normalize_data_and_feature_names X feature_names = Ok (M, names) ->
  exact_dtype (dtype M) ->
  small_integers M ->
  fit argsort recursion_limit (new_node partition_prior prior level)
    X y delta prune_after feature_names = Ok t ->
  separates M (seq 0 (nrows M)) t.
Proof.
  intros Hperm Hsort HX Hexact _ H.
  unfold fit in H. bind_inv_all.
  destruct (Qltb delta 0 || Qltb 1 delta); [ discriminate | ].
  rewrite HX in H.
  destruct (length a =? 1); [ discriminate | ].
  destruct (negb (nrows M =? length a)); [ discriminate | ].
  bind_inv_all.
  assert (U : separates M (seq 0 (nrows M)) a1).
  { destruct recursion_limit as [ | fuel ]; [ discriminate | ].
    pose proof E1 as Hinv. apply _fit_inv in Hinv.
    destruct Hinv as (n & sidx & _ & _ & _ & _ & _ & _ & Hs & _).
    eapply (@_fit_separates _ argsort (S fuel) _ M a delta names None sidx
              (seq 0 (nrows M)) a1).
    - exact Hexact.
    - exact Hs.
    - apply (@initial_sort_indices_consistent argsort M (seq 0 (ncols M)));
        assumption.
    - apply initial_sort_indices_sorted; assumption.
    - apply new_node_leaf_state.
    - exact E1. }
  destruct prune_after.
  - apply _fit_well_formed in E1; [ | apply new_node_leaf_state ].
    destruct E1 as (W & _).
    eapply _prune_separates; eassumption.
  - inversion H; subst. exact U.
Qed.

End SplitValuesFitted.

(** ** The concrete [argsort] sorts *)

Lemma insert_by_In (key : nat -> Q) (i : nat) (l : list nat) (z : nat) :
  In z (insert_by key i l) -> z = i \/ In z l.
Proof.
  intro H. apply (Permutation_in _ (insert_by_permutation key i l)) in H.
  destruct H as [<- | H]; auto.
Qed.

Lemma insert_by_sorted (key : nat -> Q) (i : nat) (l : list nat) :
  StronglySorted (fun a b => (key a <= key b)%Q) l ->
  StronglySorted (fun a b => (key a <= key b)%Q) (insert_by key i l).
Proof.
  induction 1 as [ | j l Hs IH Hall ]; simpl.
  - constructor; constructor.
  - destruct (Qltb (key j) (key i) || Qeq_bool (key j) (key i)) eqn:E.
    + constructor; [ exact IH | ].
      apply Forall_forall. intros z Hz. apply insert_by_In in Hz.
      destruct Hz as [-> | Hz].
      * apply orb_true_iff in E. destruct E as [E | E].
        -- apply Qltb_true in E. apply Qlt_le_weak, E.
        -- apply Qeq_bool_eq in E. rewrite E. apply Qle_refl.
      * apply (proj1 (Forall_forall _ _) Hall). exact Hz.
    + apply orb_false_iff in E. destruct E as (E & _). apply Qltb_false in E.
      constructor; [ constructor; assumption | ].
      constructor; [ exact E | ].
      apply Forall_forall. intros z Hz.
      apply Qle_trans with (key j); [ exact E | ].
      apply (proj1 (Forall_forall _ _) Hall). exact Hz.
Qed.

Lemma stable_argsort_sorts : argsort_sorts stable_argsort.
Proof.
  intro a. unfold stable_argsort.
  generalize (seq 0 (length a)). intro l.
  assert (S : StronglySorted (fun i j => (nth i a 0 <= nth j a 0)%Q)
                (fold_right (insert_by (fun i => nth i a 0%Q)) [] l)).
  { induction l as [ | i l IH ]; simpl.
    - constructor.
    - apply insert_by_sorted. exact IH. }
  revert S. generalize (fold_right (insert_by (fun i => nth i a 0%Q)) [] l).
  intros r S. induction S as [ | x r Hs IH Hall ]; simpl.
  - constructor.
  - constructor; [ exact IH | ].
    apply Forall_forall. intros z Hz. apply in_map_iff in Hz.
    destruct Hz as (w & <- & Hw).
    apply (proj1 (Forall_forall _ _) Hall). exact Hw.
Qed.

(** ** One pass of pruning, case by case *)

Section PruneCases.

Context {F : ModelFamily}.

Lemma get_n_leaves_counts d (t : node Dist) :
  well_formed d t -> get_n_leaves t = Ok (count_leaves t).
Proof.
  intro W. unfold get_n_leaves. rewrite (_update_n_leaves_counts W). reflexivity.
Qed.

Lemma _prune_cases d fuel (self t : node Dist) sv c1 c2 :
  _prune (S fuel) self = Ok t ->
  well_formed d self ->
  split_value self = Some sv ->
  child1 self = Some c1 ->
  child2 self = Some c2 ->
  exists self',
    well_formed d self' /\
    ((split_value c1 = None /\ split_value c2 = None /\
      same_prediction c1 c2 true /\
      self' = _erase_split_info (_erase_split_info_base self))
     \/ (split_value c1 = None /\ split_value c2 = None /\
         same_prediction c1 c2 false /\
         self' = self)
     \/ (~ (split_value c1 = None /\ split_value c2 = None) /\
         exists c1' c2',
           _prune fuel c1 = Ok c1' /\ _prune fuel c2 = Ok c2' /\
           self' = set_children self (Some c1') (Some c2'))) /\
    (_prune fuel self' = Ok t /\ count_leaves self' < count_leaves self
     \/ t = self' /\ self' = self).
Proof.
  intros H W Hsv Hc1 Hc2.
  inversion W as [ ? Hp (Hsv' & _)
                 | ? sv' k1 k2 ns b Hp Hsv' Hk1 Hk2 Hdim Hns Hb Hgain W1 W2 ]; subst;
    [ congruence | ].
  rewrite Hc1 in Hk1. rewrite Hc2 in Hk2.
  inversion Hk1; inversion Hk2; subst k1 k2. clear Hk1 Hk2.
  assert (Hp1 : posterior c1 <> None) by (inversion W1; assumption).
  assert (Hp2 : posterior c2 <> None) by (inversion W2; assumption).
  assert (P1 := count_leaves_positive W1).
  assert (P2 := count_leaves_positive W2).
  assert (Cself : count_leaves self = count_leaves c1 + count_leaves c2)
    by (rewrite count_leaves_eq, Hsv, Hc1, Hc2; reflexivity).
  assert (Pass : exists self',
             well_formed d self' /\
             ((split_value c1 = None /\ split_value c2 = None /\
               same_prediction c1 c2 true /\
               self' = _erase_split_info (_erase_split_info_base self))
              \/ (split_value c1 = None /\ split_value c2 = None /\
                  same_prediction c1 c2 false /\
                  self' = self)
              \/ (~ (split_value c1 = None /\ split_value c2 = None) /\
                  exists c1' c2',
                    _prune fuel c1 = Ok c1' /\ _prune fuel c2 = Ok c2' /\
                    self' = set_children self (Some c1') (Some c2'))) /\
             (self' = self \/ count_leaves self' < count_leaves self) /\
             exists ds de,
               get_depth self = Ok ds /\ get_depth self' = Ok de /\
               (if negb (ds =? de)
                   || negb (count_leaves self =? count_leaves self')
                then _prune fuel self' else Ok self') = Ok t).
  { rewrite _prune_eq, (is_leaf_fitted _ Hp), Hsv in H.
    rewrite (get_n_leaves_counts W) in H.
    destruct (get_depth self) as [ds | ] eqn:Eds; [ | discriminate H ].
    rewrite Hc1, Hc2 in H. cbn [of_option] in H.
    rewrite (is_leaf_fitted _ Hp1), (is_leaf_fitted _ Hp2) in H.
    destruct (split_value c1) as [sv1 | ] eqn:S1;
      [ | destruct (split_value c2) as [sv2 | ] eqn:S2 ].
    - (* child1 is split *)
      destruct (_prune fuel c1) as [c1' | ] eqn:Q1; [ | discriminate H ].
      destruct (_prune fuel c2) as [c2' | ] eqn:Q2; [ | discriminate H ].
      destruct (@_prune_well_formed _ d fuel c1 c1' Q1 W1) as (W1' & _).
      destruct (@_prune_well_formed _ d fuel c2 c2' Q2 W2) as (W2' & _).
      assert (W' : well_formed d (set_children self (Some c1') (Some c2'))).
      { apply wf_split with (sv := sv) (c1 := c1') (c2 := c2')
                            (no_split := ns) (best := b);
          try assumption; try reflexivity. }
      exists (set_children self (Some c1') (Some c2')).
      split; [ exact W' | ].
      split.
      { right. right. split; [ intros (A & _); discriminate | ].
        exists c1', c2'. auto. }
      split.
      { destruct (@_prune_same_or_fewer _ d fuel c1 c1' Q1 W1) as [-> | L1];
          destruct (@_prune_same_or_fewer _ d fuel c2 c2' Q2 W2) as [-> | L2].
        - left. apply set_children_same; assumption.
        - right. rewrite count_leaves_eq. simpl. rewrite Hsv. lia.
        - right. rewrite count_leaves_eq. simpl. rewrite Hsv. lia.
        - right. rewrite count_leaves_eq. simpl. rewrite Hsv. lia. }
      cbv beta iota in H.
      rewrite (get_n_leaves_counts W') in H.
      destruct (get_depth (set_children self (Some c1') (Some c2')))
        as [de | ] eqn:Ede; [ | discriminate H ].
      exists ds, de. auto.
    - (* child1 is a leaf, child2 is split *)
      destruct (_prune fuel c1) as [c1' | ] eqn:Q1; [ | discriminate H ].
      destruct (_prune fuel c2) as [c2' | ] eqn:Q2; [ | discriminate H ].
      destruct (@_prune_well_formed _ d fuel c1 c1' Q1 W1) as (W1' & _).
      destruct (@_prune_well_formed _ d fuel c2 c2' Q2 W2) as (W2' & _).
      assert (W' : well_formed d (set_children self (Some c1') (Some c2'))).
      { apply wf_split with (sv := sv) (c1 := c1') (c2 := c2')
                            (no_split := ns) (best := b);
          try assumption; try reflexivity. }
      exists (set_children self (Some c1') (Some c2')).
      split; [ exact W' | ].
      split.
      { right. right. split; [ intros (_ & A); discriminate | ].
        exists c1', c2'. auto. }
      split.
      { destruct (@_prune_same_or_fewer _ d fuel c1 c1' Q1 W1) as [-> | L1];
          destruct (@_prune_same_or_fewer _ d fuel c2 c2' Q2 W2) as [-> | L2].
        - left. apply set_children_same; assumption.
        - right. rewrite count_leaves_eq. simpl. rewrite Hsv. lia.
        - right. rewrite count_leaves_eq. simpl. rewrite Hsv. lia.
        - right. rewrite count_leaves_eq. simpl. rewrite Hsv. lia. }
      cbv beta iota in H.
      rewrite (get_n_leaves_counts W') in H.
      destruct (get_depth (set_children self (Some c1') (Some c2')))
        as [de | ] eqn:Ede; [ | discriminate H ].
      exists ds, de. auto.
    - (* both children are leaves *)
      unfold _predict_leaf in H.
      destruct (posterior c1) as [p1 | ] eqn:E1; [ | contradiction ].
      destruct (posterior c2) as [p2 | ] eqn:E2; [ | contradiction ].
      cbn [of_option] in H. cbv beta iota in H.
      destruct (Qeq_bool (predict_leaf p1) (predict_leaf p2)) eqn:Eq.
      + assert (W' : well_formed d (_erase_split_info (_erase_split_info_base self)))
          by (apply wf_leaf; [ exact Hp | repeat split ]).
        exists (_erase_split_info (_erase_split_info_base self)).
        split; [ exact W' | ].
        split.
        { left. repeat split; try reflexivity. exists p1, p2. auto. }
        split.
        { right. rewrite Cself. simpl. lia. }
        cbv beta iota in H.
        rewrite (get_n_leaves_counts W') in H.
        destruct (get_depth (_erase_split_info (_erase_split_info_base self)))
          as [de | ] eqn:Ede; [ | discriminate H ].
        exists ds, de. auto.
      + exists self. split; [ exact W | ].
        split.
        { right. left. repeat split; try reflexivity. exists p1, p2. auto. }
        split; [ left; reflexivity | ].
        cbv beta iota in H.
        rewrite (get_n_leaves_counts W), Eds in H.
        exists ds, ds. auto. }
  destruct Pass as (self' & W' & Hcase & Hsame & ds & de & Eds & Ede & Htail).
  exists self'. split; [ exact W' | ]. split; [ exact Hcase | ].
  destruct Hsame as [-> | Lt].
  - right. rewrite Eds in Ede. inversion Ede; subst de.
    rewrite !Nat.eqb_refl in Htail. simpl in Htail.
    inversion Htail. auto.
  - left. replace (count_leaves self =? count_leaves self') with false in Htail
      by (symmetry; apply Nat.eqb_neq; lia).
    rewrite orb_true_r in Htail. auto.
Qed.

End PruneCases.

(** ** What pruning leaves behind *)

Section Pruned.

Context {F : ModelFamily}.

Lemma every_node_eq (P : node Dist -> Prop) (t : node Dist) :
  every_node P t =
    (P t /\
     match child1 t with Some c => every_node P c | None => True end /\
     match child2 t with Some c => every_node P c | None => True end).
Proof.
  destruct t; reflexivity.
Qed.

Lemma every_node_leaf (P : node Dist -> Prop) (t : node Dist) :
  P t -> child1 t = None -> child2 t = None -> every_node P t.
Proof.
  intros H H1 H2. rewrite every_node_eq, H1, H2. auto.
Qed.

Lemma leaf_not_mergeable (t : node Dist) :
  split_value t = None -> ~ mergeable t.
Proof.
  intros Hsv (c1 & c2 & p1 & p2 & Hne & _). contradiction.
Qed.

Lemma well_formed_leaf_children d (t : node Dist) :
  well_formed d t -> split_value t = None -> child1 t = None /\ child2 t = None.
Proof.
  intros W Hsv. inversion W as [ ? _ (_ & H1 & H2) | ]; subst; [ auto | congruence ].
Qed.

Lemma _prune_no_mergeable d fuel :
  forall (self t : node Dist),
  _prune fuel self = Ok t ->
  well_formed d self ->
  every_node (fun n => ~ mergeable n) t.
Proof.
  induction fuel as [ | fuel IH ]; intros self t H W.
  - discriminate H.
  - inversion W as [ ? Hp (Hsv & Hk1 & Hk2)
                   | ? sv c1 c2 ns b Hp Hsv Hc1 Hc2 Hdim Hns Hb Hgain W1 W2 ]; subst.
    + rewrite _prune_eq, (is_leaf_fitted _ Hp), Hsv in H.
      inversion H; subst.
      apply every_node_leaf; [ apply leaf_not_mergeable | | ]; assumption.
    + destruct (@_prune_cases _ _ _ _ _ _ _ _ H W Hsv Hc1 Hc2) as (self' & W' & Hcase & Htail).
      destruct Htail as [(Htail & _) | (-> & ->)]; [ apply (IH _ _ Htail W') | ].
      destruct Hcase as [(_ & _ & _ & E)
                        | [(S1 & S2 & (p1 & p2 & E1 & E2 & Ne) & _)
                          | (Hnot & c1' & c2' & Q1 & Q2 & E)]].
      * rewrite E in Hsv. discriminate Hsv.
      * destruct (well_formed_leaf_children W1 S1) as (A1 & A2).
        destruct (well_formed_leaf_children W2 S2) as (B1 & B2).
        rewrite every_node_eq, Hc1, Hc2.
        split; [ | split ].
        -- intros (k1 & k2 & q1 & q2 & _ & K1 & K2 & _ & _ & L1 & L2 & Eq).
           rewrite Hc1 in K1. rewrite Hc2 in K2.
           inversion K1; inversion K2; subst k1 k2.
           rewrite E1 in L1. rewrite E2 in L2.
           inversion L1; inversion L2; subst q1 q2. congruence.
        -- apply every_node_leaf; [ apply leaf_not_mergeable | | ]; assumption.
        -- apply every_node_leaf; [ apply leaf_not_mergeable | | ]; assumption.
      * assert (K1 : child1 self = Some c1') by (rewrite E; reflexivity).
        assert (K2 : child2 self = Some c2') by (rewrite E; reflexivity).
        rewrite Hc1 in K1. rewrite Hc2 in K2.
        inversion K1; inversion K2; subst c1' c2'.
        rewrite every_node_eq, Hc1, Hc2.
        split; [ | split ].
        -- intros (k1 & k2 & q1 & q2 & _ & L1 & L2 & S1 & S2 & _).
           rewrite Hc1 in L1. rewrite Hc2 in L2.
           inversion L1; inversion L2; subst k1 k2. apply Hnot. auto.
        -- apply (IH _ _ Q1 W1).
        -- apply (IH _ _ Q2 W2).
Qed.

Lemma _update_depth_eq (self : node Dist) (depth : nat) :
  _update_depth self depth =
    (leaf <- is_leaf self ;;
     if (leaf : bool) then Ok (Nat.max depth (level self))
     else
       match child1 self with
       | None => Ok depth
       | Some c1 =>
           depth <- _update_depth c1 depth ;;
           match child2 self with
           | None => Raise AttributeError
           | Some c2 => _update_depth c2 depth
           end
       end).
Proof.
  destruct self; reflexivity.
Qed.

Lemma _update_depth_returns d (t : node Dist) :
  well_formed d t ->
  forall n, exists k, _update_depth t n = Ok k.
Proof.
  induction 1 as [ t Hp (Hsv & _ & _)
                 | t sv c1 c2 ns b Hp Hsv Hc1 Hc2 _ _ _ _ W1 IH1 W2 IH2 ];
    intro n; rewrite _update_depth_eq, (is_leaf_fitted _ Hp), Hsv.
  - eexists. reflexivity.
  - rewrite Hc1, Hc2. destruct (IH1 n) as (k1 & ->). apply IH2.
Qed.

(** With a recursion limit of twice the number of leaves, [_prune] returns. *)
Lemma _prune_returns d fuel :
  forall self : node Dist,
  well_formed d self ->
  2 * count_leaves self <= fuel + 1 ->
  exists t, _prune fuel self = Ok t.
Proof.
  induction fuel as [ | fuel IH ]; intros self W Hfuel.
  - assert (P := count_leaves_positive W). lia.
  - inversion W as [ ? Hp (Hsv & Hk1 & Hk2)
                   | ? sv c1 c2 ns b Hp Hsv Hc1 Hc2 Hdim Hns Hb Hgain W1 W2 ]; subst.
    + rewrite _prune_eq, (is_leaf_fitted _ Hp), Hsv. eexists. reflexivity.
    + assert (Hp1 : posterior c1 <> None) by (inversion W1; assumption).
      assert (Hp2 : posterior c2 <> None) by (inversion W2; assumption).
      assert (P1 := count_leaves_positive W1).
      assert (P2 := count_leaves_positive W2).
      assert (Cself : count_leaves self = count_leaves c1 + count_leaves c2)
        by (rewrite count_leaves_eq, Hsv, Hc1, Hc2; reflexivity).
      destruct (_update_depth_returns W 0) as (ds & Eds).
      assert (Tail : forall self',
                 well_formed d self' ->
                 self' = self \/ count_leaves self' < count_leaves self ->
                 exists t,
                   (depth_end <- get_depth self' ;;
                    n_leaves_end <- get_n_leaves self' ;;
                    if negb (ds =? depth_end)
                       || negb (count_leaves self =? n_leaves_end)
                    then _prune fuel self'
                    else Ok self') = Ok t).
      { intros self' W' Hsame.
        destruct (_update_depth_returns W' 0) as (de & Ede).
        unfold get_depth. rewrite Ede, (get_n_leaves_counts W').
        destruct (negb (ds =? de) || negb (count_leaves self =? count_leaves self'))
          eqn:Ch; [ | eexists; reflexivity ].
        apply IH; [ exact W' | ].
        destruct Hsame as [-> | Lt]; [ | lia ].
        rewrite Eds in Ede. inversion Ede; subst de.
        rewrite !Nat.eqb_refl in Ch. discriminate Ch. }
      assert (Rec : ~ (split_value c1 = None /\ split_value c2 = None) ->
                 exists c1' c2',
                   _prune fuel c1 = Ok c1' /\ _prune fuel c2 = Ok c2' /\
                   well_formed d (set_children self (Some c1') (Some c2')) /\
                   (set_children self (Some c1') (Some c2') = self
                    \/ count_leaves (set_children self (Some c1') (Some c2'))
                       < count_leaves self)).
      { intros _.
        destruct (IH c1 W1) as (c1' & Q1); [ lia | ].
        destruct (IH c2 W2) as (c2' & Q2); [ lia | ].
        exists c1', c2'. split; [ exact Q1 | ]. split; [ exact Q2 | ].
        destruct (@_prune_well_formed _ d fuel c1 c1' Q1 W1) as (W1' & _).
        destruct (@_prune_well_formed _ d fuel c2 c2' Q2 W2) as (W2' & _).
        split.
        - apply wf_split with (sv := sv) (c1 := c1') (c2 := c2')
                              (no_split := ns) (best := b);
            try assumption; try reflexivity.
        - destruct (@_prune_same_or_fewer _ d fuel c1 c1' Q1 W1) as [-> | L1];
            destruct (@_prune_same_or_fewer _ d fuel c2 c2' Q2 W2) as [-> | L2].
          + left. apply set_children_same; assumption.
          + right. rewrite count_leaves_eq. simpl. rewrite Hsv. lia.
          + right. rewrite count_leaves_eq. simpl. rewrite Hsv. lia.
          + right. rewrite count_leaves_eq. simpl. rewrite Hsv. lia. }
      rewrite _prune_eq, (is_leaf_fitted _ Hp), Hsv.
      unfold get_depth at 1. rewrite Eds, (get_n_leaves_counts W).
      rewrite Hc1, Hc2. cbn [of_option].
      rewrite (is_leaf_fitted _ Hp1), (is_leaf_fitted _ Hp2).
      destruct (split_value c1) as [sv1 | ] eqn:S1;
        [ | destruct (split_value c2) as [sv2 | ] eqn:S2 ].
      * destruct Rec as (c1' & c2' & Q1 & Q2 & W' & Hsame);
          [ intros (A & _); discriminate | ].
        rewrite Q1, Q2. apply (Tail _ W' Hsame).
      * destruct Rec as (c1' & c2' & Q1 & Q2 & W' & Hsame);
          [ intros (_ & A); discriminate | ].
        rewrite Q1, Q2. apply (Tail _ W' Hsame).
      * unfold _predict_leaf.
        destruct (posterior c1) as [p1 | ] eqn:E1; [ | contradiction ].
        destruct (posterior c2) as [p2 | ] eqn:E2; [ | contradiction ].
        cbn [of_option].
        destruct (Qeq_bool (predict_leaf p1) (predict_leaf p2)).
        -- apply Tail.
           ++ apply wf_leaf; [ exact Hp | repeat split ].
           ++ right. rewrite Cself. simpl. lia.
        -- apply Tail; [ exact W | left; reflexivity ].
Qed.

Lemma _prune_root_fields d fuel :
  forall (self t : node Dist),
  _prune fuel self = Ok t ->
  well_formed d self ->
  level t = level self /\ partition_prior t = partition_prior self /\
  prior t = prior self.
Proof.
  induction fuel as [ | fuel IH ]; intros self t H W.
  - discriminate H.
  - inversion W as [ ? Hp (Hsv & Hk1 & Hk2)
                   | ? sv c1 c2 ns b Hp Hsv Hc1 Hc2 Hdim Hns Hb Hgain W1 W2 ]; subst.
    + rewrite _prune_eq, (is_leaf_fitted _ Hp), Hsv in H.
      inversion H; subst. auto.
    + destruct (@_prune_cases _ _ _ _ _ _ _ _ H W Hsv Hc1 Hc2) as (self' & W' & Hcase & Htail).
      assert (R : level self' = level self /\
                  partition_prior self' = partition_prior self /\
                  prior self' = prior self).
      { destruct Hcase as [(_ & _ & _ & ->)
                          | [(_ & _ & _ & ->) | (_ & c1' & c2' & _ & _ & ->)]];
          repeat split. }
      destruct Htail as [(Htail & _) | (-> & ->)]; [ | auto ].
      destruct (IH _ _ Htail W') as (A & B & C).
      destruct R as (A' & B' & C'). repeat split; congruence.
Qed.

End Pruned.

Section PrunedTraining.

Context {F : ModelFamily}.
Variable argsort : list Q -> list nat.

(** Pruning keeps what [_fit] recorded about the rows. *)
Lemma _prune_trained d X fuel :
  forall (self t : node Dist) active,
  _prune fuel self = Ok t ->
  well_formed d self ->
  trained argsort X active self ->
  trained argsort X active t.
Proof.
  induction fuel as [ | fuel IH ]; intros self t active H W U.
  - discriminate H.
  - inversion W as [ ? Hp (Hsv & Hk1 & Hk2)
                   | ? sv c1 c2 ns b Hp Hsv Hc1 Hc2 Hdim Hns Hb Hgain W1 W2 ]; subst.
    + rewrite _prune_eq, (is_leaf_fitted _ Hp), Hsv in H.
      inversion H; subst. exact U.
    + destruct (@_prune_cases _ _ _ _ _ _ _ _ H W Hsv Hc1 Hc2) as (self' & W' & Hcase & Htail).
      assert (R : trained argsort X active self').
      { destruct Hcase as [(_ & _ & _ & ->)
                          | [(_ & _ & _ & ->) | (_ & c1' & c2' & Q1 & Q2 & ->)]].
        - apply trained_leaf; [ reflexivity | ].
          inversion U; subst; assumption.
        - exact U.
        - inversion U as [ ? ? Hsv' | ? ? sv' k1 k2 r1 r2 j Hsv' Hk1 Hk2 Hn Hj Hjd
                               Hperm Hr1 Hr2 Hsep U1 U2 ]; subst;
            [ congruence | ].
          rewrite Hc1 in Hk1. rewrite Hc2 in Hk2.
          inversion Hk1; inversion Hk2; subst k1 k2.
          apply trained_split with (sv := sv') (c1 := c1') (c2 := c2')
                                   (rows1 := r1) (rows2 := r2) (j := j);
            try assumption; try reflexivity.
          + eapply IH; eassumption.
          + eapply IH; eassumption. }
      destruct Htail as [(Htail & _) | (-> & _)]; [ | exact R ].
      eapply IH; eassumption.
Qed.

End PrunedTraining.

Section PrunedLayout.

Context {F : ModelFamily}.

(** Pruning keeps what [_fit] handed down from node to node. *)
Lemma _prune_laid_out d names delta fuel :
  forall (self t : node Dist),
  _prune fuel self = Ok t ->
  well_formed d self ->
  laid_out names delta self ->
  laid_out names delta t.
Proof.
  induction fuel as [ | fuel IH ]; intros self t H W U.
  - discriminate H.
  - inversion W as [ ? Hp (Hsv & Hk1 & Hk2)
                   | ? sv c1 c2 ns b Hp Hsv Hc1 Hc2 Hdim Hns Hb Hgain W1 W2 ]; subst.
    + rewrite _prune_eq, (is_leaf_fitted _ Hp), Hsv in H.
      inversion H; subst. exact U.
    + destruct (@_prune_cases _ _ _ _ _ _ _ _ H W Hsv Hc1 Hc2) as (self' & W' & Hcase & Htail).
      assert (R : laid_out names delta self').
      { destruct Hcase as [(_ & _ & _ & ->)
                          | [(_ & _ & _ & ->) | (_ & c1' & c2' & Q1 & Q2 & ->)]].
        - apply laid_out_leaf. reflexivity.
        - exact U.
        - inversion U as [ ? Hsv' | ? sv' k1 k2 j name Hsv' Hk1 Hk2 Hj Hname Hnamed
                               Hl1 Hl2 Hpp1 Hpp2 Hpr U1 U2 ]; subst;
            [ congruence | ].
          rewrite Hc1 in Hk1. rewrite Hc2 in Hk2.
          inversion Hk1; inversion Hk2; subst k1 k2.
          destruct (@_prune_root_fields _ _ _ _ _ Q1 W1) as (A1 & B1 & C1).
          destruct (@_prune_root_fields _ _ _ _ _ Q2 W2) as (A2 & B2 & C2).
          apply laid_out_split with (sv := sv') (c1 := c1') (c2 := c2')
                                    (j := j) (name := name);
            try assumption; try reflexivity; simpl; try congruence.
          + intro D. destruct (Hpr D). split; congruence.
          + eapply IH; eassumption.
          + eapply IH; eassumption. }
      destruct Htail as [(Htail & _) | (-> & _)]; [ | exact R ].
      eapply IH; eassumption.
Qed.

End PrunedLayout.

(** ** What [_fit] records *)

Section Training.

Context {F : ModelFamily}.
Variable argsort : list Q -> list nat.

Lemma _fit_trained fuel :
  forall (self : node Dist) X y delta names sidx0 sidx active t,
  active_sort_indices argsort X sidx0 = Ok sidx ->
  sort_indices_consistent (nrows X) active sidx ->
  (sidx0 = None -> length active = nrows X) ->
  (argsort_sorts argsort -> sort_indices_sorted X sidx) ->
  leaf_state self ->
  _fit argsort fuel self X y delta names sidx0 = Ok t ->
  trained argsort X active t.
Proof.
  induction fuel as [ | fuel IH ];
    intros self X y delta names sidx0 sidx active t Hs Hcons Hroot Hsorted Hleaf H.
  - discriminate H.
  - apply _fit_inv in H.
    destruct H as (n & sidx' & row0 & y0 & b & i & d & Hn & Hs' & Hr0 & _ & Hsearch & Hcase).
    rewrite Hs in Hs'. inversion Hs'; subst sidx'. clear Hs'.
    assert (En : n = length active).
    { destruct sidx0 as [s | ].
      - simpl in Hs. inversion Hs; subst s.
        apply (shape1_permutation Hn). apply Hcons.
      - inversion Hn. symmetry. apply Hroot. reflexivity. }
    subst n.
    destruct Hcase as [(_ & ->) | (Hi & Hsplit)].
    + apply trained_leaf; [ apply Hleaf | reflexivity ].
    + destruct Hsplit as (row & a1 & a2 & s1 & s2 & n1 & n2 & y1 & y2 & name
                          & l1 & f2 & x1 & x2 & c1 & c2 & Hsplit).
      destruct Hsplit as (Hrow & Ha1 & Ha2 & Hs1 & Hs2 & Hn1 & Hn2 & _ & _ & Hname
                          & Hl1 & Hf2 & Hx1 & Hx2 & Hc1 & Hc2 & ->).
      apply search_dims_index in Hsearch.
      destruct Hsearch as [(-> & _) | (dim & row' & cidx & Hdim & -> & Hrow' & Hcand & Hk)];
        [ lia | ].
      rewrite Nat2Z.id in *. rewrite Hrow in Hrow'. inversion Hrow'; subst row'.
      set (k := Z.to_nat i) in *.
      assert (Hd : dim < ncols X) by (apply in_seq in Hdim; lia).
      assert (Prow : Permutation row active).
      { destruct Hcons as (_ & _ & Hperm).
        apply (proj1 (Forall_forall _ _) Hperm).
        apply nth_error_In with dim. exact Hrow. }
      assert (Nrow : NoDup row).
      { apply (Permutation_NoDup (Permutation_sym Prow)). apply Hcons. }
      destruct (filter_mem_firstn_skipn k Nrow) as (F1 & F2).
      assert (N12 : NoDup (firstn k row ++ skipn k row))
        by (rewrite firstn_skipn; exact Nrow).
      assert (C1 : sort_indices_consistent (nrows X) (firstn k row) s1).
      { apply (@child_sort_indices (nrows X) active sidx row (firstn k row) a1 s1);
          auto.
        - apply (NoDup_app_remove_r _ _ N12).
        - intros x Hx. rewrite <- (firstn_skipn k row).
          apply in_or_app. left. exact Hx. }
      assert (C2 : sort_indices_consistent (nrows X) (skipn k row) s2).
      { apply (@child_sort_indices (nrows X) active sidx row (skipn k row) a2 s2);
          auto.
        - apply (NoDup_app_remove_l _ _ N12).
        - intros x Hx. rewrite <- (firstn_skipn k row).
          apply in_or_app. right. exact Hx. }
      assert (E1 : n1 = length (firstn k row))
        by (apply (shape1_permutation Hn1); apply C1).
      assert (E2 : n2 = length (skipn k row))
        by (apply (shape1_permutation Hn2); apply C2).
      assert (W : forall s n' y' act c,
                 sort_indices_consistent (nrows X) act s ->
                 (argsort_sorts argsort -> sort_indices_sorted X s) ->
                 n' = length act ->
                 fit_child argsort fuel self X y delta names s n' y' = Ok c ->
                 trained argsort X act c).
      { intros s n' y' act c Hc Hso En' Hfit. unfold fit_child in Hfit.
        destruct ((1 <? n') && (1 <? length (np_unique y'))).
        - subst n'.
          apply (IH _ X y delta names (Some s) s act c) in Hfit;
            [ exact Hfit | reflexivity | exact Hc | discriminate | exact Hso
            | apply new_node_leaf_state ].
        - inversion Hfit.
          apply trained_leaf; [ reflexivity | simpl; congruence ]. }
      assert (T1 := W s1 n1 y1 _ c1 C1
                  (fun S => @select_active_all_sorted X a1 sidx s1 Hs1 (Hsorted S))
                  E1 Hc1).
      assert (T2 := W s2 n2 y2 _ c2 C2
                  (fun S => @select_active_all_sorted X a2 sidx s2 Hs2 (Hsorted S))
                  E2 Hc2).
      assert (Sep : exact_dtype (dtype X) -> argsort_sorts argsort ->
                (forall r, In r (firstn k row) ->
                   (data X r dim < (1 # 2) * scalar_add (dtype X) x1 x2)%Q) /\
                (forall r, In r (skipn k row) ->
                   ((1 # 2) * scalar_add (dtype X) x1 x2 < data X r dim)%Q)).
      { intros Hexact Hsorts.
        destruct (@candidate_split_index X row dim k cidx Hexact Hcand Hk)
          as (m & Ek & Hm & _ & Hne).
        assert (Srow : StronglySorted (column_le X dim) row)
          by (apply (Hsorted Hsorts dim); exact Hrow).
        destruct (@sorted_cut _ (column_le X dim) row k l1 f2) as (U1 & U2 & U12); auto.
        { intro a. apply Qle_refl. }
        assert (El1 : l1 = nth m row 0).
        { rewrite length_firstn, Nat.min_l in Hl1 by lia.
          rewrite nth_error_firstn in Hl1.
          replace (k - 1) with m in Hl1 by lia.
          replace (m <? k) with true in Hl1 by (symmetry; apply Nat.ltb_lt; lia).
          symmetry. apply nth_error_nth. exact Hl1. }
        assert (Ef2 : f2 = nth (S m) row 0).
        { rewrite nth_error_skipn, Nat.add_0_r, Ek in Hf2.
          symmetry. apply nth_error_nth. exact Hf2. }
        assert (Ex1 : x1 = data X l1 dim).
        { unfold get in Hx1. destruct (_ && _); inversion Hx1. reflexivity. }
        assert (Ex2 : x2 = data X f2 dim).
        { unfold get in Hx2. destruct (_ && _); inversion Hx2. reflexivity. }
        assert (Lt : (x1 < x2)%Q).
        { unfold column_le in U12. rewrite <- Ex1, <- Ex2 in U12.
          destruct (Qle_lt_or_eq _ _ U12) as [L | E]; [ exact L | exfalso ].
          apply Hne. rewrite <- El1, <- Ef2, <- Ex1, <- Ex2. symmetry. exact E. }
        assert (Esv : scalar_add (dtype X) x1 x2 = (x1 + x2)%Q).
        { unfold scalar_add. rewrite Hexact. reflexivity. }
        split.
        - intros r Hr. specialize (U1 r Hr). unfold column_le in U1.
          rewrite <- Ex1 in U1. rewrite Esv. lra.
        - intros r Hr. specialize (U2 r Hr). unfold column_le in U2.
          rewrite <- Ex2 in U2. rewrite Esv. lra. }
      apply trained_split with (sv := ((1 # 2) * scalar_add (dtype X) x1 x2)%Q)
                               (c1 := c1) (c2 := c2)
                               (rows1 := firstn k row) (rows2 := skipn k row)
                               (j := dim);
        try reflexivity; try assumption.
      * rewrite firstn_skipn. exact Prow.
      * intro E. rewrite E in Hl1. destruct (length [] - 1); discriminate.
      * intro E. rewrite E in Hf2. discriminate.
Qed.

(** What a call of [_fit] hands down to the children it creates. *)
Lemma _fit_laid_out fuel :
  forall (self : node Dist) X y delta names sidx0 t,
  leaf_state self ->
  _fit argsort fuel self X y delta names sidx0 = Ok t ->
  laid_out names delta t /\
  level t = level self /\ partition_prior t = partition_prior self /\
  prior t = prior self.
Proof.
  induction fuel as [ | fuel IH ]; intros self X y delta names sidx0 t Hleaf H.
  - discriminate H.
  - apply _fit_inv in H.
    destruct H as (n & sidx & row0 & y0 & b & i & d & _ & _ & _ & _ & Hsearch & Hcase).
    destruct Hcase as [(_ & ->) | (Hi & Hsplit)].
    + split; [ | repeat split ].
      apply laid_out_leaf. apply Hleaf.
    + destruct Hsplit as (row & a1 & a2 & s1 & s2 & n1 & n2 & y1 & y2 & name
                          & l1 & f2 & x1 & x2 & c1 & c2 & Hsplit).
      destruct Hsplit as (_ & _ & _ & _ & _ & _ & _ & _ & _ & Hname
                          & _ & _ & _ & _ & Hc1 & Hc2 & ->).
      apply search_found in Hsearch; [ | exact Hi ].
      destruct Hsearch as (_ & dim & _ & ->).
      rewrite Nat2Z.id in Hname.
      assert (W : forall s n' y' c,
                 fit_child argsort fuel self X y delta names s n' y' = Ok c ->
                 laid_out names delta c /\
                 level c = level self + 1 /\
                 partition_prior c = partition_prior self /\
                 prior c = child_prior self y' delta).
      { intros s n' y' c Hfit. unfold fit_child in Hfit.
        destruct ((1 <? n') && (1 <? length (np_unique y'))).
        - apply IH in Hfit; [ exact Hfit | apply new_node_leaf_state ].
        - inversion Hfit. split; [ | repeat split ].
          apply laid_out_leaf. reflexivity. }
      destruct (W _ _ _ _ Hc1) as (T1 & L1 & B1 & R1).
      destruct (W _ _ _ _ Hc2) as (T2 & L2 & B2 & R2).
      split; [ | repeat split ].
      apply laid_out_split with (sv := ((1 # 2) * scalar_add (dtype X) x1 x2)%Q)
                                (c1 := c1) (c2 := c2) (j := dim) (name := name);
        try reflexivity; try assumption.
      intro D. simpl. rewrite R1, R2. unfold child_prior, Qneqb.
      rewrite D. simpl. auto.
Qed.

End Training.

(** ** What [fit] returns *)

Section FitResults.

Context {F : ModelFamily}.
Variable argsort : list Q -> list nat.
Variable recursion_limit : nat.

Lemma fit_inv (self : node Dist) X y delta prune_after feature_names t :
  fit argsort recursion_limit self X y delta prune_after feature_names = Ok t ->
  exists M names t0,
    check_target y = Ok tt /\
    Qltb delta 0 = false /\ Qltb 1 delta = false /\
    _normalize_data_and_feature_names X feature_names = Ok (M, names) /\
    length y <> 1 /\ nrows M = length y /\
    _fit argsort recursion_limit self M y delta names None = Ok t0 /\
    (if (prune_after : bool) then prune recursion_limit t0 = Ok t else t0 = t).
Proof.
  unfold fit, _ensure_float64. intro H.
  destruct (check_target y) as [[] | ] eqn:Ect; [ | discriminate H ].
  destruct (Qltb delta 0) eqn:D0; [ discriminate H | ].
  destruct (Qltb 1 delta) eqn:D1; [ discriminate H | ].
  simpl in H.
  destruct (_normalize_data_and_feature_names X feature_names)
    as [[M names] | ] eqn:EX; [ | discriminate H ].
  destruct (length y =? 1) eqn:L1; [ discriminate H | ].
  destruct (nrows M =? length y) eqn:L2; simpl in H; [ | discriminate H ].
  destruct (_fit argsort recursion_limit self M y delta names None)
    as [t0 | ] eqn:Efit; [ | discriminate H ].
  exists M, names, t0.
  apply Nat.eqb_neq in L1. apply Nat.eqb_eq in L2.
  repeat split; try assumption.
  destruct prune_after; [ exact H | congruence ].
Qed.

Lemma fit_new_node_facts pp pr lvl X y delta prune_after feature_names
    (t : node Dist) :
  fit argsort recursion_limit (new_node pp pr lvl) X y delta prune_after
    feature_names = Ok t ->
  exists M names,
    _normalize_data_and_feature_names X feature_names = Ok (M, names) /\
    nrows M = length y /\
    well_formed (ncols M) t /\
    n_dim t = Some (ncols M) /\
    n_data t = Some (nrows M) /\
    laid_out names delta t /\
    level t = lvl /\ partition_prior t = pp /\ prior t = pr /\
    (argsort_permutes argsort -> trained argsort M (seq 0 (nrows M)) t).
Proof.
  intro H. apply fit_inv in H.
  destruct H as (M & names & t0 & _ & _ & _ & HX & _ & Hrows & Hfit & Hprune).
  exists M, names. split; [ exact HX | ]. split; [ exact Hrows | ].
  destruct (@_fit_well_formed _ argsort recursion_limit _ M y delta names None t0
              (new_node_leaf_state pp pr lvl) Hfit) as (W0 & D0).
  destruct (@_fit_laid_out _ argsort recursion_limit _ M y delta names None t0
              (new_node_leaf_state pp pr lvl) Hfit) as (L0 & A0 & B0 & C0).
  assert (N0 : n_data t0 = Some (nrows M)).
  { destruct recursion_limit as [ | fuel ]; [ discriminate Hfit | ].
    pose proof Hfit as Hinv. apply _fit_inv in Hinv.
    destruct Hinv as (n & sidx & row0 & y0 & b & i & d & Hn & _ & _ & _ & _ & Hcase).
    inversion Hn; subst n.
    destruct Hcase as [(_ & ->) | (_ & Hsplit)]; [ reflexivity | ].
    destruct Hsplit as (? & ? & ? & ? & ? & ? & ? & ? & ? & ? & ? & ? & ? & ?
                        & ? & ? & Hsplit).
    repeat (destruct Hsplit as (_ & Hsplit)). rewrite Hsplit. reflexivity. }
  assert (T0 : argsort_permutes argsort -> trained argsort M (seq 0 (nrows M)) t0).
  { intro Hperm.
    destruct recursion_limit as [ | fuel ]; [ discriminate Hfit | ].
    pose proof Hfit as Hinv. apply _fit_inv in Hinv.
    destruct Hinv as (n & sidx & row0 & y0 & b & i & d & _ & Hs & _).
    apply (@_fit_trained _ argsort (S fuel) (new_node pp pr lvl) M y delta names None sidx
             (seq 0 (nrows M)) t0).
    - exact Hs.
    - apply (@initial_sort_indices_consistent argsort M (seq 0 (ncols M)));
        assumption.
    - intros _. apply length_seq.
    - intro Hsorts. apply (@initial_sort_indices_sorted argsort M sidx); assumption.
    - apply new_node_leaf_state.
    - exact Hfit. }
  destruct prune_after.
  - unfold prune in Hprune.
    destruct (@_prune_well_formed _ _ _ _ _ Hprune W0) as (W & D & N & _).
    destruct (@_prune_root_fields _ _ _ _ _ Hprune W0) as (A & B & C).
    split; [ exact W | ].
    split; [ congruence | ]. split; [ congruence | ].
    split; [ eapply _prune_laid_out; eassumption | ].
    split; [ rewrite A, A0; reflexivity | ].
    split; [ rewrite B, B0; reflexivity | ].
    split; [ rewrite C, C0; reflexivity | ].
    intro Hperm. eapply _prune_trained; eauto.
  - subst t0. repeat split; assumption.
Qed.

End FitResults.

(** ** Fitted trees: shape, validation and queries *)

Section FittedTrees.

Context {F : ModelFamily}.
Variable argsort : list Q -> list nat.
Variable recursion_limit : nat.

(** X1 (shape of a fitted tree): the tree that [fit] returns on a freshly
    constructed estimator is well formed for the number of columns of the
    training matrix: every node has a posterior, a node without split value
    has no children, and a node with a split value has both children, a
    split dimension among the columns and a recorded likelihood that is
    strictly above the recorded no-split likelihood.  Its root records the
    number of columns as [n_dim] and the number of rows, which is the number
    of targets, as [n_data]. *)
Theorem fit_returns_well_formed_tree pp pr lvl X M y delta prune_after
    feature_names names (t : node Dist) :
  _normalize_data_and_feature_names X feature_names = Ok (M, names) ->
  fit argsort recursion_limit (new_node pp pr lvl) X y delta prune_after
    feature_names = Ok t ->
  well_formed (ncols M) t /\
  n_dim t = Some (ncols M) /\
  n_data t = Some (nrows M) /\
  nrows M = length y.
Proof.
  intros HX H.
  apply fit_new_node_facts in H.
  destruct H as (M' & names' & HX' & Hrows & W & D & N & _).
  rewrite HX in HX'. inversion HX'; subst M' names'. auto.
Qed.

(** X2 (what [fit] insists on): [fit] returns a tree only if [_check_target]
    accepts the targets, neither of the two comparisons of the range check,
    [delta < 0.0] and [delta > 1.0], holds (a [delta] that is a number then
    lies in [0, 1]), [X] normalizes to a matrix with one row per target and
    at least one column, there is not exactly one target (on which [len(y)]
    raises after the squeeze), and the recursion limit is not zero. *)
Theorem fit_accepts_only_valid_input (self : node Dist) X y delta prune_after
    feature_names t :
  fit argsort recursion_limit self X y delta prune_after feature_names = Ok t ->
  check_target y = Ok tt /\
  ~ (delta < 0)%Q /\
  ~ (1 < delta)%Q /\
  length y <> 1 /\
  0 < recursion_limit /\
  exists M names,
    _normalize_data_and_feature_names X feature_names = Ok (M, names) /\
    nrows M = length y /\
    0 < ncols M.
Proof.
  intro H. apply fit_inv in H.
  destruct H as (M & names & t0 & Hct & D0 & D1 & HX & Hy & Hrows & Hfit & _).
  apply Qltb_false in D0. apply Qltb_false in D1.
  split; [ exact Hct | ].
  split; [ apply Qle_not_lt; exact D0 | ].
  split; [ apply Qle_not_lt; exact D1 | ].
  split; [ exact Hy | ].
  destruct recursion_limit as [ | fuel ]; [ discriminate Hfit | ].
  split; [ lia | ].
  exists M, names. split; [ exact HX | ]. split; [ exact Hrows | ].
  apply _fit_inv in Hfit.
  destruct Hfit as (n & sidx & row0 & y0 & b & i & d & _ & Hs & Hr0 & _).
  simpl in Hs.
  destruct (@initial_sort_indices_rows argsort M (seq 0 (ncols M)) sidx Hs 0 row0 Hr0)
    as (dim & _ & Hlt & _).
  lia.
Qed.

(** X12 (wrong number of columns): on a fitted tree, a query whose number of
    columns differs from the tree's [n_dim] makes [predict] and
    [prediction_paths] raise the 'Bad input dimensions' [ValueError] of
    [_ensure_is_fitted]. *)
Theorem queries_reject_wrong_width (t : node Dist) X M names d :
  fitted_tree argsort recursion_limit t ->
  _normalize_data_and_feature_names X None = Ok (M, names) ->
  n_dim t = Some d ->
  ncols M <> d ->
  predict t X = Raise BadInputDimensions /\
  prediction_paths t X = Raise BadInputDimensions.
Proof.
  intros Hfit HX Hd Hne.
  destruct (fitted_tree_well_formed Hfit) as (d' & p & _ & Hp & _).
  apply Nat.eqb_neq in Hne.
  unfold predict, prediction_paths. rewrite HX.
  unfold _ensure_is_fitted. rewrite Hp, Hd, Hne. split; reflexivity.
Qed.

End FittedTrees.

(** ** Pruned trees *)

Section PrunedTrees.

Context {F : ModelFamily}.
Variable recursion_limit : nat.

(** X17 (a pruned tree is fully pruned): in the tree that [prune] returns no
    split node is left whose two children are leaves with equal point
    predictions. *)
Theorem pruned_tree_has_no_mergeable_split d (t t' : node Dist) :
  well_formed d t ->
  prune recursion_limit t = Ok t' ->
  every_node (fun n => ~ mergeable n) t'.
Proof.
  intros W H. unfold prune in H. eapply _prune_no_mergeable; eassumption.
Qed.

(** X18 (pruning only removes): [prune] returns a well-formed tree with no
    more leaves than before, the very same tree when the number of leaves
    is unchanged, and leaves the root's [n_dim], [n_data], posterior and
    level as they were. *)
Theorem prune_only_removes_leaves d (t t' : node Dist) :
  well_formed d t ->
  prune recursion_limit t = Ok t' ->
  exists n n',
    get_n_leaves t = Ok n /\ get_n_leaves t' = Ok n' /\
    n' <= n /\ (n' = n -> t' = t) /\
    well_formed d t' /\
    n_dim t' = n_dim t /\ n_data t' = n_data t /\
    posterior t' = posterior t /\ level t' = level t.
Proof.
  intros W H. unfold prune in H.
  destruct (@_prune_well_formed _ _ _ _ _ H W) as (W' & D & N & P).
  destruct (@_prune_root_fields _ _ _ _ _ H W) as (L & _).
  exists (count_leaves t), (count_leaves t').
  split; [ apply (get_n_leaves_counts W) | ].
  split; [ apply (get_n_leaves_counts W') | ].
  destruct (@_prune_same_or_fewer _ _ _ _ _ H W) as [-> | Lt].
  - repeat split; auto.
  - repeat split; auto; lia.
Qed.

(** X19 (pruning returns): calls of [_prune] nest at most twice the number
    of leaves deep, so with a recursion limit of that size [prune] returns
    a tree. *)
Theorem prune_returns_within_recursion_limit d (t : node Dist) n :
  well_formed d t ->
  get_n_leaves t = Ok n ->
  2 * n <= recursion_limit + 1 ->
  exists t', prune recursion_limit t = Ok t'.
Proof.
  intros W Hn Hlimit. rewrite (get_n_leaves_counts W) in Hn.
  inversion Hn; subst n.
  unfold prune. eapply _prune_returns; eassumption.
Qed.

End PrunedTrees.

(** ** Depth, leaves and levels *)

Section Levels.

Context {F : ModelFamily}.

Lemma height_eq (t : node Dist) :
  height t =
    match split_value t with
    | None => 0
    | Some _ =>
        1 + Nat.max (match child1 t with Some c => height c | None => 0 end)
                    (match child2 t with Some c => height c | None => 0 end)
    end.
Proof.
  destruct t; reflexivity.
Qed.

Lemma _update_depth_height d names delta (t : node Dist) :
  well_formed d t ->
  laid_out names delta t ->
  forall n, _update_depth t n = Ok (Nat.max n (level t + height t)).
Proof.
  induction 1 as [ t Hp (Hsv & _ & _)
                 | t sv c1 c2 ns b Hp Hsv Hc1 Hc2 _ _ _ _ W1 IH1 W2 IH2 ];
    intros L n; rewrite _update_depth_eq, (is_leaf_fitted _ Hp), height_eq, Hsv.
  - rewrite Nat.add_0_r. reflexivity.
  - inversion L as [ ? Hsv' | ? sv' k1 k2 j name Hsv' Hk1 Hk2 Hj Hname Hnamed
                         Hl1 Hl2 Hpp1 Hpp2 Hpr U1 U2 ]; subst;
      [ congruence | ].
    rewrite Hc1 in Hk1. rewrite Hc2 in Hk2.
    inversion Hk1; inversion Hk2; subst k1 k2.
    rewrite Hc1, Hc2, (IH1 U1), (IH2 U2), Hl1, Hl2. f_equal. lia.
Qed.

Lemma height_bounds d (t : node Dist) :
  well_formed d t ->
  height t + 1 <= count_leaves t /\ count_leaves t <= 2 ^ height t.
Proof.
  induction 1 as [ t Hp (Hsv & _ & _)
                 | t sv c1 c2 ns b Hp Hsv Hc1 Hc2 _ _ _ _ W1 IH1 W2 IH2 ];
    rewrite height_eq, count_leaves_eq, Hsv.
  - simpl. lia.
  - rewrite Hc1, Hc2. destruct IH1 as (A1 & B1). destruct IH2 as (A2 & B2).
    split; [ lia | ].
    rewrite Nat.pow_succ_r'.
    assert (2 ^ height c1 <= 2 ^ Nat.max (height c1) (height c2))
      by (apply Nat.pow_le_mono_r; lia).
    assert (2 ^ height c2 <= 2 ^ Nat.max (height c1) (height c2))
      by (apply Nat.pow_le_mono_r; lia).
    lia.
Qed.

Lemma route_path_length d (t : node Dist) (x : nat -> Q) :
  well_formed d t -> length (route_path t x) <= height t.
Proof.
  induction 1 as [ t Hp (Hsv & _ & _)
                 | t sv c1 c2 ns b Hp Hsv Hc1 Hc2 _ _ _ _ W1 IH1 W2 IH2 ];
    rewrite route_path_eq, height_eq, Hsv.
  - simpl. lia.
  - rewrite Hc1, Hc2.
    destruct (Qgeb (x (Z.to_nat (split_dimension t))) sv); simpl; lia.
Qed.

Lemma prediction_paths_routes d (t : node Dist) X M names p :
  well_formed d t ->
  posterior t = Some p ->
  n_dim t = Some d ->
  _normalize_data_and_feature_names X None = Ok (M, names) ->
  ncols M = d ->
  prediction_paths t X =
    Ok (map (fun i => route_path t (data M i)) (seq 0 (nrows M))).
Proof.
  intros W Hp Hd HX Hcols. subst d.
  unfold prediction_paths. rewrite HX.
  unfold _ensure_is_fitted. rewrite Hp, Hd, Nat.eqb_refl. simpl.
  destruct (@_update_prediction_paths_spec _ (ncols M) t W M (seq 0 (nrows M))
              (repeat [] (nrows M)))
    as (h' & -> & Len & In' & _).
  - reflexivity.
  - rewrite length_seq. reflexivity.
  - apply seq_NoDup.
  - apply Forall_forall. intros r Hr. apply in_seq in Hr.
    rewrite repeat_length. lia.
  - rewrite repeat_length in Len. rewrite length_seq in In'.
    rewrite (take_ok [] h').
    + f_equal. apply map_ext_in. intros i Hi. apply in_seq in Hi.
      specialize (In' i ltac:(lia)). rewrite seq_nth in In' by lia.
      simpl in In'. rewrite In'.
      replace (nth i (repeat [] (nrows M)) []) with (@nil step); [ reflexivity | ].
      symmetry. apply nth_repeat.
    + apply Forall_forall. intros r Hr. apply in_seq in Hr. lia.
Qed.

Lemma every_node_impl (P Q' : node Dist -> Prop) d (t : node Dist) :
  well_formed d t ->
  every_node P t ->
  (forall n, P n -> Q' n) ->
  every_node Q' t.
Proof.
  induction 1 as [ t Hp (Hsv & Hk1 & Hk2)
                 | t sv c1 c2 ns b Hp Hsv Hc1 Hc2 _ _ _ _ W1 IH1 W2 IH2 ];
    rewrite !every_node_eq.
  - rewrite Hk1, Hk2. intros (H & _) HPQ. auto.
  - rewrite Hc1, Hc2. intros (H & H1 & H2) HPQ. auto.
Qed.

(** The layout seen from every node. *)
Lemma laid_out_every_node d names delta (t : node Dist) :
  well_formed d t ->
  laid_out names delta t ->
  every_node
    (fun n =>
       partition_prior n = partition_prior t /\
       (Qeq_bool delta 0 = true -> prior n = prior t) /\
       (forall c, child1 n = Some c \/ child2 n = Some c ->
                  level c = level n + 1) /\
       (split_value n <> None ->
        exists j name,
          split_dimension n = Z.of_nat j /\ j < d /\
          nth_error names j = Some name /\
          split_feature_name n = Some name)) t.
Proof.
  induction 1 as [ t Hp (Hsv & Hk1 & Hk2)
                 | t sv c1 c2 ns b Hp Hsv Hc1 Hc2 Hdim _ _ _ W1 IH1 W2 IH2 ];
    intros L; rewrite every_node_eq.
  - rewrite Hk1, Hk2. repeat split; auto.
    + intros c [H | H]; congruence.
    + intro H. contradiction.
  - inversion L as [ ? Hsv' | ? sv' k1 k2 j name Hsv' Hk1 Hk2 Hj Hname Hnamed
                         Hl1 Hl2 Hpp1 Hpp2 Hpr U1 U2 ]; subst;
      [ congruence | ].
    rewrite Hc1 in Hk1. rewrite Hc2 in Hk2.
    inversion Hk1; inversion Hk2; subst k1 k2.
    rewrite Hc1, Hc2. split; [ | split ].
    + repeat split; auto.
      * intros c [H | H]; congruence.
      * intros _. exists j, name. repeat split; auto. lia.
    + eapply every_node_impl; [ exact W1 | exact (IH1 U1) | ].
      cbv beta. intros n (A & B & C & D). repeat split; auto.
      * congruence.
      * intro E. destruct (Hpr E) as (E1 & _). rewrite (B E). exact E1.
    + eapply every_node_impl; [ exact W2 | exact (IH2 U2) | ].
      cbv beta. intros n (A & B & C & D). repeat split; auto.
      * congruence.
      * intro E. destruct (Hpr E) as (_ & E2). rewrite (B E). exact E2.
Qed.

End Levels.

Section FittedLevels.

Context {F : ModelFamily}.
Variable argsort : list Q -> list nat.
Variable recursion_limit : nat.

(** X14 (depth and leaves): on a fitted tree [get_depth] returns the level
    of the root plus the largest number of splits between the root and a
    leaf, [get_n_leaves] returns the number of leaves, and a tree of that
    height has more leaves than its height and at most two to the power of
    its height. *)
Theorem depth_and_leaves_of_fitted_tree (t : node Dist) :
  fitted_tree argsort recursion_limit t ->
  get_depth t = Ok (level t + height t) /\
  get_n_leaves t = Ok (count_leaves t) /\
  height t + 1 <= count_leaves t /\
  count_leaves t <= 2 ^ height t.
Proof.
  intros (pp & pr & lvl & X & y & delta & prune_after & names & H).
  apply fit_new_node_facts in H.
  destruct H as (M & names' & _ & _ & W & _ & _ & L & _).
  split; [ | split ].
  - unfold get_depth. rewrite (_update_depth_height W L). reflexivity.
  - apply (get_n_leaves_counts W).
  - apply (height_bounds W).
Qed.

(** X13 (paths and depth): on a fitted tree every path returned by
    [prediction_paths] has at most as many steps as the depth returned by
    [get_depth] lies below the level of the root. *)
Theorem prediction_paths_no_longer_than_depth (t : node Dist) X paths :
  fitted_tree argsort recursion_limit t ->
  prediction_paths t X = Ok paths ->
  exists depth,
    get_depth t = Ok depth /\
    Forall (fun p => level t + length p <= depth) paths.
Proof.
  intros (pp & pr & lvl & X0 & y & delta & prune_after & names & H) Hpaths.
  apply fit_new_node_facts in H.
  destruct H as (M0 & names' & _ & _ & W & D & _ & L & _).
  exists (level t + height t).
  split; [ unfold get_depth; rewrite (_update_depth_height W L); reflexivity | ].
  assert (Hp : exists p, posterior t = Some p).
  { destruct (posterior t) as [p | ] eqn:E; [ eauto | ].
    inversion W; contradiction. }
  destruct Hp as (p & Hp).
  pose proof Hpaths as Hq. unfold prediction_paths in Hq.
  destruct (_normalize_data_and_feature_names X None) as [[M nm] | ] eqn:HX;
    [ | discriminate Hq ].
  unfold _ensure_is_fitted in Hq. rewrite Hp, D in Hq.
  destruct (ncols M =? ncols M0) eqn:Ecols; simpl in Hq; [ | discriminate Hq ].
  apply Nat.eqb_eq in Ecols.
  rewrite (@prediction_paths_routes _ (ncols M0) t X M nm p W Hp D HX Ecols) in Hpaths.
  inversion Hpaths; subst paths.
  apply Forall_forall. intros q Hq'. apply in_map_iff in Hq'.
  destruct Hq' as (i & <- & _).
  assert (B := @route_path_length _ (ncols M0) t (data M i) W). lia.
Qed.

(** X7 (feature names): in the tree that [fit] returns on a fresh
    estimator, the feature name of every split node is the entry of the
    normalized feature names at the node's split dimension, which is a
    column of the training matrix; without given names and for an input
    that is not a DataFrame this is ["x"] followed by the dimension. *)
Theorem split_feature_names_follow_dimensions pp pr lvl X M y delta prune_after
    feature_names names (t : node Dist) :
  _normalize_data_and_feature_names X feature_names = Ok (M, names) ->
  fit argsort recursion_limit (new_node pp pr lvl) X y delta prune_after
    feature_names = Ok t ->
  every_node
    (fun n =>
       split_value n <> None ->
       exists j name,
         split_dimension n = Z.of_nat j /\ j < ncols M /\
         nth_error names j = Some name /\
         split_feature_name n = Some name /\
         (feature_names = None ->
          (forall columns values, X <> DataFrame columns values) ->
          name = String.append "x" (string_of_nat j))) t.
Proof.
  intros HX H. apply fit_new_node_facts in H.
  destruct H as (M' & names' & HX' & _ & W & _ & _ & L & _).
  rewrite HX in HX'. inversion HX'; subst M' names'.
  eapply every_node_impl; [ exact W | exact (laid_out_every_node W L) | ].
  cbv beta. intros n (_ & _ & _ & Hn) Hsv.
  destruct (Hn Hsv) as (j & name & Hj & Hlt & Hname & Hsplit).
  exists j, name. repeat split; auto.
  intros -> Hframe.
  assert (E : names = default_feature_names (ncols M)).
  { destruct X as [x | dt elems | A | dt shape | columns values ].
    - inversion HX. reflexivity.
    - inversion HX. reflexivity.
    - inversion HX. reflexivity.
    - unfold _normalize_data_and_feature_names in HX.
      destruct (nth_error shape 1); discriminate HX.
    - exfalso. apply (Hframe columns values). reflexivity. }
  subst names. unfold default_feature_names in Hname.
  rewrite nth_error_map, nth_error_seq in Hname.
  replace (j <? ncols M) with true in Hname by (symmetry; apply Nat.ltb_lt; lia).
  simpl in Hname. inversion Hname. reflexivity.
Qed.

(** X6 (what children inherit): in the tree that [fit] returns on a fresh
    estimator, every node carries the estimator's partition prior, the
    children of every split node sit one level below it, and when [delta]
    is 0 every node carries the estimator's prior. *)
Theorem children_inherit_settings pp pr lvl X y delta prune_after
    feature_names (t : node Dist) :
  fit argsort recursion_limit (new_node pp pr lvl) X y delta prune_after
    feature_names = Ok t ->
  level t = lvl /\
  every_node
    (fun n =>
       partition_prior n = pp /\
       ((delta == 0)%Q -> prior n = pr) /\
       (forall c, child1 n = Some c \/ child2 n = Some c ->
                  level c = level n + 1)) t.
Proof.
  intro H. apply fit_new_node_facts in H.
  destruct H as (M & names & _ & _ & W & _ & _ & L & A & B & C & _).
  split; [ exact A | ].
  eapply every_node_impl; [ exact W | exact (laid_out_every_node W L) | ].
  cbv beta. intros n (Hpp & Hpr & Hlvl & _). repeat split.
  - congruence.
  - intro E. apply Qeq_eq_bool in E. rewrite (Hpr E). exact C.
  - exact Hlvl.
Qed.

End FittedLevels.

(** ** Rows and nodes *)

Section Rows.

Context {F : ModelFamily}.
Variable argsort : list Q -> list nat.

Lemma trained_leaves X active (t : node Dist) :
  trained argsort X active t ->
  count_leaves t <= Nat.max 1 (length active).
Proof.
  induction 1 as [ active t Hsv Hn
                 | active t sv c1 c2 r1 r2 j Hsv Hc1 Hc2 Hn Hj Hjd Hperm Hr1 Hr2
                     Hsep U1 IH1 U2 IH2 ];
    rewrite count_leaves_eq, Hsv.
  - lia.
  - rewrite Hc1, Hc2. rewrite <- (Permutation_length Hperm), length_app.
    destruct r1; [ contradiction | ]. destruct r2; [ contradiction | ].
    simpl in *. lia.
Qed.

Lemma trained_nodes_populated d X active (t : node Dist) :
  well_formed d t ->
  trained argsort X active t ->
  active <> [] ->
  every_node (fun n => exists m, n_data n = Some m /\ 0 < m) t.
Proof.
  intro W. revert active.
  induction W as [ t Hp (Hsv & Hk1 & Hk2)
                 | t sv c1 c2 ns b Hp Hsv Hc1 Hc2 _ _ _ _ W1 IH1 W2 IH2 ];
    intros active U Hne; rewrite every_node_eq.
  - rewrite Hk1, Hk2. split; [ | auto ].
    exists (length active).
    split; [ inversion U; subst; assumption | ].
    destruct active; [ contradiction | simpl; lia ].
  - inversion U as [ ? ? Hsv' | ? ? sv' k1 k2 r1 r2 j Hsv' Hk1 Hk2 Hn Hj Hjd
                         Hperm Hr1 Hr2 Hsep U1 U2 ]; subst;
      [ congruence | ].
    rewrite Hc1 in Hk1. rewrite Hc2 in Hk2.
    inversion Hk1; inversion Hk2; subst k1 k2.
    rewrite Hc1, Hc2. split; [ | split ].
    + exists (length active). split; [ exact Hn | ].
      destruct active; [ contradiction | simpl; lia ].
    + apply (IH1 r1); assumption.
    + apply (IH2 r2); assumption.
Qed.

Lemma counts_routed_rows_eq (X : ndarray) (t : node Dist) (rows : list nat) :
  counts_routed_rows X t rows =
    (n_data t = Some (length rows) /\
     match split_value t with
     | None => True
     | Some sv =>
         let j := Z.to_nat (split_dimension t) in
         match child1 t with
         | Some c =>
             counts_routed_rows X c (filter (fun i => Qltb (data X i j) sv) rows)
         | None => False
         end /\
         match child2 t with
         | Some c =>
             counts_routed_rows X c (filter (fun i => Qgeb (data X i j) sv) rows)
         | None => False
         end
     end).
Proof.
  destruct t; reflexivity.
Qed.

Lemma trained_counts_routed X active (t : node Dist) :
  exact_dtype (dtype X) ->
  argsort_sorts argsort ->
  trained argsort X active t ->
  forall rows, Permutation active rows -> counts_routed_rows X t rows.
Proof.
  intros Hexact Hsorts.
  induction 1 as [ active t Hsv Hn
                 | active t sv c1 c2 r1 r2 j Hsv Hc1 Hc2 Hn Hj Hjd Hperm Hr1 Hr2
                     Hsep U1 IH1 U2 IH2 ];
    intros rows Hrows; rewrite counts_routed_rows_eq, Hsv.
  - split; [ | exact I ]. rewrite <- (Permutation_length Hrows). exact Hn.
  - split; [ rewrite <- (Permutation_length Hrows); exact Hn | ].
    rewrite Hc1, Hc2, Hj, Nat2Z.id. cbv zeta.
    destruct (Hsep Hexact Hsorts) as (Lo & Hi).
    assert (P : Permutation (r1 ++ r2) rows)
      by (apply (Permutation_trans Hperm Hrows)).
    split.
    + apply IH1.
      apply (Permutation_filter_compat (fun i => Qltb (data X i j) sv)) in P.
      rewrite filter_app in P.
      rewrite (@filter_all _ _ r1), (@filter_none _ _ r2), app_nil_r in P.
      * exact P.
      * intros i Hin. apply Qltb_false. apply Qlt_le_weak. apply Hi. exact Hin.
      * intros i Hin. apply Qltb_true. apply Lo. exact Hin.
    + apply IH2.
      apply (Permutation_filter_compat (fun i => Qgeb (data X i j) sv)) in P.
      rewrite filter_app in P.
      rewrite (@filter_none _ _ r1), (@filter_all _ _ r2) in P.
      * exact P.
      * intros i Hin. apply Qgeb_true. apply Qlt_le_weak. apply Hi. exact Hin.
      * intros i Hin. unfold Qgeb. apply negb_false_iff.
        apply Qltb_true. apply Lo. exact Hin.
Qed.

End Rows.

Section FittedRows.

Context {F : ModelFamily}.
Variable argsort : list Q -> list nat.
Variable recursion_limit : nat.

(** X8 (leaves and rows): when [argsort] returns a rearrangement of the
    row numbers, the tree that [fit] returns on a fresh estimator has at
    most as many leaves as the training matrix has rows (one leaf for an
    empty matrix), and when there is a row, every node holds at least
    one. *)
Theorem leaves_bounded_by_training_rows pp pr lvl X M y delta prune_after
    feature_names names (t : node Dist) :
  argsort_permutes argsort ->
  _normalize_data_and_feature_names X feature_names = Ok (M, names) ->
  fit argsort recursion_limit (new_node pp pr lvl) X y delta prune_after
    feature_names = Ok t ->
  exists n,
    get_n_leaves t = Ok n /\
    n <= Nat.max 1 (nrows M) /\
    (nrows M <> 0 ->
     every_node (fun k => exists m, n_data k = Some m /\ 0 < m) t).
Proof.
  intros Hperm HX H. apply fit_new_node_facts in H.
  destruct H as (M' & names' & HX' & _ & W & _ & _ & _ & _ & _ & _ & T).
  rewrite HX in HX'. inversion HX'; subst M' names'.
  specialize (T Hperm).
  exists (count_leaves t).
  split; [ apply (get_n_leaves_counts W) | ].
  split.
  - assert (B := trained_leaves T). rewrite length_seq in B. exact B.
  - intro Hne. apply (trained_nodes_populated W T).
    destruct (nrows M); [ contradiction | discriminate ].
Qed.

(** X10 (training counts and routing agree): on a floating dtype, on
    training entries that are integers of magnitude at most 2^22, whose
    sums and midpoints float arithmetic computes exactly, and with an
    [argsort] that sorts, every node of the tree that [fit] returns on a
    fresh estimator has as its [n_data] the number of training rows that
    the comparisons of prediction send through it: all rows at the root,
    and from a split node the rows below the split value into child1 and
    the others into child2. *)
Theorem n_data_counts_routed_training_rows pp pr lvl X M y delta prune_after
    feature_names names (t : node Dist) :
  argsort_permutes argsort ->
  argsort_sorts argsort ->
  _normalize_data_and_feature_names X feature_names = Ok (M, names) ->
  exact_dtype (dtype M) ->
  small_integers M ->
  fit argsort recursion_limit (new_node pp pr lvl) X y delta prune_after
    feature_names = Ok t ->
  counts_routed_rows M t (seq 0 (nrows M)).
Proof.
  intros Hperm Hsorts HX Hexact _ H. apply fit_new_node_facts in H.
  destruct H as (M' & names' & HX' & _ & W & _ & _ & _ & _ & _ & _ & T).
  rewrite HX in HX'. inversion HX'; subst M' names'.
  apply (trained_counts_routed Hexact Hsorts (T Hperm)).
  apply Permutation_refl.
Qed.

End FittedRows.

(** ** Feature importance, entry by entry *)

Section ImportanceEntries.

Context {F : ModelFamily}.
Variable argsort : list Q -> list nat.
Variable recursion_limit : nat.

Lemma uses_dimension_eq (t : node Dist) (j : nat) :
  uses_dimension t j =
    match split_value t with
    | None => false
    | Some _ =>
        (split_dimension t =? Z.of_nat j)%Z
        || match child1 t with Some c => uses_dimension c j | None => false end
        || match child2 t with Some c => uses_dimension c j | None => false end
    end.
Proof.
  destruct t; reflexivity.
Qed.

Lemma add_at_entry (a : list Q) (k : Z) (v : Q) :
  (0 <= k < Z.of_nat (length a))%Z ->
  add_at a k v = Ok (set_nth a (Z.to_nat k) (nth (Z.to_nat k) a 0 + v)%Q).
Proof.
  intro Hk. unfold add_at.
  replace k with (Z.of_nat (Z.to_nat k)) at 1 by lia.
  assert (Hj : Z.to_nat k < length a) by lia.
  rewrite py_index_nat by exact Hj.
  rewrite (nth_error_nth' a 0%Q Hj). reflexivity.
Qed.

Lemma _update_feature_importance_entries d (t : node Dist) :
  well_formed d t ->
  forall fi,
  length fi = d ->
  exists fi',
    _update_feature_importance t fi = Ok fi' /\
    length fi' = d /\
    forall j, j < d ->
      (nth j fi 0 <= nth j fi' 0)%Q /\
      (uses_dimension t j = false -> nth j fi' 0%Q = nth j fi 0%Q) /\
      (uses_dimension t j = true -> (nth j fi 0 < nth j fi' 0)%Q).
Proof.
  induction 1 as [ t Hp (Hsv & _ & _)
                 | t sv c1 c2 ns b Hp Hsv Hc1 Hc2 Hdim Hns Hb Hgain W1 IH1 W2 IH2 ];
    intros fi Hlen.
  - rewrite _update_feature_importance_eq, (is_leaf_fitted _ Hp), Hsv.
    exists fi. split; [ reflexivity | ]. split; [ exact Hlen | ].
    intros j Hj. rewrite uses_dimension_eq, Hsv.
    split; [ apply Qle_refl | ]. split; [ reflexivity | discriminate ].
  - rewrite _update_feature_importance_eq, (is_leaf_fitted _ Hp), Hsv.
    rewrite Hb, Hns, Hc1, Hc2. cbn [of_option].
    assert (G : (0 < b - ns)%Q).
    { apply (Qplus_lt_l _ _ ns). ring_simplify. exact Hgain. }
    rewrite add_at_entry by (rewrite Hlen; exact Hdim).
    set (k := Z.to_nat (split_dimension t)).
    assert (Hk : k < length fi) by (unfold k; lia).
    set (fi0 := set_nth fi k (nth k fi 0 + (b - ns))%Q).
    assert (L0 : length fi0 = d) by (unfold fi0; rewrite set_nth_length; exact Hlen).
    destruct (IH1 fi0 L0) as (fi1 & -> & L1 & E1).
    destruct (IH2 fi1 L1) as (fi2 & -> & L2 & E2).
    exists fi2. split; [ reflexivity | ]. split; [ exact L2 | ].
    intros j Hj.
    destruct (E1 j Hj) as (A1 & B1 & C1).
    destruct (E2 j Hj) as (A2 & B2 & C2).
    assert (N0 : nth j fi0 0%Q = if j =? k then (nth k fi 0 + (b - ns))%Q
                                 else nth j fi 0%Q)
      by (unfold fi0; apply nth_set_nth; exact Hk).
    assert (A0 : (nth j fi 0 <= nth j fi0 0)%Q).
    { rewrite N0. destruct (j =? k) eqn:Ejk; [ | apply Qle_refl ].
      apply Nat.eqb_eq in Ejk. subst j.
      rewrite <- (Qplus_0_r (nth k fi 0%Q)) at 1.
      apply Qplus_le_r. apply Qlt_le_weak, G. }
    rewrite uses_dimension_eq, Hsv, Hc1, Hc2.
    split; [ | split ].
    + apply Qle_trans with (nth j fi0 0%Q); [ exact A0 | ].
      apply Qle_trans with (nth j fi1 0%Q); assumption.
    + intro U. apply orb_false_iff in U. destruct U as (U & U2).
      apply orb_false_iff in U. destruct U as (U0 & U1).
      rewrite (B2 U2), (B1 U1), N0.
      replace (j =? k) with false; [ reflexivity | ].
      symmetry. apply Nat.eqb_neq. intro E. subst j.
      apply Z.eqb_neq in U0. apply U0. unfold k. lia.
    + intro U. apply orb_true_iff in U. destruct U as [U | U2].
      * apply orb_true_iff in U. destruct U as [U0 | U1].
        -- apply Z.eqb_eq in U0.
           assert (Ejk : j = k) by (unfold k; lia). 
           apply Qlt_le_trans with (nth j fi0 0%Q).
           ++ rewrite N0. replace (j =? k) with true
                by (symmetry; apply Nat.eqb_eq; exact Ejk).
              subst j.
              rewrite <- (Qplus_0_r (nth k fi 0%Q)) at 1.
              apply Qplus_lt_r. exact G.
           ++ apply Qle_trans with (nth j fi1 0%Q); assumption.
        -- apply Qle_lt_trans with (nth j fi0 0%Q); [ exact A0 | ].
           apply Qlt_le_trans with (nth j fi1 0%Q); [ apply C1; exact U1 | exact A2 ].
      * apply Qle_lt_trans with (nth j fi1 0%Q).
        -- apply Qle_trans with (nth j fi0 0%Q); assumption.
        -- apply C2. exact U2.
Qed.

(** X15 (which features matter): on a fitted tree with at least one split,
    the importance of a feature is a finite number that is strictly
    positive when some split node splits on the feature and zero when none
    does. *)
Theorem feature_importance_marks_used_dimensions (t : node Dist) d j :
  fitted_tree argsort recursion_limit t ->
  n_dim t = Some d ->
  j < d ->
  split_value t <> None ->
  exists fi q,
    feature_importance t = Ok fi /\
    nth_error fi j = Some (finite q) /\
    (uses_dimension t j = true -> (0 < q)%Q) /\
    (uses_dimension t j = false -> (q == 0)%Q).
Proof.
  intros Hfit Hd Hj Hsv.
  destruct (fitted_tree_well_formed Hfit) as (d' & p & Hd' & Hp & W).
  assert (d' = d) by congruence. subst d'.
  assert (Z0 : Forall (fun x => (0 <= x)%Q) (repeat 0%Q d)).
  { apply Forall_forall. intros x Hx. apply repeat_spec in Hx. subst.
    apply Qle_refl. }
  destruct (@_update_feature_importance_spec _ d t W (repeat 0%Q d))
    as (fi & E & Len & _ & _ & Lt & _); [ apply repeat_length | exact Z0 | ].
  destruct (@_update_feature_importance_entries d t W (repeat 0%Q d))
    as (fi' & E' & _ & Ent); [ apply repeat_length | ].
  rewrite E in E'. inversion E'; subst fi'. clear E'.
  specialize (Lt Hsv). rewrite Qsum_repeat_0 in Lt.
  destruct (Ent j Hj) as (_ & Unused & Used).
  rewrite nth_repeat in Unused, Used.
  exists (map (fun x => true_divide x (Qsum fi)) fi), (nth j fi 0 / Qsum fi)%Q.
  split.
  { unfold feature_importance, _ensure_is_fitted. rewrite Hp, Hd.
    cbn [of_option]. rewrite E. reflexivity. }
  split.
  { rewrite nth_error_map, (nth_error_nth' fi 0%Q) by lia. simpl.
    unfold true_divide.
    destruct (Qeq_bool (Qsum fi) 0) eqn:E0; [ | reflexivity ].
    apply Qeq_bool_eq in E0. rewrite E0 in Lt.
    exfalso. exact (Qlt_irrefl _ Lt). }
  split.
  - intro U. apply Qlt_shift_div_l; [ exact Lt | ].
    rewrite Qmult_0_l. apply Used. exact U.
  - intro U. rewrite (Unused U). unfold Qdiv. ring.
Qed.

End ImportanceEntries.

(** ** Ties between candidate splits *)

Lemma argmax_from_first (a : list Q) :
  forall (pre : list Q) (best : Q) (bi : nat),
  nth_error pre bi = Some best ->
  (forall k c, k < bi -> nth_error pre k = Some c -> (c < best)%Q) ->
  (forall c, In c pre -> (c <= best)%Q) ->
  exists v,
    nth_error (pre ++ a) (argmax_from best bi (length pre) a) = Some v /\
    (forall k c, k < argmax_from best bi (length pre) a ->
                 nth_error (pre ++ a) k = Some c -> (c < v)%Q) /\
    (forall c, In c (pre ++ a) -> (c <= v)%Q).
Proof.
  induction a as [ | x a IH ]; intros pre best bi Hb Hlt Hle; simpl.
  - rewrite app_nil_r. exists best. auto.
  - assert (Hbi : bi < length pre) by (apply nth_error_Some; congruence).
    specialize (IH (pre ++ [x])).
    rewrite length_app in IH. simpl in IH. rewrite Nat.add_1_r in IH.
    rewrite <- app_assoc in IH. simpl in IH.
    destruct (Qltb best x) eqn:E.
    + apply Qltb_true in E. apply IH.
      * rewrite nth_error_app2, Nat.sub_diag by lia. reflexivity.
      * intros k c Hk Hc. rewrite nth_error_app1 in Hc by lia.
        apply nth_error_In in Hc.
        apply Qle_lt_trans with best; [ apply Hle; exact Hc | exact E ].
      * intros c Hc. apply in_app_or in Hc. destruct Hc as [Hc | [<- | []]].
        -- apply Qle_trans with best; [ apply Hle; exact Hc | ].
           apply Qlt_le_weak, E.
        -- apply Qle_refl.
    + apply Qltb_false in E. apply IH.
      * rewrite nth_error_app1 by lia. exact Hb.
      * intros k c Hk Hc. rewrite nth_error_app1 in Hc by lia.
        apply (Hlt k c Hk Hc).
      * intros c Hc. apply in_app_or in Hc. destruct Hc as [Hc | [<- | []]].
        -- apply Hle. exact Hc.
        -- exact E.
Qed.

(** [argmax] returns the first position of the largest entry. *)
Lemma argmax_first (a : list Q) (i : nat) :
  argmax a = Ok i ->
  exists before v after,
    a = before ++ v :: after /\ length before = i /\
    (forall c, In c before -> (c < v)%Q) /\
    (forall c, In c after -> (c <= v)%Q).
Proof.
  destruct a as [ | x a ]; simpl; intro H; [ discriminate H | ].
  inversion H as [Hi]. clear H.
  destruct (@argmax_from_first a [x] x 0) as (v & Hv & Hlt & Hle).
  - reflexivity.
  - intros k c Hk. lia.
  - intros c [<- | []]. apply Qle_refl.
  - simpl in Hv, Hlt, Hle.
    destruct (nth_error_split _ _ Hv) as (before & after & Ea & Elen).
    exists before, v, after.
    split; [ exact Ea | ]. split; [ exact Elen | ].
    split.
    + intros c Hc. destruct (In_nth_error _ _ Hc) as (k & Hk).
      assert (Lk : k < length before) by (apply nth_error_Some; congruence).
      apply (Hlt k c); [ lia | ].
      change (x :: a) with ([x] ++ a) in Ea. simpl in Ea. rewrite Ea.
      rewrite nth_error_app1 by exact Lk. exact Hk.
    + intros c Hc. apply (Hle c).
      change (In c (x :: a)). rewrite Ea. apply in_or_app. right. right. exact Hc.
Qed.

Lemma combine_app_same {A B} (l1 l2 : list A) (k1 k2 : list B) :
  length l1 = length k1 ->
  combine (l1 ++ l2) (k1 ++ k2) = combine l1 k1 ++ combine l2 k2.
Proof.
  revert k1. induction l1 as [ | x l1 IH ]; intros [ | y k1 ] H; simpl in *;
    try discriminate; [ reflexivity | ].
  f_equal. apply IH. lia.
Qed.

Section Ties.

Context {F : ModelFamily}.

Lemma search_dim_first (self : node Dist) X y n_dim sidx st0 dim st :
  search_dim self X y n_dim sidx st0 dim = Ok st ->
  exists cands,
    dim_candidate_splits self X y n_dim sidx dim = Ok cands /\
    first_maximum st0 st cands.
Proof.
  unfold search_dim, dim_candidate_splits. destruct st0 as [[b0 i0] d0].
  intro H.
  destruct (of_option (nth_error sidx dim) IndexError) as [row | ];
    [ | discriminate H ].
  destruct (candidate_split_indices X row dim) as [cidx | ]; [ | discriminate H ].
  destruct (length cidx =? 0).
  { inversion H; subst st. exists []. split; [ reflexivity | ].
    left. split; [ reflexivity | intros c [] ]. }
  destruct (split_log_likelihoods self y row cidx n_dim) as [log_p | ];
    [ | discriminate H ].
  destruct (argmax log_p) as [i_max | ] eqn:Emax; [ | discriminate H ].
  destruct (of_option (nth_error log_p i_max) IndexError) as [best | ] eqn:Ebest;
    [ | discriminate H ].
  apply of_option_ok in Ebest.
  eexists. split; [ reflexivity | ].
  destruct (argmax_first _ Emax) as (before & v & after & Ea & Elen & Hlt & Hle).
  assert (v = best).
  { rewrite Ea, nth_error_app2, Elen, Nat.sub_diag in Ebest by lia.
    inversion Ebest. reflexivity. }
  subst v.
  destruct (Qltb b0 best) eqn:Egt.
  - destruct (of_option (nth_error cidx i_max) IndexError) as [index | ] eqn:Eidx;
      [ | discriminate H ].
    apply of_option_ok in Eidx. inversion H; subst st. clear H.
    apply Qltb_true in Egt.
    destruct (nth_error_split _ _ Eidx) as (kbefore & kafter & Ek & Eklen).
    right.
    exists (map (fun '(l, k) => (l, Z.of_nat k, Z.of_nat dim)) (combine before kbefore)),
           (map (fun '(l, k) => (l, Z.of_nat k, Z.of_nat dim)) (combine after kafter)).
    split; [ | split; [ exact Egt | split ] ].
    + rewrite Ea, Ek.
      rewrite combine_app_same by congruence.
      rewrite map_app. reflexivity.
    + intros c Hc. apply in_map_iff in Hc. destruct Hc as ((l & k) & <- & Hin).
      apply in_combine_l in Hin. apply Hlt. exact Hin.
    + intros c Hc. apply in_map_iff in Hc. destruct Hc as ((l & k) & <- & Hin).
      apply in_combine_l in Hin. apply Hle. exact Hin.
  - inversion H; subst st. clear H. apply Qltb_false in Egt.
    left. split; [ reflexivity | ].
    intros c Hc. apply in_map_iff in Hc. destruct Hc as ((l & k) & <- & Hin).
    apply in_combine_l in Hin. unfold candidate_value. simpl.
    apply Qle_trans with best; [ | exact Egt ].
    rewrite Ea in Hin. apply in_app_or in Hin.
    destruct Hin as [Hin | [<- | Hin]].
    + apply Qlt_le_weak. apply Hlt. exact Hin.
    + apply Qle_refl.
    + apply Hle. exact Hin.
Qed.

(** X5 (ties between splits): the search over the dimensions stops at the
    first candidate split, in the order of the dimensions and within a
    dimension of the split positions, whose log-likelihood is the largest
    and lies strictly above the starting value; every candidate met before
    it is strictly smaller, and when no candidate lies above the starting
    value the search returns its starting state. *)
Theorem search_takes_first_maximum (self : node Dist) X y n_dim sidx dims :
  forall st0 st,
  search_dims self X y n_dim sidx st0 dims = Ok st ->
  exists cands,
    all_candidate_splits self X y n_dim sidx dims = Ok cands /\
    first_maximum st0 st cands.
Proof.
  induction dims as [ | dim dims IH ]; intros st0 st H; simpl in H.
  - inversion H; subst st. exists []. split; [ reflexivity | ].
    left. split; [ reflexivity | intros c [] ].
  - destruct (search_dim self X y n_dim sidx st0 dim) as [st1 | ] eqn:E1;
      [ | discriminate H ].
    destruct (search_dim_first _ _ _ _ _ _ _ E1) as (c1 & Ec1 & H1).
    destruct (IH _ _ H) as (cs & Ecs & H2).
    exists (c1 ++ cs). split; [ simpl; rewrite Ec1, Ecs; reflexivity | ].
    destruct H1 as [(-> & Hle1) | (b1 & a1 & -> & Hgt1 & Hlt1 & Hle1)];
      destruct H2 as [(-> & Hle2) | (b2 & a2 & -> & Hgt2 & Hlt2 & Hle2)].
    + left. split; [ reflexivity | ].
      intros c Hc. apply in_app_or in Hc. destruct Hc; auto.
    + right. exists (c1 ++ b2), a2.
      split; [ rewrite <- app_assoc; reflexivity | ].
      split; [ exact Hgt2 | ]. split; [ | exact Hle2 ].
      intros c Hc. apply in_app_or in Hc. destruct Hc as [Hc | Hc]; [ | auto ].
      apply Qle_lt_trans with (candidate_value st0); auto.
    + right. exists b1, (a1 ++ cs).
      split; [ rewrite <- app_assoc; reflexivity | ].
      split; [ exact Hgt1 | ]. split; [ exact Hlt1 | ].
      intros c Hc. apply in_app_or in Hc. destruct Hc; auto.
    + right. exists ((b1 ++ st1 :: a1) ++ b2), a2.
      split; [ rewrite <- !app_assoc; reflexivity | ].
      split; [ apply Qlt_trans with (candidate_value st1); assumption | ].
      split; [ | exact Hle2 ].
      intros c Hc. apply in_app_or in Hc. destruct Hc as [Hc | Hc]; [ | auto ].
      apply Qle_lt_trans with (candidate_value st1); [ | exact Hgt2 ].
      apply in_app_or in Hc. destruct Hc as [Hc | [<- | Hc]].
      * apply Qlt_le_weak. auto.
      * apply Qle_refl.
      * auto.
Qed.

End Ties.

(** ** [fit] returns *)

Lemma shape1_returns (rows : list (list nat)) (active : list nat) :
  rows <> [] ->
  Forall (fun r => Permutation r active) rows ->
  shape1 rows = Ok (length active).
Proof.
  intros Hne Hall. destruct rows as [ | r rows ]; [ contradiction | ].
  inversion Hall as [ | ? ? Hr Hrest ]; subst. simpl.
  replace (forallb (fun r' => length r' =? length r) rows) with true.
  - rewrite (Permutation_length Hr). reflexivity.
  - symmetry. apply forallb_forall. intros r' Hr'. apply Nat.eqb_eq.
    rewrite (Permutation_length Hr).
    apply Permutation_length.
    apply (proj1 (Forall_forall _ _) Hrest). exact Hr'.
Qed.

Lemma consistent_rows_bounded (n : nat) (active : list nat)
    (sidx : list (list nat)) :
  sort_indices_consistent n active sidx ->
  Forall (Forall (fun i => i < n)) sidx.
Proof.
  intros (_ & Hb & Hperm). apply Forall_forall. intros r Hr.
  apply Forall_forall. intros i Hi.
  apply (proj1 (Forall_forall _ _) Hb).
  apply (Permutation_in _ (proj1 (Forall_forall _ _) Hperm r Hr)). exact Hi.
Qed.

Lemma candidate_split_indices_returns (X : ndarray) (row : list nat) (dim : nat) :
  dim < ncols X ->
  Forall (fun i => i < nrows X) row ->
  exists cidx, candidate_split_indices X row dim = Ok cidx.
Proof.
  intros Hd Hrow. unfold candidate_split_indices, column_at.
  replace (dim <? ncols X) with true by (symmetry; apply Nat.ltb_lt; exact Hd).
  replace (forallb (fun i => i <? nrows X) row) with true.
  - eexists. reflexivity.
  - symmetry. apply forallb_forall. intros i Hi. apply Nat.ltb_lt.
    apply (proj1 (Forall_forall _ _) Hrow). exact Hi.
Qed.

(** A candidate split position leaves rows on both sides. *)
Lemma candidate_split_bounds (X : ndarray) (row : list nat) (dim k : nat)
    (cidx : list nat) :
  candidate_split_indices X row dim = Ok cidx ->
  In k cidx ->
  0 < k < length row.
Proof.
  intros H Hk. unfold candidate_split_indices, column_at in H.
  destruct (dim <? ncols X); [ | discriminate ].
  destruct (forallb _ row); [ | discriminate ].
  inversion H; subst cidx. clear H.
  apply in_map_iff in Hk. destruct Hk as (m & <- & Hm).
  apply np_where_bound in Hm.
  rewrite length_map, np_diff_length, length_map in Hm. lia.
Qed.

Section FitReturns.

Context {F : ModelFamily}.
Variable argsort : list Q -> list nat.

Lemma search_dim_returns (self : node Dist) X y n_dim sidx st0 dim row :
  one_likelihood_per_split ->
  nth_error sidx dim = Some row ->
  dim < ncols X ->
  Forall (fun i => i < nrows X) row ->
  length y = nrows X ->
  exists st, search_dim self X y n_dim sidx st0 dim = Ok st.
Proof.
  intros Hfam Hrow Hd Hb Hy. unfold search_dim. destruct st0 as [[b0 i0] d0].
  rewrite Hrow. cbn [of_option].
  destruct (@candidate_split_indices_returns X row dim Hd Hb) as (cidx & ->).
  destruct (length cidx =? 0) eqn:E0; [ eexists; reflexivity | ].
  apply Nat.eqb_neq in E0.
  unfold split_log_likelihoods.
  rewrite (@take_ok _ 0%Q y row) by (rewrite Hy; exact Hb).
  set (log_p := compute_log_p_data_split _ _ _ _ cidx n_dim).
  assert (Hlen : length log_p = length cidx) by apply Hfam.
  destruct (argmax log_p) as [i_max | e] eqn:Emax.
  - destruct (@argmax_spec log_p i_max Emax) as (v & Hv & _).
    rewrite Hv. cbn [of_option].
    destruct (Qltb b0 v); [ | eexists; reflexivity ].
    assert (Li : i_max < length cidx).
    { rewrite <- Hlen. apply nth_error_Some. congruence. }
    rewrite (nth_error_nth' cidx 0 Li). cbn [of_option].
    eexists. reflexivity.
  - exfalso. destruct log_p; [ simpl in Hlen; lia | discriminate Emax ].
Qed.

Lemma search_dims_returns (self : node Dist) X y n_dim sidx dims :
  one_likelihood_per_split ->
  (forall dim, In dim dims ->
     dim < ncols X /\
     exists row, nth_error sidx dim = Some row /\
                 Forall (fun i => i < nrows X) row) ->
  length y = nrows X ->
  forall st0, exists st, search_dims self X y n_dim sidx st0 dims = Ok st.
Proof.
  intros Hfam Hdims Hy.
  induction dims as [ | dim dims IH ]; intro st0; simpl.
  - eexists. reflexivity.
  - destruct (Hdims dim (or_introl eq_refl)) as (Hd & row & Hrow & Hb).
    destruct (@search_dim_returns self X y n_dim sidx st0 dim row Hfam Hrow Hd Hb Hy)
      as (st1 & ->).
    apply IH. intros dim' Hin. apply Hdims. right. exact Hin.
Qed.

Lemma select_active_all_length (act : list bool) (sidx s1 : list (list nat)) :
  select_active_all act sidx = Ok s1 -> length s1 = length sidx.
Proof.
  revert s1. induction sidx as [ | si sidx IH ]; intros s1 H; simpl in H.
  - inversion H. reflexivity.
  - bind_inv_all. inversion H. simpl. f_equal. apply IH. reflexivity.
Qed.

Lemma _fit_returns fuel :
  forall (self : node Dist) X y delta names sidx0 sidx active,
  one_likelihood_per_split ->
  active_sort_indices argsort X sidx0 = Ok sidx ->
  sort_indices_consistent (nrows X) active sidx ->
  length sidx = ncols X ->
  0 < ncols X ->
  length y = nrows X ->
  ncols X <= length names ->
  length active <= fuel ->
  0 < fuel ->
  exists t, _fit argsort fuel self X y delta names sidx0 = Ok t.
Proof.
  induction fuel as [ | fuel IH ];
    intros self X y delta names sidx0 sidx active Hfam Hs Hcons Hlen Hcols Hy
      Hnames Hfuel Hpos.
  - lia.
  - assert (Hbound := @consistent_rows_bounded (nrows X) active sidx Hcons).
    assert (Hne : sidx <> []) by (intro E; rewrite E in Hlen; simpl in Hlen; lia).
    assert (Hn : exists n,
               match sidx0 with Some s => shape1 s | None => Ok (nrows X) end = Ok n).
    { destruct sidx0 as [s | ]; [ | eexists; reflexivity ].
      simpl in Hs. inversion Hs; subst s.
      exists (length active). apply shape1_returns; [ exact Hne | apply Hcons ]. }
    destruct Hn as (n & Hn).
    cbn [_fit]. rewrite Hn.
    unfold active_sort_indices in Hs. rewrite Hs.
    destruct (nth_error sidx 0) as [row0 | ] eqn:Hr0;
      [ | apply nth_error_None in Hr0; lia ].
    cbn [of_option].
    assert (B0 : Forall (fun i => i < nrows X) row0).
    { apply (proj1 (Forall_forall _ _) Hbound). eapply nth_error_In. exact Hr0. }
    rewrite (@take_ok _ 0%Q y row0) by (rewrite Hy; exact B0).
    assert (Hdims : forall dim, In dim (seq 0 (ncols X)) ->
               dim < ncols X /\
               exists row, nth_error sidx dim = Some row /\
                           Forall (fun i => i < nrows X) row).
    { intros dim Hin. apply in_seq in Hin. split; [ lia | ].
      destruct (nth_error sidx dim) as [row | ] eqn:Hrow;
        [ | apply nth_error_None in Hrow; lia ].
      exists row. split; [ reflexivity | ].
      apply (proj1 (Forall_forall _ _) Hbound). eapply nth_error_In. exact Hrow. }
    match goal with
    | |- context [search_dims self X y (ncols X) sidx ?s0 (seq 0 (ncols X))] =>
        destruct (@search_dims_returns self X y (ncols X) sidx (seq 0 (ncols X))
                    Hfam Hdims Hy s0) as (st & Hst)
    end.
    rewrite Hst. destruct st as [[b i] d].
    destruct (0 <? i)%Z eqn:Hi; [ | eexists; reflexivity ].
    apply Z.ltb_lt in Hi.
    apply search_dims_index in Hst.
    destruct Hst as [(-> & _) | (dim & row & cidx & Hdim & -> & Hrow & Hcand & Hk)];
      [ lia | ].
    rewrite Nat2Z.id in *. rewrite Hrow. cbn [of_option].
    set (k := Z.to_nat i) in *.
    apply in_seq in Hdim.
    destruct (@candidate_split_bounds X row dim k cidx Hcand Hk) as (K1 & K2).
    assert (Brow : Forall (fun i => i < nrows X) row).
    { apply (proj1 (Forall_forall _ _) Hbound). eapply nth_error_In. exact Hrow. }
    assert (Prow : Permutation row active).
    { destruct Hcons as (_ & _ & Hperm).
      apply (proj1 (Forall_forall _ _) Hperm).
      apply nth_error_In with dim. exact Hrow. }
    assert (Nrow : NoDup row).
    { apply (Permutation_NoDup (Permutation_sym Prow)). apply Hcons. }
    destruct (filter_mem_firstn_skipn k Nrow) as (F1 & F2).
    assert (N12 : NoDup (firstn k row ++ skipn k row))
      by (rewrite firstn_skipn; exact Nrow).
    assert (I1 : incl (firstn k row) row).
    { intros x Hx. rewrite <- (firstn_skipn k row).
      apply in_or_app. left. exact Hx. }
    assert (I2 : incl (skipn k row) row).
    { intros x Hx. rewrite <- (firstn_skipn k row).
      apply in_or_app. right. exact Hx. }
    assert (B1 : Forall (fun i => i < nrows X) (firstn k row)).
    { apply Forall_forall. intros x Hx.
      apply (proj1 (Forall_forall _ _) Brow). apply I1. exact Hx. }
    assert (B2 : Forall (fun i => i < nrows X) (skipn k row)).
    { apply Forall_forall. intros x Hx.
      apply (proj1 (Forall_forall _ _) Brow). apply I2. exact Hx. }
    assert (Side : forall idx,
               NoDup idx -> incl idx row ->
               filter (fun s => mem s idx) row = idx ->
               exists act s,
                 put_const (repeat false (nrows X)) idx true = Ok act /\
                 select_active_all act sidx = Ok s /\
                 sort_indices_consistent (nrows X) idx s /\
                 length s = ncols X /\
                 shape1 s = Ok (length idx)).
    { intros idx Nidx Iidx Fidx.
      assert (Bidx : Forall (fun i => i < nrows X) idx).
      { apply Forall_forall. intros x Hx.
        apply (proj1 (Forall_forall _ _) Brow). apply Iidx. exact Hx. }
      destruct (put_const (repeat false (nrows X)) idx true) as [act | e] eqn:Ha.
      2:{ rewrite put_const_true in Ha by (rewrite repeat_length; exact Bidx).
          discriminate Ha. }
      destruct (@active_mask (nrows X) idx act Bidx Ha) as (La & _).
      destruct (select_active_all act sidx) as [s | e] eqn:Hsel.
      2:{ rewrite select_active_all_filter in Hsel by (rewrite La; exact Hbound).
          discriminate Hsel. }
      assert (C : sort_indices_consistent (nrows X) idx s)
        by (apply (@child_sort_indices (nrows X) active sidx row idx act s); auto).
      assert (Ls : length s = ncols X)
        by (rewrite (@select_active_all_length act sidx s Hsel); exact Hlen).
      exists act, s. repeat split; try assumption; try apply C.
      apply shape1_returns; [ | apply C ].
      intro E. rewrite E in Ls. simpl in Ls. lia. }
    destruct (Side (firstn k row) (NoDup_app_remove_r _ _ N12) I1 F1)
      as (a1 & s1 & -> & -> & C1 & L1 & ->).
    destruct (Side (skipn k row) (NoDup_app_remove_l _ _ N12) I2 F2)
      as (a2 & s2 & -> & -> & C2 & L2 & ->).
    rewrite (@take_ok _ 0%Q y (firstn k row)) by (rewrite Hy; exact B1).
    rewrite (@take_ok _ 0%Q y (skipn k row)) by (rewrite Hy; exact B2).
    destruct (nth_error names dim) as [name | ] eqn:Hname;
      [ | apply nth_error_None in Hname; lia ].
    cbn [of_option].
    destruct (nth_error (firstn k row) (length (firstn k row) - 1))
      as [last1 | ] eqn:Hl1;
      [ | apply nth_error_None in Hl1; rewrite length_firstn in Hl1; lia ].
    destruct (nth_error (skipn k row) 0) as [first2 | ] eqn:Hf2;
      [ | apply nth_error_None in Hf2; rewrite length_skipn in Hf2; lia ].
    cbn [of_option].
    assert (G1 : get X last1 dim = Ok (data X last1 dim)).
    { unfold get.
      replace (last1 <? nrows X) with true.
      - replace (dim <? ncols X) with true by (symmetry; apply Nat.ltb_lt; lia).
        reflexivity.
      - symmetry. apply Nat.ltb_lt.
        apply (proj1 (Forall_forall _ _) B1). eapply nth_error_In. exact Hl1. }
    assert (G2 : get X first2 dim = Ok (data X first2 dim)).
    { unfold get.
      replace (first2 <? nrows X) with true.
      - replace (dim <? ncols X) with true by (symmetry; apply Nat.ltb_lt; lia).
        reflexivity.
      - symmetry. apply Nat.ltb_lt.
        apply (proj1 (Forall_forall _ _) B2). eapply nth_error_In. exact Hf2. }
    rewrite G1, G2.
    assert (Lrow : length row = length active) by (apply Permutation_length; exact Prow).
    assert (Child : forall c s idx,
               sort_indices_consistent (nrows X) idx s ->
               length s = ncols X ->
               length idx < length row ->
               0 < length idx ->
               exists t, _fit argsort fuel c X y delta names (Some s) = Ok t).
    { intros c s idx C Ls Lt Lpos.
      apply (IH c X y delta names (Some s) s idx); auto; lia. }
    assert (K1' : length (firstn k row) = k) by (rewrite length_firstn; lia).
    assert (K2' : length (skipn k row) = length row - k) by apply length_skipn.
    match goal with
    | |- context [if ?c then _fit argsort fuel ?c1 X y delta names (Some s1)
                  else _] =>
        destruct c;
          [ destruct (Child c1 s1 (firstn k row) C1 L1) as (t1 & ->); [ lia | lia | ]
          | ]
    end;
      match goal with
      | |- context [if ?c then _fit argsort fuel ?c2 X y delta names (Some s2)
                    else _] =>
          destruct c;
            [ destruct (Child c2 s2 (skipn k row) C2 L2) as (t2 & ->); [ lia | lia | ]
            | ]
      end;
      eexists; reflexivity.
Qed.

End FitReturns.

Section FitReturnsTop.

Context {F : ModelFamily}.
Variable argsort : list Q -> list nat.
Variable recursion_limit : nat.

Lemma initial_sort_indices_returns (X : ndarray) (dims : list nat) :
  (forall dim, In dim dims -> dim < ncols X) ->
  exists sidx,
    initial_sort_indices argsort X dims = Ok sidx /\ length sidx = length dims.
Proof.
  induction dims as [ | dim dims IH ]; intro H; simpl.
  - exists []. split; reflexivity.
  - rewrite column_nat by (apply H; left; reflexivity).
    destruct IH as (sidx & -> & L); [ intros d Hd; apply H; right; exact Hd | ].
    eexists. split; [ reflexivity | ]. simpl. f_equal. exact L.
Qed.

(** X3 ([fit] returns): when [argsort] returns a rearrangement of the row
    numbers and the model family one likelihood per candidate split, [fit]
    on a fresh estimator returns a tree for every input it does not reject
    up front: targets accepted by [_check_target], [delta] in [0, 1], a
    matrix with one row per target, not exactly one target, at least one
    column and a feature name for every column.  Calls of [_fit] nest at
    most as deep as there are rows, and those of [_prune] at most twice as
    deep. *)
Theorem fit_returns_on_valid_input pp pr lvl X M y delta prune_after
    feature_names names :
  argsort_permutes argsort ->
  one_likelihood_per_split ->
  check_target y = Ok tt ->
  (0 <= delta <= 1)%Q ->
  _normalize_data_and_feature_names X feature_names = Ok (M, names) ->
  nrows M = length y ->
  length y <> 1 ->
  0 < ncols M ->
  ncols M <= length names ->
  (if (prune_after : bool) then 2 * Nat.max 1 (nrows M) - 1
   else Nat.max 1 (nrows M)) <= recursion_limit ->
  exists t : node Dist,
    fit argsort recursion_limit (new_node pp pr lvl) X y delta prune_after
      feature_names = Ok t.
Proof.
  intros Hperm Hfam Hct (D0 & D1) HX Hrows Hy Hcols Hnames Hlimit.
  unfold fit, _ensure_float64. rewrite Hct.
  apply Qltb_false in D0. apply Qltb_false in D1. rewrite D0, D1. simpl.
  rewrite HX.
  replace (length y =? 1) with false by (symmetry; apply Nat.eqb_neq; exact Hy).
  replace (nrows M =? length y) with true by (symmetry; apply Nat.eqb_eq; exact Hrows).
  simpl.
  destruct (@initial_sort_indices_returns M (seq 0 (ncols M))) as (sidx & Hs & Ls).
  { intros dim Hd. apply in_seq in Hd. lia. }
  rewrite length_seq in Ls.
  assert (Hcons : sort_indices_consistent (nrows M) (seq 0 (nrows M)) sidx)
    by (apply (@initial_sort_indices_consistent argsort M (seq 0 (ncols M)));
        assumption).
  destruct (@_fit_returns _ argsort recursion_limit (new_node pp pr lvl) M y delta
              names None sidx (seq 0 (nrows M)))
    as (t0 & Hfit); auto.
  { rewrite length_seq. destruct prune_after; lia. }
  { destruct prune_after; lia. }
  rewrite Hfit. destruct prune_after; [ | eexists; reflexivity ].
  destruct (@_fit_well_formed _ argsort recursion_limit _ M y delta names None t0
              (new_node_leaf_state pp pr lvl) Hfit) as (W0 & _).
  assert (T0 : trained argsort M (seq 0 (nrows M)) t0).
  { apply (@_fit_trained _ argsort recursion_limit (new_node pp pr lvl) M y delta
             names None sidx (seq 0 (nrows M)) t0); auto.
    - intros _. apply length_seq.
    - intro Hsorts. apply (@initial_sort_indices_sorted argsort M sidx); assumption.
    - apply new_node_leaf_state. }
  assert (B := trained_leaves T0). rewrite length_seq in B.
  unfold prune. apply (@_prune_returns _ (ncols M) recursion_limit t0 W0). lia.
Qed.

End FitReturnsTop.

(** ** Features without a change of value *)

Lemma wrap_int_zero (dt : npdtype) (signed : bool) (bits : Z) :
  int_info dt = Some (signed, bits) -> wrap_int signed bits 0 = 0%Z.
Proof.
  destruct dt; simpl; intro H; inversion H; reflexivity.
Qed.

Lemma scalar_sub_same (dt : npdtype) (x y : Q) :
  (y == x)%Q -> (scalar_sub dt y x == 0)%Q.
Proof.
  intro E. unfold scalar_sub.
  destruct (int_info dt) as [[signed bits] | ] eqn:I.
  - rewrite E, Z.sub_diag, (wrap_int_zero dt I). reflexivity.
  - rewrite E. ring.
Qed.

Lemma np_diff_constant (dt : npdtype) (a : list Q) :
  (forall x x', In x a -> In x' a -> (x == x')%Q) ->
  Forall (fun d => Qneqb d 0 = false) (np_diff dt a).
Proof.
  induction a as [ | x [ | y a ] IH ]; intro H.
  - constructor.
  - constructor.
  - change (np_diff dt (x :: y :: a))
      with (scalar_sub dt y x :: np_diff dt (y :: a)).
    constructor.
    + unfold Qneqb. apply negb_false_iff. apply Qeq_eq_bool.
      apply scalar_sub_same. apply H; simpl; auto.
    + apply IH. intros u v Hu Hv. apply H; right; assumption.
Qed.

Lemma np_where_none (mask : list bool) :
  Forall (fun m => m = false) mask -> np_where mask = [].
Proof.
  intro H. unfold np_where. apply filter_none. intros i Hi.
  apply in_seq in Hi.
  apply (proj1 (Forall_forall _ _) H). apply nth_In. lia.
Qed.

Lemma candidate_split_indices_constant (X : ndarray) (row : list nat) (dim : nat)
    (cidx : list nat) :
  constant_columns X ->
  candidate_split_indices X row dim = Ok cidx ->
  cidx = [].
Proof.
  intros Hconst H. unfold candidate_split_indices, column_at in H.
  destruct (dim <? ncols X) eqn:Hd; [ | discriminate ].
  destruct (forallb (fun i => i <? nrows X) row) eqn:Hb; [ | discriminate ].
  inversion H; subst cidx. clear H.
  apply Nat.ltb_lt in Hd.
  rewrite np_where_none; [ reflexivity | ].
  apply Forall_forall. intros m Hm. apply in_map_iff in Hm.
  destruct Hm as (v & <- & Hv).
  apply (proj1 (Forall_forall _ _)
           (@np_diff_constant (dtype X) (map (fun i => data X i dim) row)
              ltac:(intros x x' Hx Hx';
                    apply in_map_iff in Hx; destruct Hx as (i & <- & Hi);
                    apply in_map_iff in Hx'; destruct Hx' as (i' & <- & Hi');
                    apply Hconst;
                    [ apply Nat.ltb_lt; apply (proj1 (forallb_forall _ _) Hb); exact Hi
                    | apply Nat.ltb_lt; apply (proj1 (forallb_forall _ _) Hb); exact Hi'
                    | exact Hd ]))).
  exact Hv.
Qed.

Section ConstantFeatures.

Context {F : ModelFamily}.
Variable argsort : list Q -> list nat.
Variable recursion_limit : nat.

(** X4 (nothing to split on): when every column of the training matrix
    holds one and the same number in all its rows, as with no row or a
    single distinct row, there is no candidate split, and the tree that
    [fit] returns on a fresh estimator is a single leaf that counts all
    rows.  (An infinite or NaN entry is not a number: the difference of two
    equal infinities is NaN, which differs from 0.) *)
Theorem constant_features_give_single_leaf pp pr lvl X M y delta prune_after
    feature_names names (t : node Dist) :
  _normalize_data_and_feature_names X feature_names = Ok (M, names) ->
  constant_columns M ->
  fit argsort recursion_limit (new_node pp pr lvl) X y delta prune_after
    feature_names = Ok t ->
  leaf_state t /\ n_data t = Some (nrows M) /\ get_n_leaves t = Ok 1.
Proof.
  intros HX Hconst H. apply fit_inv in H.
  destruct H as (M' & names' & t0 & _ & _ & _ & HX' & _ & _ & Hfit & Hprune).
  rewrite HX in HX'. inversion HX'; subst M' names'.
  assert (L0 : leaf_state t0 /\ n_data t0 = Some (nrows M) /\ posterior t0 <> None).
  { destruct recursion_limit as [ | fuel ]; [ discriminate Hfit | ].
    apply _fit_inv in Hfit.
    destruct Hfit as (n & sidx & row0 & y0 & b & i & d & Hn & _ & _ & _ & Hsearch & Hcase).
    inversion Hn; subst n.
    destruct Hcase as [(_ & ->) | (Hi & _)].
    - split; [ repeat split | ]. split; [ reflexivity | discriminate ].
    - exfalso. apply search_dims_index in Hsearch.
      destruct Hsearch as [(-> & _) | (dim & row & cidx & _ & _ & _ & Hcand & Hk)];
        [ lia | ].
      rewrite (candidate_split_indices_constant _ _ Hconst Hcand) in Hk.
      destruct Hk. }
  destruct L0 as (L & N & P).
  assert (Et : t = t0).
  { destruct prune_after; [ | congruence ].
    unfold prune in Hprune.
    destruct recursion_limit as [ | fuel ]; [ discriminate Hprune | ].
    rewrite _prune_eq, (is_leaf_fitted _ P) in Hprune.
    destruct L as (Lsv & _). rewrite Lsv in Hprune.
    inversion Hprune. reflexivity. }
  subst t0. split; [ exact L | ]. split; [ exact N | ].
  unfold get_n_leaves. rewrite _update_n_leaves_eq, (is_leaf_fitted _ P).
  destruct L as (-> & _). reflexivity.
Qed.

End ConstantFeatures.
(** ** Arrays of posterior means *)




Section MeansProofs.

Context {F : ModelFamily}.
Variable argsort : list Q -> list nat.
Variable recursion_limit : nat.


End MeansProofs.

(** ** Structure queries before a fit *)

Section Unfitted.

Context {F : ModelFamily}.

(** X21 (structure queries before a fit): on an estimator without
    posterior, [is_leaf] raises the 'untrained model' [ValueError] of
    [_ensure_is_fitted], and so do [get_depth], [get_n_leaves],
    [_predict] and, with a recursion limit that is not zero, [prune], which
    all ask [is_leaf] first. *)
Theorem structure_queries_need_a_fit (t : node Dist) (X : ndarray)
    (recursion_limit : nat) :
  posterior t = None ->
  0 < recursion_limit ->
  is_leaf t = Raise NotFittedError /\
  get_depth t = Raise NotFittedError /\
  get_n_leaves t = Raise NotFittedError /\
  _predict t X = Raise NotFittedError /\
  prune recursion_limit t = Raise NotFittedError.
Proof.
  intros Hp Hlimit.
  assert (L : is_leaf t = Raise NotFittedError).
  { unfold is_leaf, _ensure_is_fitted. rewrite Hp. reflexivity. }
  split; [ exact L | ].
  split; [ unfold get_depth; rewrite _update_depth_eq, L; reflexivity | ].
  split; [ unfold get_n_leaves; rewrite _update_n_leaves_eq, L; reflexivity | ].
  split; [ rewrite _predict_eq, L; reflexivity | ].
  unfold prune. destruct recursion_limit as [ | fuel ]; [ lia | ].
  rewrite _prune_eq, L. reflexivity.
Qed.

End Unfitted.

(** ** Comparisons of floats *)


Lemma float_lt_not_ge (a b : npfloat) :
  IEEE.lt a b = true -> IEEE.ge a b = false.
Proof.
  destruct a, b; simpl; intro H; rewrite ?H; try reflexivity; discriminate H.
Qed.

Lemma float_neither_is_nan (a : npfloat) (sv : Q) :
  IEEE.lt a (finite sv) = false -> IEEE.ge a (finite sv) = false -> a = nan.
Proof.
  destruct a; simpl; intros H1 H2; [ | | reflexivity ];
    rewrite H1 in H2; discriminate H2.
Qed.

(** ** Assignments into an array *)

Lemma put_loop_spec {A} (d : A) (idx : list nat) :
  forall (a vals : list A),
  NoDup idx ->
  Forall (fun i => i < length a) idx ->
  length vals = length idx ->
  exists a',
    put_loop a idx vals = Ok a' /\
    length a' = length a /\
    (forall k, k < length idx -> nth (nth k idx 0) a' d = nth k vals d) /\
    (forall i, ~ In i idx -> nth i a' d = nth i a d).
Proof.
  induction idx as [ | i idx IH ]; intros a vals Nd Hb Hl.
  - destruct vals; [ | discriminate Hl ].
    exists a. simpl. repeat split; auto. intros k Hk. inversion Hk.
  - destruct vals as [ | v vals ]; [ discriminate Hl | ].
    inversion Nd as [ | ? ? Hnotin Nd' ]; subst.
    inversion Hb as [ | ? ? Hi Hb' ]; subst.
    simpl. apply Nat.ltb_lt in Hi. rewrite Hi. apply Nat.ltb_lt in Hi.
    destruct (IH (set_nth a i v) vals Nd') as (a' & E & L & In' & Out').
    { rewrite set_nth_length. exact Hb'. }
    { simpl in Hl. lia. }
    exists a'. split; [ exact E | ].
    split; [ rewrite L; apply set_nth_length | ].
    split.
    + intros [ | k ] Hk; simpl.
      * rewrite (Out' i Hnotin), (nth_set_nth d a i v Hi), Nat.eqb_refl.
        reflexivity.
      * apply In'. simpl in Hk. lia.
    + intros r Hr. rewrite Out' by (intro H; apply Hr; right; exact H).
      rewrite (nth_set_nth d a r v Hi).
      destruct (r =? i) eqn:E'; [ | reflexivity ].
      apply Nat.eqb_eq in E'. exfalso. apply Hr. left. congruence.
Qed.

Lemma put_const_spec {A} (d v : A) (idx : list nat) :
  forall a : list A,
  Forall (fun i => i < length a) idx ->
  exists a',
    put_const a idx v = Ok a' /\
    length a' = length a /\
    (forall i, In i idx -> nth i a' d = v) /\
    (forall i, ~ In i idx -> nth i a' d = nth i a d).
Proof.
  induction idx as [ | i idx IH ]; intros a Hb.
  - exists a. simpl. repeat split; auto. intros i [].
  - inversion Hb as [ | ? ? Hi Hb' ]; subst.
    simpl. apply Nat.ltb_lt in Hi. rewrite Hi. apply Nat.ltb_lt in Hi.
    destruct (IH (set_nth a i v)) as (a' & E & L & In' & Out').
    { rewrite set_nth_length. exact Hb'. }
    exists a'. split; [ exact E | ].
    split; [ rewrite L; apply set_nth_length | ].
    split.
    + intros r Hr. destruct (in_dec Nat.eq_dec r idx) as [Hin | Hout].
      * apply In'. exact Hin.
      * destruct Hr as [<- | Hr]; [ | contradiction ].
        rewrite (Out' i Hout), (nth_set_nth d a i v Hi), Nat.eqb_refl.
        reflexivity.
    + intros r Hr. rewrite Out' by (intro H; apply Hr; right; exact H).
      rewrite (nth_set_nth d a r v Hi).
      destruct (r =? i) eqn:E'; [ | reflexivity ].
      apply Nat.eqb_eq in E'. exfalso. apply Hr. left. congruence.
Qed.

Section FloatPrediction.

Context {F : ModelFamily}.

(** What [predictions_merged[indices] = predictions] does, for what a child
    returned on the rows [indices]. *)
Lemma assign_spec (a : list npfloat) (idx : list nat)
    (r : option (list npfloat)) :
  NoDup idx ->
  Forall (fun i => i < length a) idx ->
  (forall l, r = Some l -> length l = length idx) ->
  exists a',
    IEEE.assign a idx r = Ok a' /\
    length a' = length a /\
    (forall k, k < length idx -> nth (nth k idx 0) a' nan = stored r k) /\
    (forall i, ~ In i idx -> nth i a' nan = nth i a nan).
Proof.
  intros Nd Hb Hl. destruct r as [ l | ]; simpl.
  - unfold put. rewrite (Hl l eq_refl), Nat.eqb_refl.
    apply put_loop_spec; auto.
  - destruct (@put_const_spec _ nan nan idx a Hb) as (a' & E & L & In' & Out').
    exists a'. split; [ exact E | ]. split; [ exact L | ].
    split; [ | exact Out' ].
    intros k Hk. apply In'. apply nth_In. exact Hk.
Qed.

Lemma float_column_nat (X : IEEE.ndarray) (j : nat) :
  j < IEEE.ncols X ->
  IEEE.column X (Z.of_nat j) =
    Ok (map (fun i => IEEE.data X i j) (seq 0 (IEEE.nrows X))).
Proof.
  intro H. unfold IEEE.column. rewrite py_index_nat by exact H. reflexivity.
Qed.

(** The two index arrays of a split node, as filters of the row numbers. *)
Lemma float_child_indices (self : node Dist) (X : IEEE.ndarray) (sv : Q)
    (j : nat) :
  split_value self = Some sv ->
  split_dimension self = Z.of_nat j ->
  j < IEEE.ncols X ->
  IEEE._compute_child1_and_child2_indices self X =
    Ok (filter (fun i => IEEE.lt (IEEE.data X i j) (finite sv))
          (seq 0 (IEEE.nrows X)),
        filter (fun i => IEEE.ge (IEEE.data X i j) (finite sv))
          (seq 0 (IEEE.nrows X))).
Proof.
  intros Hsv Hdim Hj. unfold IEEE._compute_child1_and_child2_indices.
  rewrite Hdim, float_column_nat by exact Hj. rewrite Hsv. unfold of_option.
  rewrite !map_map.
  rewrite (np_where_map 0%nat (fun i => IEEE.lt (IEEE.data X i j) (finite sv))).
  rewrite (np_where_map 0%nat (fun i => IEEE.ge (IEEE.data X i j) (finite sv))).
  rewrite !length_seq.
  f_equal. f_equal.
  - apply filter_ext_in. intros i Hi. apply in_seq in Hi.
    rewrite seq_nth by lia. reflexivity.
  - apply filter_ext_in. intros i Hi. apply in_seq in Hi.
    rewrite seq_nth by lia. reflexivity.
Qed.

Lemma float_take_rows_filter (X : IEEE.ndarray) (p : nat -> bool) :
  IEEE.take_rows X (filter p (seq 0 (IEEE.nrows X))) =
    Ok (IEEE.mk_ndarray (IEEE.dtype X)
          (length (filter p (seq 0 (IEEE.nrows X)))) (IEEE.ncols X)
          (fun i j =>
             IEEE.data X (nth i (filter p (seq 0 (IEEE.nrows X))) 0) j)).
Proof.
  unfold IEEE.take_rows.
  replace (forallb _ _) with true; [ reflexivity | ].
  symmetry. apply forallb_forall. intros i Hi.
  apply Nat.ltb_lt.
  exact (proj1 (Forall_forall _ _) (filter_seq_bound p (IEEE.nrows X)) i Hi).
Qed.

Lemma float_predict_eq (self : node Dist) (X : IEEE.ndarray) :
  IEEE._predict self X =
    (leaf <- is_leaf self ;;
     if (leaf : bool) then
       prediction <- _predict_leaf self ;;
       Ok (Some (map (fun _ => finite prediction)
                   (IEEE._create_merged_predictions_array X)))
     else
       ' (indices1, indices2) <- IEEE._compute_child1_and_child2_indices self X ;;
       predictions_merged <-
         (if 0 <? length indices1 then
            X1 <- IEEE.take_rows X indices1 ;;
            match child1 self with
            | None => Raise AttributeError
            | Some c1 =>
                predictions1 <- IEEE._predict c1 X1 ;;
                merged <- IEEE.assign (IEEE._create_merged_predictions_array X)
                            indices1 predictions1 ;;
                Ok (Some merged)
            end
          else Ok None) ;;
       if 0 <? length indices2 then
         X2 <- IEEE.take_rows X indices2 ;;
         match child2 self with
         | None => Raise AttributeError
         | Some c2 =>
             predictions2 <- IEEE._predict c2 X2 ;;
             let predictions_merged :=
               match predictions_merged with
               | Some m => m
               | None => IEEE._create_merged_predictions_array X
               end in
             merged <- IEEE.assign predictions_merged indices2 predictions2 ;;
             Ok (Some merged)
         end
       else Ok predictions_merged).
Proof.
  destruct self; reflexivity.
Qed.

Lemma filter_seq_disjoint (p q : nat -> bool) (n i : nat) :
  (forall k, p k = true -> q k = false) ->
  In i (filter p (seq 0 n)) -> ~ In i (filter q (seq 0 n)).
Proof.
  intros H Hp Hq. apply filter_In in Hp, Hq.
  destruct Hp as [_ Hp]. destruct Hq as [_ Hq].
  rewrite (H i Hp) in Hq. discriminate.
Qed.

Lemma nth_zeros (n i : nat) :
  nth i (repeat (finite 0) n) nan = if i <? n then finite 0 else nan.
Proof.
  destruct (i <? n) eqn:E.
  - apply Nat.ltb_lt in E. apply nth_repeat_lt. exact E.
  - apply Nat.ltb_ge in E. apply nth_overflow. rewrite repeat_length. exact E.
Qed.

(** One call of [_predict] on a split node, given what the children return
    on the rows handed to them. *)
Lemma float_predict_merge (self c1 c2 : node Dist) (X : IEEE.ndarray)
    (sv : Q) (j : nat) (r1 r2 : option (list npfloat)) :
  let indices1 :=
    filter (fun i => IEEE.lt (IEEE.data X i j) (finite sv))
      (seq 0 (IEEE.nrows X)) in
  let indices2 :=
    filter (fun i => IEEE.ge (IEEE.data X i j) (finite sv))
      (seq 0 (IEEE.nrows X)) in
  let X1 :=
    IEEE.mk_ndarray (IEEE.dtype X) (length indices1) (IEEE.ncols X)
      (fun i c => IEEE.data X (nth i indices1 0) c) in
  let X2 :=
    IEEE.mk_ndarray (IEEE.dtype X) (length indices2) (IEEE.ncols X)
      (fun i c => IEEE.data X (nth i indices2 0) c) in
  posterior self <> None ->
  split_value self = Some sv ->
  split_dimension self = Z.of_nat j ->
  j < IEEE.ncols X ->
  child1 self = Some c1 ->
  child2 self = Some c2 ->
  (indices1 <> [] ->
   IEEE._predict c1 X1 = Ok r1 /\
   forall l, r1 = Some l -> length l = length indices1) ->
  (indices2 <> [] ->
   IEEE._predict c2 X2 = Ok r2 /\
   forall l, r2 = Some l -> length l = length indices2) ->
  exists r,
    IEEE._predict self X = Ok r /\
    (indices1 = [] -> indices2 = [] -> r = None) /\
    (indices1 ++ indices2 <> [] ->
     exists merged,
       r = Some merged /\
       length merged = IEEE.nrows X /\
       (forall k, k < length indices1 ->
          nth (nth k indices1 0) merged nan = stored r1 k) /\
       (forall k, k < length indices2 ->
          nth (nth k indices2 0) merged nan = stored r2 k) /\
       (forall i, i < IEEE.nrows X -> ~ In i indices1 -> ~ In i indices2 ->
          nth i merged nan = finite 0)).
Proof.
  intros indices1 indices2 X1 X2 Hp Hsv Hdim Hj Hc1 Hc2 H1 H2.
  rewrite float_predict_eq, (is_leaf_fitted _ Hp), Hsv.
  rewrite (float_child_indices self X Hsv Hdim Hj).
  fold indices1 indices2.
  unfold indices1 at 2. rewrite float_take_rows_filter. fold indices1. fold X1.
  unfold indices2 at 2. rewrite float_take_rows_filter. fold indices2. fold X2.
  rewrite Hc1, Hc2.
  assert (Nd1 : NoDup indices1) by apply NoDup_filter, seq_NoDup.
  assert (Nd2 : NoDup indices2) by apply NoDup_filter, seq_NoDup.
  assert (B1 : forall a : list npfloat, length a = IEEE.nrows X ->
                         Forall (fun i => i < length a) indices1).
  { intros a ->. apply filter_seq_bound. }
  assert (B2 : forall a : list npfloat, length a = IEEE.nrows X ->
                         Forall (fun i => i < length a) indices2).
  { intros a ->. apply filter_seq_bound. }
  assert (D12 : forall i, In i indices1 -> ~ In i indices2).
  { intro i. apply filter_seq_disjoint. intros k. apply float_lt_not_ge. }
  assert (Z0 : length (IEEE._create_merged_predictions_array X) = IEEE.nrows X)
    by apply repeat_length.
  assert (Zi : forall i, i < IEEE.nrows X ->
                 nth i (IEEE._create_merged_predictions_array X) nan = finite 0).
  { intros i Hi. unfold IEEE._create_merged_predictions_array.
    rewrite nth_zeros. apply Nat.ltb_lt in Hi. rewrite Hi. reflexivity. }
  destruct (0 <? length indices1) eqn:L1;
    destruct (0 <? length indices2) eqn:L2.
  - apply Nat.ltb_lt in L1, L2.
    destruct H1 as (E1 & Len1); [ intro E; rewrite E in L1; inversion L1 | ].
    destruct H2 as (E2 & Len2); [ intro E; rewrite E in L2; inversion L2 | ].
    rewrite E1, E2.
    destruct (@assign_spec (IEEE._create_merged_predictions_array X) indices1 r1
                Nd1 (B1 _ Z0) Len1) as (m1 & -> & Lm1 & In1 & Out1).
    assert (Lm1' : length m1 = IEEE.nrows X) by congruence.
    destruct (@assign_spec m1 indices2 r2 Nd2 (B2 _ Lm1') Len2)
      as (m2 & -> & Lm2 & In2 & Out2).
    eexists. split; [ reflexivity | ].
    split.
    { intros E. rewrite E in L1. inversion L1. }
    intros _. exists m2. split; [ reflexivity | ].
    split; [ congruence | ]. split; [ | split ].
    + intros k Hk. rewrite Out2 by (apply D12, nth_In; exact Hk).
      apply In1. exact Hk.
    + exact In2.
    + intros i Hi N1 N2. rewrite (Out2 i N2), (Out1 i N1). apply Zi. exact Hi.
  - apply Nat.ltb_lt in L1. apply Nat.ltb_ge in L2.
    destruct H1 as (E1 & Len1); [ intro E; rewrite E in L1; inversion L1 | ].
    rewrite E1.
    destruct (@assign_spec (IEEE._create_merged_predictions_array X) indices1 r1
                Nd1 (B1 _ Z0) Len1) as (m1 & -> & Lm1 & In1 & Out1).
    eexists. split; [ reflexivity | ].
    split.
    { intros E. rewrite E in L1. inversion L1. }
    intros _. exists m1. split; [ reflexivity | ].
    split; [ congruence | ]. split; [ exact In1 | split ].
    + intros k Hk. lia.
    + intros i Hi N1 _. rewrite (Out1 i N1). apply Zi. exact Hi.
  - apply Nat.ltb_ge in L1. apply Nat.ltb_lt in L2.
    destruct H2 as (E2 & Len2); [ intro E; rewrite E in L2; inversion L2 | ].
    rewrite E2.
    destruct (@assign_spec (IEEE._create_merged_predictions_array X) indices2 r2
                Nd2 (B2 _ Z0) Len2) as (m2 & -> & Lm2 & In2 & Out2).
    eexists. split; [ reflexivity | ].
    split.
    { intros _ E. rewrite E in L2. inversion L2. }
    intros _. exists m2. split; [ reflexivity | ].
    split; [ congruence | ]. split; [ | split ].
    + intros k Hk. lia.
    + exact In2.
    + intros i Hi _ N2. rewrite (Out2 i N2). apply Zi. exact Hi.
  - apply Nat.ltb_ge in L1, L2.
    eexists. split; [ reflexivity | ].
    split; [ reflexivity | ].
    intro Hne. exfalso. apply Hne.
    destruct indices1; [ | simpl in L1; lia ].
    destruct indices2; [ reflexivity | simpl in L2; lia ].
Qed.

(** [_predict] returns on a well-formed tree: an array of one value per
    row, or [None] from a split node. *)
Lemma float_predict_returns (d : nat) (t : node Dist) :
  well_formed d t ->
  forall X, IEEE.ncols X = d ->
  exists r,
    IEEE._predict t X = Ok r /\
    (forall l, r = Some l -> length l = IEEE.nrows X) /\
    (r = None -> split_value t <> None).
Proof.
  induction 1 as [ t Hp (Hsv & _ & _)
                 | t sv c1 c2 ns b Hp Hsv Hc1 Hc2 Hdim _ _ _ W1 IH1 W2 IH2 ];
    intros X HX.
  - rewrite float_predict_eq, is_leaf_fitted by exact Hp. rewrite Hsv.
    unfold _predict_leaf.
    destruct (posterior t) as [p | ] eqn:Ep; [ | contradiction ].
    simpl. eexists. split; [ reflexivity | ].
    split; [ | discriminate ].
    intros l E. inversion E; subst l.
    rewrite length_map. apply repeat_length.
  - set (j := Z.to_nat (split_dimension t)).
    assert (Hj : split_dimension t = Z.of_nat j) by (unfold j; lia).
    assert (Hjd : j < IEEE.ncols X) by (unfold j; lia).
    set (indices1 := filter (fun i => IEEE.lt (IEEE.data X i j) (finite sv))
                       (seq 0 (IEEE.nrows X))).
    set (indices2 := filter (fun i => IEEE.ge (IEEE.data X i j) (finite sv))
                       (seq 0 (IEEE.nrows X))).
    destruct (IH1 (IEEE.mk_ndarray (IEEE.dtype X) (length indices1) (IEEE.ncols X)
                     (fun i c => IEEE.data X (nth i indices1 0) c)) HX)
      as (r1 & E1 & Len1 & _).
    destruct (IH2 (IEEE.mk_ndarray (IEEE.dtype X) (length indices2) (IEEE.ncols X)
                     (fun i c => IEEE.data X (nth i indices2 0) c)) HX)
      as (r2 & E2 & Len2 & _).
    destruct (@float_predict_merge t c1 c2 X sv j r1 r2 Hp Hsv Hj Hjd Hc1 Hc2)
      as (r & E & Hnone & Hsome).
    { intros _. split; [ exact E1 | exact Len1 ]. }
    { intros _. split; [ exact E2 | exact Len2 ]. }
    exists r. split; [ exact E | ]. split; [ | intros _; congruence ].
    intros l ->.
    destruct (indices1 ++ indices2) eqn:E12.
    + apply app_eq_nil in E12. destruct E12 as [Ea Eb].
      specialize (Hnone Ea Eb). discriminate.
    + fold indices1 indices2 in Hsome. rewrite E12 in Hsome.
      destruct Hsome as (m & Em & Lm & _); [ discriminate | ].
      inversion Em; subst. exact Lm.
Qed.

End FloatPrediction.

(** ** The rows of a query at a split node *)

Section FloatQueries.

Context {F : ModelFamily}.
Variable argsort : list Q -> list nat.
Variable recursion_limit : nat.



End FloatQueries.

(** ** Prediction paths on matrices of floats *)

Section FloatPaths.

Context {F : ModelFamily}.

Lemma path_of_row_eq (t : node Dist) (x : nat -> npfloat) :
  path_of_row t x =
    match split_value t with
    | None => []
    | Some sv =>
        if IEEE.lt (x (Z.to_nat (split_dimension t))) (finite sv)
        then (split_dimension t, split_feature_name t, split_value t, false)
             :: match child1 t with
                | Some c => path_of_row c x
                | None => []
                end
        else if IEEE.ge (x (Z.to_nat (split_dimension t))) (finite sv)
        then (split_dimension t, split_feature_name t, split_value t, true)
             :: match child2 t with
                | Some c => path_of_row c x
                | None => []
                end
        else []
    end.
Proof.
  destruct t; reflexivity.
Qed.


Lemma float_update_prediction_paths_eq (self : node Dist) X paths h :
  IEEE._update_prediction_paths self X paths h =
    (leaf <- is_leaf self ;;
     if (leaf : bool) then Ok h
     else
       ' (indices1, indices2) <- IEEE._compute_child1_and_child2_indices self X ;;
       h <- (if 0 <? length indices1 then
               append_step paths indices1
                 (split_dimension self, split_feature_name self,
                  split_value self, false) h
             else Ok h) ;;
       h <- (if 0 <? length indices2 then
               append_step paths indices2
                 (split_dimension self, split_feature_name self,
                  split_value self, true) h
             else Ok h) ;;
       h <- descend_float_paths (child1 self) X indices1 paths h ;;
       descend_float_paths (child2 self) X indices2 paths h).
Proof.
  destruct self; reflexivity.
Qed.

(** The effect of one of the two [append] loops on the store. *)
Lemma append_rows_spec (n : nat) (paths : list nat) (p : nat -> bool)
    (s : step) (h : path_store) :
  n = length paths ->
  NoDup paths ->
  Forall (fun r => r < length h) paths ->
  exists h',
    (if 0 <? length (filter p (seq 0 n))
     then append_step paths (filter p (seq 0 n)) s h
     else Ok h) = Ok h' /\
    length h' = length h /\
    (forall k, k < n -> p k = true ->
       nth (nth k paths 0) h' [] = nth (nth k paths 0) h [] ++ [s]) /\
    (forall k, k < n -> p k = false ->
       nth (nth k paths 0) h' [] = nth (nth k paths 0) h []) /\
    (forall r, ~ In r paths -> nth r h' [] = nth r h []).
Proof.
  intros Hn Np Hb.
  destruct (0 <? length (filter p (seq 0 n))) eqn:L.
  - destruct (@append_step_spec paths s (filter p (seq 0 n)) h)
      as (h' & E & Len & In' & Out'); auto.
    { rewrite <- Hn. apply filter_seq_bound. }
    { apply NoDup_filter, seq_NoDup. }
    exists h'. split; [ exact E | ]. split; [ exact Len | ].
    split; [ | split ].
    + intros k Hk Hp. apply In'. apply filter_In.
      split; [ apply in_seq; lia | exact Hp ].
    + intros k Hk Hp. apply Out'. intros k' Hk' E'.
      apply filter_In in Hk'. destruct Hk' as [Hk' Hp']. apply in_seq in Hk'.
      assert (k' = k) by (apply (NoDup_nth_inj Np); auto; lia).
      subst. congruence.
    + intros r Hr. apply Out'. intros k' Hk' E'. apply Hr.
      apply filter_In in Hk'. destruct Hk' as [Hk' _]. apply in_seq in Hk'.
      subst r. apply nth_In. lia.
  - exists h. split; [ reflexivity | ]. split; [ reflexivity | ].
    apply Nat.ltb_ge in L.
    split; [ | split ]; auto.
    intros k Hk Hp. rewrite (filter_seq_empty p (n := n)) in Hp by lia.
    discriminate.
Qed.

(** The effect of the descent into one child on the store. *)
Lemma descend_float_paths_spec d (c : node Dist) (X : IEEE.ndarray)
    (paths : list nat) (p : nat -> bool) (h : path_store) :
  well_formed d c ->
  (forall X1 paths1 h1,
     IEEE.ncols X1 = d -> IEEE.nrows X1 = length paths1 -> NoDup paths1 ->
     Forall (fun r => r < length h1) paths1 ->
     exists h',
       IEEE._update_prediction_paths c X1 paths1 h1 = Ok h' /\
       float_paths_extended c X1 paths1 h1 h') ->
  IEEE.ncols X = d ->
  IEEE.nrows X = length paths ->
  NoDup paths ->
  Forall (fun r => r < length h) paths ->
  exists h',
    descend_float_paths (Some c) X (filter p (seq 0 (IEEE.nrows X))) paths h
      = Ok h' /\
    length h' = length h /\
    (forall k, k < IEEE.nrows X -> p k = true ->
       nth (nth k paths 0) h' [] =
       nth (nth k paths 0) h [] ++ path_of_row c (IEEE.data X k)) /\
    (forall k, k < IEEE.nrows X -> p k = false ->
       nth (nth k paths 0) h' [] = nth (nth k paths 0) h []) /\
    (forall r, ~ In r paths -> nth r h' [] = nth r h []).
Proof.
  intros W IH Hc Hn Np Hb. unfold descend_float_paths.
  set (idx := filter p (seq 0 (IEEE.nrows X))).
  destruct (0 <? length idx) eqn:L.
  - assert (Hp : posterior c <> None) by (inversion W; assumption).
    rewrite (is_leaf_fitted _ Hp).
    destruct (split_value c) as [sv | ] eqn:Esv.
    + unfold idx at 1. rewrite float_take_rows_filter. fold idx.
      assert (Bidx : Forall (fun k => k < length paths) idx).
      { rewrite <- Hn. apply filter_seq_bound. }
      rewrite (take_ok 0 paths Bidx).
      set (paths1 := map (fun k => nth k paths 0) idx).
      set (X1 := IEEE.mk_ndarray (IEEE.dtype X) (length idx) (IEEE.ncols X)
                   (fun i j => IEEE.data X (nth i idx 0) j)).
      destruct (IH X1 paths1 h) as (h' & E & Len & In' & Out').
      { exact Hc. }
      { unfold paths1. rewrite length_map. reflexivity. }
      { apply NoDup_map_nth; auto. apply NoDup_filter, seq_NoDup. }
      { apply Forall_forall. intros r Hr. apply in_map_iff in Hr.
        destruct Hr as (k & <- & Hk).
        apply (proj1 (Forall_forall _ _) Hb). apply nth_In.
        apply (proj1 (Forall_forall _ _) Bidx). exact Hk. }
      exists h'. split; [ exact E | ]. split; [ exact Len | ].
      split; [ | split ].
      * intros k Hk Hpk.
        destruct (in_filter_seq_nth p Hk Hpk) as (k' & Hk' & Ek').
        fold idx in Hk', Ek'.
        assert (Hk1 : k' < length paths1)
          by (unfold paths1; rewrite length_map; exact Hk').
        specialize (In' k' Hk1).
        unfold paths1 in In'. rewrite (nth_map_nth paths idx Hk') in In'.
        unfold X1 in In'. simpl in In'. rewrite Ek' in In'. exact In'.
      * intros k Hk Hpk. apply Out'. intro Hin. apply in_map_iff in Hin.
        destruct Hin as (k2 & E2 & Hk2).
        unfold idx in Hk2. apply filter_In in Hk2. destruct Hk2 as [Hk2 Hp2].
        apply in_seq in Hk2.
        assert (k2 = k) by (apply (NoDup_nth_inj Np); auto; lia).
        subst. congruence.
      * intros r Hr. apply Out'. intro Hin. apply Hr. apply in_map_iff in Hin.
        destruct Hin as (k2 & <- & Hk2). apply nth_In.
        apply (proj1 (Forall_forall _ _) Bidx). exact Hk2.
    + exists h. split; [ reflexivity | ]. split; [ reflexivity | ].
      split; [ | split ]; auto.
      intros k Hk Hpk. rewrite path_of_row_eq, Esv, app_nil_r. reflexivity.
  - exists h. split; [ reflexivity | ]. split; [ reflexivity | ].
    apply Nat.ltb_ge in L.
    split; [ | split ]; auto.
    intros k Hk Hpk.
    rewrite (filter_seq_empty p (n := IEEE.nrows X)) in Hpk by (fold idx; lia).
    discriminate.
Qed.

(** [IEEE._update_prediction_paths] on a well-formed tree appends to the
    list of every row the steps of that row. *)
Lemma float_update_prediction_paths_spec d (t : node Dist) :
  well_formed d t ->
  forall X paths h,
  IEEE.ncols X = d -> IEEE.nrows X = length paths -> NoDup paths ->
  Forall (fun r => r < length h) paths ->
  exists h',
    IEEE._update_prediction_paths t X paths h = Ok h' /\
    float_paths_extended t X paths h h'.
Proof.
  induction 1 as [ t Hp (Hsv & _ & _)
                 | t sv c1 c2 ns b Hp Hsv Hc1 Hc2 Hdim _ _ _ W1 IH1 W2 IH2 ];
    intros X paths h HX Hn Np Hb.
  - rewrite float_update_prediction_paths_eq, (is_leaf_fitted _ Hp), Hsv.
    exists h. split; [ reflexivity | ].
    split; [ reflexivity | ]. split; [ | reflexivity ].
    intros k Hk. rewrite path_of_row_eq, Hsv, app_nil_r. reflexivity.
  - set (j := Z.to_nat (split_dimension t)).
    assert (Hj : split_dimension t = Z.of_nat j) by (unfold j; lia).
    assert (Hjd : j < IEEE.ncols X) by (unfold j; lia).
    rewrite float_update_prediction_paths_eq, (is_leaf_fitted _ Hp), Hsv.
    rewrite (float_child_indices t X Hsv Hj Hjd).
    set (p1 := fun i => IEEE.lt (IEEE.data X i j) (finite sv)).
    set (p2 := fun i => IEEE.ge (IEEE.data X i j) (finite sv)).
    assert (P12 : forall i, p1 i = true -> p2 i = false).
    { intros i. apply float_lt_not_ge. }
    rewrite Hc1, Hc2.
    destruct (@append_rows_spec (IEEE.nrows X) paths p1
                (split_dimension t, split_feature_name t, Some sv, false) h
                Hn Np Hb)
      as (h1 & -> & L1 & A1 & B1 & O1).
    assert (Hb1 : Forall (fun r => r < length h1) paths) by (rewrite L1; exact Hb).
    destruct (@append_rows_spec (IEEE.nrows X) paths p2
                (split_dimension t, split_feature_name t, Some sv, true) h1
                Hn Np Hb1)
      as (h2 & -> & L2 & A2 & B2 & O2).
    assert (Hb2 : Forall (fun r => r < length h2) paths) by (rewrite L2; exact Hb1).
    destruct (@descend_float_paths_spec d c1 X paths p1 h2 W1 IH1 HX Hn Np Hb2)
      as (h3 & -> & L3 & A3 & B3 & O3).
    assert (Hb3 : Forall (fun r => r < length h3) paths) by (rewrite L3; exact Hb2).
    destruct (@descend_float_paths_spec d c2 X paths p2 h3 W2 IH2 HX Hn Np Hb3)
      as (h4 & -> & L4 & A4 & B4 & O4).
    exists h4. split; [ reflexivity | ].
    split; [ congruence | ]. split.
    + intros k Hk. rewrite <- Hn in Hk.
      rewrite path_of_row_eq, Hsv, Hc1, Hc2. fold j.
      change (IEEE.lt (IEEE.data X k j) (finite sv)) with (p1 k).
      change (IEEE.ge (IEEE.data X k j) (finite sv)) with (p2 k).
      destruct (p1 k) eqn:E1.
      * assert (E2 : p2 k = false) by (apply P12; exact E1).
        rewrite (B4 k Hk E2), (A3 k Hk E1), (B2 k Hk E2), (A1 k Hk E1).
        rewrite <- app_assoc. reflexivity.
      * destruct (p2 k) eqn:E2.
        -- rewrite (A4 k Hk E2), (B3 k Hk E1), (A2 k Hk E2), (B1 k Hk E1).
           rewrite <- app_assoc. reflexivity.
        -- rewrite (B4 k Hk E2), (B3 k Hk E1), (B2 k Hk E2), (B1 k Hk E1).
           rewrite app_nil_r. reflexivity.
    + intros r Hr. rewrite (O4 r Hr), (O3 r Hr), (O2 r Hr), (O1 r Hr). reflexivity.
Qed.


End FloatPaths.

Section FloatFittedPaths.

Context {F : ModelFamily}.
Variable argsort : list Q -> list nat.
Variable recursion_limit : nat.

Lemma float_prediction_paths_rows d (t : node Dist) X M names p :
  well_formed d t ->
  posterior t = Some p ->
  n_dim t = Some d ->
  IEEE._normalize_data_and_feature_names X None = Ok (M, names) ->
  IEEE.ncols M = d ->
  IEEE.prediction_paths t X =
    Ok (map (fun i => path_of_row t (IEEE.data M i)) (seq 0 (IEEE.nrows M))).
Proof.
  intros W Hp Hd HX Hcols. subst d.
  unfold IEEE.prediction_paths. rewrite HX.
  unfold IEEE._ensure_is_fitted. rewrite Hp, Hd, Nat.eqb_refl. simpl.
  destruct (@float_update_prediction_paths_spec _ (IEEE.ncols M) t W M
              (seq 0 (IEEE.nrows M)) (repeat [] (IEEE.nrows M)))
    as (h' & -> & Len & In' & _).
  - reflexivity.
  - rewrite length_seq. reflexivity.
  - apply seq_NoDup.
  - apply Forall_forall. intros r Hr. apply in_seq in Hr.
    rewrite repeat_length. lia.
  - rewrite repeat_length in Len. rewrite length_seq in In'.
    rewrite (take_ok [] h').
    + f_equal. apply map_ext_in. intros i Hi. apply in_seq in Hi.
      specialize (In' i ltac:(lia)). rewrite seq_nth in In' by lia.
      simpl in In'. rewrite In'.
      replace (nth i (repeat [] (IEEE.nrows M)) []) with (@nil step);
        [ reflexivity | ].
      symmetry. apply nth_repeat.
    + apply Forall_forall. intros r Hr. apply in_seq in Hr. lia.
Qed.


End FloatFittedPaths.

(** ** Predictions on matrices without NaN *)


Section FloatRoutes.

Context {F : ModelFamily}.



End FloatRoutes.

Section FloatFittedPrediction.

Context {F : ModelFamily}.
Variable argsort : list Q -> list nat.
Variable recursion_limit : nat.



End FloatFittedPrediction.

(** ** Posterior means on matrices without NaN *)

Section FloatMeans.

Context {F : ModelFamily}.
Variable argsort : list Q -> list nat.
Variable recursion_limit : nat.





End FloatMeans.

(** ** The two embeddings of the queries on matrices of numbers *)

Section Agreement.

Context {F : ModelFamily}.
Variable argsort : list Q -> list nat.
Variable recursion_limit : nat.





End Agreement.

(** ** Queries on any matrix of floats *)

Section FloatTotal.

Context {F : ModelFamily}.
Variable argsort : list Q -> list nat.
Variable recursion_limit : nat.

Lemma path_of_row_length d (t : node Dist) (x : nat -> npfloat) :
  well_formed d t -> length (path_of_row t x) <= height t.
Proof.
  induction 1 as [ t Hp (Hsv & _ & _)
                 | t sv c1 c2 ns b Hp Hsv Hc1 Hc2 _ _ _ _ W1 IH1 W2 IH2 ];
    rewrite path_of_row_eq, height_eq, Hsv.
  - simpl. lia.
  - rewrite Hc1, Hc2.
    destruct (IEEE.lt (x (Z.to_nat (split_dimension t))) (finite sv));
      [ simpl; lia | ].
    destruct (IEEE.ge (x (Z.to_nat (split_dimension t))) (finite sv));
      simpl; lia.
Qed.

(** X24 (queries on any floats): on a fitted tree and a query of floats,
    NaN and infinities included, with as many columns as the tree has
    features, [predict] returns an array of one entry per row and
    [prediction_paths] one path per row, none of them with more steps than
    the depth returned by [get_depth] lies below the level of the root:
    neither query raises on NaN. *)
Theorem float_queries_return_per_row (t : node Dist) X M names :
  fitted_tree argsort recursion_limit t ->
  IEEE._normalize_data_and_feature_names X None = Ok (M, names) ->
  n_dim t = Some (IEEE.ncols M) ->
  exists predictions paths depth,
    IEEE.predict t X = Ok predictions /\
    length predictions = IEEE.nrows M /\
    IEEE.prediction_paths t X = Ok paths /\
    length paths = IEEE.nrows M /\
    get_depth t = Ok depth /\
    Forall (fun p => level t + length p <= depth) paths.
Proof.
  intros Hfit HX Hd.
  destruct (fitted_tree_well_formed Hfit) as (d & p & Hd' & Hp & W).
  assert (d = IEEE.ncols M) by congruence. subst d.
  destruct Hfit as (pp & pr & lvl & X0 & y & delta & prune_after & nm & H).
  apply fit_new_node_facts in H.
  destruct H as (M0 & names' & _ & _ & W0 & _ & _ & L & _).
  destruct (@float_predict_returns _ _ t W M eq_refl) as (r & Er & Len & _).
  exists (match r with
          | Some l => l
          | None => IEEE._create_merged_predictions_array M
          end),
         (map (fun i => path_of_row t (IEEE.data M i)) (seq 0 (IEEE.nrows M))),
         (level t + height t).
  split.
  { unfold IEEE.predict. rewrite HX.
    unfold IEEE._ensure_is_fitted. rewrite Hp, Hd, Nat.eqb_refl. simpl.
    rewrite Er. destruct r; reflexivity. }
  split.
  { destruct r as [ l | ]; [ apply Len; reflexivity | apply repeat_length ]. }
  split.
  { exact (@float_prediction_paths_rows _ _ t X M names p W Hp Hd HX eq_refl). }
  split; [ rewrite length_map, length_seq; reflexivity | ].
  split; [ unfold get_depth; rewrite (_update_depth_height W0 L); reflexivity | ].
  apply Forall_forall. intros q Hq. apply in_map_iff in Hq.
  destruct Hq as (i & <- & _).
  assert (B := @path_of_row_length _ t (IEEE.data M i) W). lia.
Qed.

End FloatTotal.

(** ** The further results on concrete trees *)

Lemma demo_tree_well_formed : well_formed 1 demo_tree.
Proof.
  destruct (fitted_tree_well_formed demo_tree_fitted) as (d & p & Hd & _ & W).
  inversion Hd; subst d. exact W.
Qed.

Lemma grid_tree_fitted : fitted_tree stable_argsort 100 grid_tree.
Proof.
  exists (9 # 10)%Q, [1; 1]%Q, 0, (Array2 grid_X), grid_y, (1 # 2)%Q, false, None.
  vm_compute. reflexivity.
Qed.

Lemma categorical_one_likelihood_per_split :
  @one_likelihood_per_split Categorical.family.
Proof.
  intros pp pr lvl ys idx n. simpl. apply length_map.
Qed.

Lemma demo_X_small_integers : small_integers demo_X.
Proof.
  intros i j Hi Hj.
  assert (j = 0) by (vm_compute in Hj; lia). subst j.
  do 5 (destruct i as [ | i ];
        [ eexists; split; [ reflexivity | vm_compute; discriminate ] | ]).
  vm_compute in Hi. lia.
Qed.

Lemma flat_X_constant : constant_columns flat_X.
Proof.
  intros i i' j Hi Hi' Hj. simpl in Hi, Hi', Hj.
  destruct i as [ | [ | [ | i ] ] ]; try lia;
    destruct i' as [ | [ | [ | i' ] ] ]; try lia;
    destruct j as [ | j ]; try lia; reflexivity.
Qed.

Lemma fit_returns_well_formed_tree_witness :
  _normalize_data_and_feature_names (Array2 demo_X) None
    = Ok (demo_X, ["x0"%string]) /\
  demo_fit false = Ok demo_tree /\
  well_formed (ncols demo_X) demo_tree /\
  n_dim demo_tree = Some (ncols demo_X) /\
  n_data demo_tree = Some (nrows demo_X) /\
  nrows demo_X = length demo_y.
Proof.
  split; [ reflexivity | ]. split; [ vm_compute; reflexivity | ].
  apply (@fit_returns_well_formed_tree Categorical.family stable_argsort 100
           (9 # 10)%Q [3; 1]%Q 0 (Array2 demo_X) demo_X demo_y 0%Q false None
           ["x0"%string] demo_tree).
  - reflexivity.
  - vm_compute. reflexivity.
Defined.

Lemma fit_accepts_only_valid_input_witness :
  demo_fit false = Ok demo_tree /\
  @check_target Categorical.family demo_y = Ok tt /\
  ~ (0 < 0)%Q /\
  ~ (1 < 0)%Q /\
  length demo_y <> 1 /\
  0 < 100 /\
  exists M names,
    _normalize_data_and_feature_names (Array2 demo_X) None = Ok (M, names) /\
    nrows M = length demo_y /\
    0 < ncols M.
Proof.
  split; [ vm_compute; reflexivity | ].
  apply (@fit_accepts_only_valid_input Categorical.family stable_argsort 100
           (Categorical.root [3; 1]%Q) (Array2 demo_X) demo_y 0%Q false None
           demo_tree).
  vm_compute. reflexivity.
Defined.

Lemma fit_returns_on_valid_input_witness :
  argsort_permutes stable_argsort /\
  @one_likelihood_per_split Categorical.family /\
  @check_target Categorical.family demo_y = Ok tt /\
  (0 <= 0 <= 1)%Q /\
  _normalize_data_and_feature_names (Array2 demo_X) None
    = Ok (demo_X, ["x0"%string]) /\
  nrows demo_X = length demo_y /\
  length demo_y <> 1 /\
  0 < ncols demo_X /\
  ncols demo_X <= length ["x0"%string] /\
  2 * Nat.max 1 (nrows demo_X) - 1 <= 100 /\
  exists t, demo_fit true = Ok t.
Proof.
  assert (D : (0 <= 0 <= 1)%Q) by (split; discriminate).
  assert (L1 : length demo_y <> 1) by (vm_compute; lia).
  assert (L2 : 0 < ncols demo_X) by (vm_compute; lia).
  assert (L3 : ncols demo_X <= length ["x0"%string]) by (vm_compute; lia).
  assert (L4 : 2 * Nat.max 1 (nrows demo_X) - 1 <= 100) by (vm_compute; lia).
  split; [ exact stable_argsort_permutes | ].
  split; [ exact categorical_one_likelihood_per_split | ].
  split; [ reflexivity | ]. split; [ exact D | ].
  split; [ reflexivity | ]. split; [ reflexivity | ].
  split; [ exact L1 | ]. split; [ exact L2 | ]. split; [ exact L3 | ].
  split; [ exact L4 | ].
  apply (@fit_returns_on_valid_input Categorical.family stable_argsort 100
           (9 # 10)%Q [3; 1]%Q 0 (Array2 demo_X) demo_X demo_y 0%Q true None
           ["x0"%string] stable_argsort_permutes
           categorical_one_likelihood_per_split eq_refl D eq_refl eq_refl
           L1 L2 L3 L4).
Defined.

Lemma constant_features_give_single_leaf_witness :
  _normalize_data_and_feature_names (Array2 flat_X) None
    = Ok (flat_X, ["x0"%string]) /\
  constant_columns flat_X /\
  flat_fit = Ok flat_tree /\
  leaf_state flat_tree /\
  n_data flat_tree = Some (nrows flat_X) /\
  get_n_leaves flat_tree = Ok 1.
Proof.
  split; [ reflexivity | ]. split; [ exact flat_X_constant | ].
  split; [ vm_compute; reflexivity | ].
  apply (@constant_features_give_single_leaf Categorical.family stable_argsort 100
           (9 # 10)%Q [1; 1]%Q 0 (Array2 flat_X) flat_X flat_y 0%Q true None
           ["x0"%string] flat_tree).
  - reflexivity.
  - exact flat_X_constant.
  - vm_compute. reflexivity.
Defined.

Lemma search_takes_first_maximum_witness :
  exists st,
    search_dims (Categorical.root [3; 1]%Q) demo_X demo_y 1 [[0; 1; 2; 3; 4]]
      (no_split_of (Categorical.root [3; 1]%Q) demo_y, (-1)%Z, (-1)%Z) [0]
      = Ok st /\
    exists cands,
      all_candidate_splits (Categorical.root [3; 1]%Q) demo_X demo_y 1
        [[0; 1; 2; 3; 4]] [0] = Ok cands /\
      first_maximum
        (no_split_of (Categorical.root [3; 1]%Q) demo_y, (-1)%Z, (-1)%Z) st cands.
Proof.
  destruct (search_dims (Categorical.root [3; 1]%Q) demo_X demo_y 1
              [[0; 1; 2; 3; 4]]
              (no_split_of (Categorical.root [3; 1]%Q) demo_y, (-1)%Z, (-1)%Z) [0])
    as [st | e] eqn:E; [ | vm_compute in E; discriminate E ].
  exists st. split; [ reflexivity | ].
  apply (@search_takes_first_maximum Categorical.family
           (Categorical.root [3; 1]%Q) demo_X demo_y 1 [[0; 1; 2; 3; 4]] [0]
           _ st E).
Defined.

Lemma children_inherit_settings_witness :
  demo_fit false = Ok demo_tree /\
  level demo_tree = 0 /\
  every_node
    (fun n : node (@Dist Categorical.family) =>
       partition_prior n = (9 # 10)%Q /\
       ((0 == 0)%Q -> prior n = [3; 1]%Q) /\
       (forall c, child1 n = Some c \/ child2 n = Some c ->
                  level c = level n + 1)) demo_tree.
Proof.
  split; [ vm_compute; reflexivity | ].
  apply (@children_inherit_settings Categorical.family stable_argsort 100
           (9 # 10)%Q [3; 1]%Q 0 (Array2 demo_X) demo_y 0%Q false None demo_tree).
  vm_compute. reflexivity.
Defined.

Lemma split_feature_names_follow_dimensions_witness :
  _normalize_data_and_feature_names (Array2 demo_X) None
    = Ok (demo_X, ["x0"%string]) /\
  demo_fit false = Ok demo_tree /\
  every_node
    (fun n : node (@Dist Categorical.family) =>
       split_value n <> None ->
       exists j name,
         split_dimension n = Z.of_nat j /\ j < ncols demo_X /\
         nth_error ["x0"%string] j = Some name /\
         split_feature_name n = Some name /\
         (@None (list string) = None ->
          (forall columns values, Array2 demo_X <> DataFrame columns values) ->
          name = String.append "x" (string_of_nat j))) demo_tree.
Proof.
  split; [ reflexivity | ]. split; [ vm_compute; reflexivity | ].
  apply (@split_feature_names_follow_dimensions Categorical.family stable_argsort
           100 (9 # 10)%Q [3; 1]%Q 0 (Array2 demo_X) demo_X demo_y 0%Q false None
           ["x0"%string] demo_tree).
  - reflexivity.
  - vm_compute. reflexivity.
Defined.

Lemma leaves_bounded_by_training_rows_witness :
  argsort_permutes stable_argsort /\
  _normalize_data_and_feature_names (Array2 demo_X) None
    = Ok (demo_X, ["x0"%string]) /\
  demo_fit false = Ok demo_tree /\
  exists n,
    get_n_leaves demo_tree = Ok n /\
    n <= Nat.max 1 (nrows demo_X) /\
    (nrows demo_X <> 0 ->
     every_node (fun k : node (@Dist Categorical.family) =>
                   exists m, n_data k = Some m /\ 0 < m) demo_tree).
Proof.
  split; [ exact stable_argsort_permutes | ].
  split; [ reflexivity | ]. split; [ vm_compute; reflexivity | ].
  apply (@leaves_bounded_by_training_rows Categorical.family stable_argsort 100
           (9 # 10)%Q [3; 1]%Q 0 (Array2 demo_X) demo_X demo_y 0%Q false None
           ["x0"%string] demo_tree).
  - exact stable_argsort_permutes.
  - reflexivity.
  - vm_compute. reflexivity.
Defined.

Lemma split_values_separate_training_rows_witness :
  argsort_permutes stable_argsort /\
  argsort_sorts stable_argsort /\
  _normalize_data_and_feature_names (Array2 demo_X) None
    = Ok (demo_X, ["x0"%string]) /\
  exact_dtype (dtype demo_X) /\
  small_integers demo_X /\
  demo_fit false = Ok demo_tree /\
  separates demo_X (seq 0 (nrows demo_X)) demo_tree.
Proof.
  split; [ exact stable_argsort_permutes | ].
  split; [ exact stable_argsort_sorts | ].
  split; [ reflexivity | ]. split; [ reflexivity | ].
  split; [ exact demo_X_small_integers | ].
  split; [ vm_compute; reflexivity | ].
  apply (@split_values_separate_training_rows Categorical.family stable_argsort
           100 (9 # 10)%Q [3; 1]%Q 0 (Array2 demo_X) demo_X demo_y 0%Q false None
           ["x0"%string]).
  - exact stable_argsort_permutes.
  - exact stable_argsort_sorts.
  - reflexivity.
  - reflexivity.
  - exact demo_X_small_integers.
  - vm_compute. reflexivity.
Defined.

Lemma n_data_counts_routed_training_rows_witness :
  argsort_permutes stable_argsort /\
  argsort_sorts stable_argsort /\
  _normalize_data_and_feature_names (Array2 demo_X) None
    = Ok (demo_X, ["x0"%string]) /\
  exact_dtype (dtype demo_X) /\
  small_integers demo_X /\
  demo_fit false = Ok demo_tree /\
  counts_routed_rows demo_X demo_tree (seq 0 (nrows demo_X)).
Proof.
  split; [ exact stable_argsort_permutes | ].
  split; [ exact stable_argsort_sorts | ].
  split; [ reflexivity | ]. split; [ reflexivity | ].
  split; [ exact demo_X_small_integers | ].
  split; [ vm_compute; reflexivity | ].
  apply (@n_data_counts_routed_training_rows Categorical.family stable_argsort
           100 (9 # 10)%Q [3; 1]%Q 0 (Array2 demo_X) demo_X demo_y 0%Q false None
           ["x0"%string]).
  - exact stable_argsort_permutes.
  - exact stable_argsort_sorts.
  - reflexivity.
  - reflexivity.
  - exact demo_X_small_integers.
  - vm_compute. reflexivity.
Defined.

Lemma queries_reject_wrong_width_witness :
  fitted_tree stable_argsort 100 demo_tree /\
  _normalize_data_and_feature_names wide_row None
    = Ok (of_rows float64 2 [Qs [1; 2]%Z], ["x0"%string; "x1"%string]) /\
  n_dim demo_tree = Some 1 /\
  ncols (of_rows float64 2 [Qs [1; 2]%Z]) <> 1 /\
  predict demo_tree wide_row = Raise BadInputDimensions /\
  prediction_paths demo_tree wide_row = Raise BadInputDimensions.
Proof.
  assert (N : ncols (of_rows float64 2 [Qs [1; 2]%Z]) <> 1) by (simpl; lia).
  split; [ exact demo_tree_fitted | ].
  split; [ reflexivity | ]. split; [ reflexivity | ].
  split; [ exact N | ].
  apply (@queries_reject_wrong_width Categorical.family stable_argsort 100
           demo_tree wide_row (of_rows float64 2 [Qs [1; 2]%Z])
           ["x0"%string; "x1"%string] 1 demo_tree_fitted eq_refl eq_refl N).
Defined.

Lemma prediction_paths_no_longer_than_depth_witness :
  fitted_tree stable_argsort 100 demo_tree /\
  exists paths,
    prediction_paths demo_tree (Array2 demo_X) = Ok paths /\
    exists depth,
      get_depth demo_tree = Ok depth /\
      Forall (fun p => level demo_tree + length p <= depth) paths.
Proof.
  split; [ exact demo_tree_fitted | ].
  destruct (prediction_paths demo_tree (Array2 demo_X)) as [paths | e] eqn:E;
    [ | vm_compute in E; discriminate E ].
  exists paths. split; [ reflexivity | ].
  apply (@prediction_paths_no_longer_than_depth Categorical.family stable_argsort
           100 demo_tree (Array2 demo_X) paths demo_tree_fitted E).
Defined.

Lemma depth_and_leaves_of_fitted_tree_witness :
  fitted_tree stable_argsort 100 demo_tree /\
  get_depth demo_tree = Ok (level demo_tree + height demo_tree) /\
  get_n_leaves demo_tree = Ok (count_leaves demo_tree) /\
  height demo_tree + 1 <= count_leaves demo_tree /\
  count_leaves demo_tree <= 2 ^ height demo_tree.
Proof.
  split; [ exact demo_tree_fitted | ].
  apply (@depth_and_leaves_of_fitted_tree Categorical.family stable_argsort 100
           demo_tree demo_tree_fitted).
Defined.

Lemma feature_importance_marks_used_dimensions_witness :
  fitted_tree stable_argsort 100 grid_tree /\
  n_dim grid_tree = Some 2 /\
  1 < 2 /\
  split_value grid_tree <> None /\
  exists fi q,
    feature_importance grid_tree = Ok fi /\
    nth_error fi 1 = Some (finite q) /\
    (uses_dimension grid_tree 1 = true -> (0 < q)%Q) /\
    (uses_dimension grid_tree 1 = false -> (q == 0)%Q).
Proof.
  assert (L : 1 < 2) by lia.
  assert (S : split_value grid_tree <> None) by discriminate.
  split; [ exact grid_tree_fitted | ].
  split; [ reflexivity | ]. split; [ exact L | ]. split; [ exact S | ].
  apply (@feature_importance_marks_used_dimensions Categorical.family
           stable_argsort 100 grid_tree 2 1 grid_tree_fitted eq_refl L S).
Defined.

Lemma prune_idempotent_witness :
  well_formed 1 demo_tree /\
  prune 100 demo_tree = Ok demo_pruned /\
  prune 100 demo_pruned = Ok demo_pruned.
Proof.
  assert (P : prune 100 demo_tree = Ok demo_pruned) by (vm_compute; reflexivity).
  split; [ exact demo_tree_well_formed | ]. split; [ exact P | ].
  apply (@prune_idempotent Categorical.family 1 100 demo_tree demo_pruned
           demo_tree_well_formed P).
Defined.

Lemma pruned_tree_has_no_mergeable_split_witness :
  well_formed 1 demo_tree /\
  prune 100 demo_tree = Ok demo_pruned /\
  every_node (fun n : node (@Dist Categorical.family) => ~ mergeable n)
    demo_pruned.
Proof.
  assert (P : prune 100 demo_tree = Ok demo_pruned) by (vm_compute; reflexivity).
  split; [ exact demo_tree_well_formed | ]. split; [ exact P | ].
  apply (@pruned_tree_has_no_mergeable_split Categorical.family 100 1 demo_tree
           demo_pruned demo_tree_well_formed P).
Defined.

Lemma prune_only_removes_leaves_witness :
  well_formed 1 demo_tree /\
  prune 100 demo_tree = Ok demo_pruned /\
  exists n n',
    get_n_leaves demo_tree = Ok n /\ get_n_leaves demo_pruned = Ok n' /\
    n' <= n /\ (n' = n -> demo_pruned = demo_tree) /\
    well_formed 1 demo_pruned /\
    n_dim demo_pruned = n_dim demo_tree /\
    n_data demo_pruned = n_data demo_tree /\
    posterior demo_pruned = posterior demo_tree /\
    level demo_pruned = level demo_tree.
Proof.
  assert (P : prune 100 demo_tree = Ok demo_pruned) by (vm_compute; reflexivity).
  split; [ exact demo_tree_well_formed | ]. split; [ exact P | ].
  apply (@prune_only_removes_leaves Categorical.family 100 1 demo_tree
           demo_pruned demo_tree_well_formed P).
Defined.

Lemma prune_returns_within_recursion_limit_witness :
  well_formed 1 demo_tree /\
  get_n_leaves demo_tree = Ok 3 /\
  2 * 3 <= 5 + 1 /\
  exists t', prune 5 demo_tree = Ok t'.
Proof.
  assert (L : 2 * 3 <= 5 + 1) by lia.
  split; [ exact demo_tree_well_formed | ]. split; [ reflexivity | ].
  split; [ exact L | ].
  apply (@prune_returns_within_recursion_limit Categorical.family 5 1 demo_tree 3
           demo_tree_well_formed eq_refl L).
Defined.

Lemma structure_queries_need_a_fit_witness :
  posterior (Categorical.root [3; 1]%Q) = None /\
  0 < 100 /\
  is_leaf (Categorical.root [3; 1]%Q) = Raise NotFittedError /\
  get_depth (Categorical.root [3; 1]%Q) = Raise NotFittedError /\
  get_n_leaves (Categorical.root [3; 1]%Q) = Raise NotFittedError /\
  _predict (Categorical.root [3; 1]%Q) demo_X = Raise NotFittedError /\
  prune 100 (Categorical.root [3; 1]%Q) = Raise NotFittedError.
Proof.
  assert (L : 0 < 100) by lia.
  split; [ reflexivity | ]. split; [ exact L | ].
  apply (@structure_queries_need_a_fit Categorical.family
           (Categorical.root [3; 1]%Q) demo_X 100 eq_refl L).
Defined.

(** ** Queries on concrete matrices of floats *)



(** C6 (n_data adds up): [fit] on a fresh estimator gives [demo_tree], in
    which [n_data] adds up.  A second [fit] of that estimator on three equal
    rows finds no split, overwrites [n_dim], [n_data] and [posterior] of the
    root and leaves the split of the first fit in place: the root counts 3
    rows, its children 2 and 3. *)
Theorem second_fit_keeps_stale_children :
  demo_fit false = Ok demo_tree /\
  n_data_adds_up demo_tree /\
  exists t c1 c2,
    demo_refit = Ok t /\
    split_value t = split_value demo_tree /\
    child1 t = Some c1 /\ child1 demo_tree = Some c1 /\
    child2 t = Some c2 /\ child2 demo_tree = Some c2 /\
    n_data t = Some 3 /\ n_data c1 = Some 2 /\ n_data c2 = Some 3 /\
    ~ n_data_adds_up t.
Proof.
  split; [ vm_compute; reflexivity | ].
  split.
  { eapply adds_up_split; try reflexivity.
    - apply adds_up_leaf. reflexivity.
    - eapply adds_up_split; try reflexivity; apply adds_up_leaf; reflexivity. }
  eexists. eexists. eexists.
  split; [ vm_compute; reflexivity | ].
  split; [ reflexivity | ].
  split; [ reflexivity | ]. split; [ reflexivity | ].
  split; [ reflexivity | ]. split; [ reflexivity | ].
  split; [ reflexivity | ]. split; [ reflexivity | ]. split; [ reflexivity | ].
  intro H. inversion H as [ t0 Hsv | t0 sv k1 k2 n1 n2 Hsv Hc1 Hc2 Hn1 Hn2 Hn ].
  - discriminate Hsv.
  - subst t0. simpl in Hc1, Hc2. inversion Hc1; subst k1. inversion Hc2; subst k2.
    simpl in Hn1, Hn2, Hn. inversion Hn1. inversion Hn2. subst.
    discriminate Hn.
Qed.








Lemma float_queries_return_per_row_witness :
  fitted_tree stable_argsort 100 demo_tree /\
  IEEE._normalize_data_and_feature_names (IEEE.Array2 nan_query) None
    = Ok (nan_query, ["x0"%string]) /\
  n_dim demo_tree = Some (IEEE.ncols nan_query) /\
  exists predictions paths depth,
    IEEE.predict demo_tree (IEEE.Array2 nan_query) = Ok predictions /\
    length predictions = IEEE.nrows nan_query /\
    IEEE.prediction_paths demo_tree (IEEE.Array2 nan_query) = Ok paths /\
    length paths = IEEE.nrows nan_query /\
    get_depth demo_tree = Ok depth /\
    Forall (fun p => level demo_tree + length p <= depth) paths.
Proof.
  split; [ exact demo_tree_fitted | ]. split; [ reflexivity | ].
  split; [ reflexivity | ].
  apply (@float_queries_return_per_row Categorical.family stable_argsort 100
           demo_tree (IEEE.Array2 nan_query) nan_query ["x0"%string]
           demo_tree_fitted eq_refl eq_refl).
Defined.
